(** * desiutil.plots.prepare_data: a shallow embedding and its properties

    The development follows [src/py/desiutil/plots.py], function
    [prepare_data] and its local helper [get_clip].

    Modelling choices, stated once:

    - Array elements are exact rationals ([Q]); comparisons between element
      values are those of [Q] ([Qle], [Qeq]).  Rounding, NaN and infinities
      of IEEE doubles are outside the model.
    - Python objects live in a store ([heap]) and are named by references
      ([loc]), because [prepare_data] returns its argument in one path and
      writes into an array in another.  A numpy view is identified with the
      array whose buffer it shares.
    - The numpy calls used by [prepare_data] are modelled by the functions
      of section "numpy"; each one quotes the call it stands for.
    - Python's builtin [float] applied to a string is a parameter of the
      development ([py_float]); [decimal_float] is the instance used in the
      worked examples.
    - The functions that call [prepare_data] ([plot_grid_map],
      [plot_healpix_map]) and the array computations of [plot_sky_binned],
      [plot_sky_circles] and [plot_slices] are modelled up to the call that
      draws, which is recorded with its arguments.  What healpy, the cosine
      and [init_sky] return are parameters of the sections that use them. *)

From Stdlib Require Import QArith Qround Lqa String Ascii.
From stdpp Require Import gmap list sorting.

Local Open Scope string_scope.

(** ** Element values *)

Definition Qltb (x y : Q) : bool := negb (Qle_bool y x).

(** [np.maximum] and [np.minimum] on two scalars. *)
Definition np_maximum (x y : Q) : Q := if Qle_bool x y then y else x.
Definition np_minimum (x y : Q) : Q := if Qle_bool x y then x else y.

(** [np.clip(x, a_min, a_max)] on one element: numpy documents it as
    [minimum(a_max, maximum(x, a_min))]. *)
Definition clip (a_min a_max x : Q) : Q := np_minimum (np_maximum x a_min) a_max.

(** Equality of two value arrays, element by element. *)
Definition same_values (xs ys : list Q) : Prop := Forall2 Qeq xs ys.

(** ** Strings *)

Definition startswith (p s : string) : bool := String.prefix p s.

Fixpoint endswith_char (c : ascii) (s : string) : bool :=
  match s with
  | EmptyString => false
  | String a EmptyString => Ascii.eqb a c
  | String _ s' => endswith_char c s'
  end.

(** [value[1:]] *)
Definition drop_first (s : string) : string :=
  match s with EmptyString => EmptyString | String _ s' => s' end.

(** [value[:-1]] *)
Fixpoint drop_last (s : string) : string :=
  match s with
  | EmptyString => EmptyString
  | String _ EmptyString => EmptyString
  | String a s' => String a (drop_last s')
  end.

(** A decimal reader used as the instance of Python's [float] in the
    examples: an optional sign, digits, and an optional fractional part. *)
Definition digit_of (c : ascii) : option Z :=
  let n := nat_of_ascii c in
  if (48 <=? n)%nat && (n <=? 57)%nat then Some (Z.of_nat (n - 48)) else None.

Fixpoint read_digits (s : string) (acc : Z) (count : nat) : Z * nat * string :=
  match s with
  | EmptyString => (acc, count, s)
  | String c s' =>
      match digit_of c with
      | Some d => read_digits s' (10 * acc + d)%Z (S count)
      | None => (acc, count, s)
      end
  end.

Definition read_unsigned (s : string) : option Q :=
  let '(ip, ni, rest) := read_digits s 0%Z 0%nat in
  match rest with
  | EmptyString => if (0 <? ni)%nat then Some (inject_Z ip) else None
  | String "." rest' =>
      let '(fp, nf, rest'') := read_digits rest' 0%Z 0%nat in
      match rest'' with
      | EmptyString =>
          if (0 <? ni + nf)%nat
          then Some (Qred (inject_Z ip + inject_Z fp / inject_Z (10 ^ Z.of_nat nf)))
          else None
      | _ => None
      end
  | _ => None
  end.

Definition decimal_float (s : string) : option Q :=
  match s with
  | String "-" s' => Qopp <$> read_unsigned s'
  | String "+" s' => read_unsigned s'
  | _ => read_unsigned s
  end.

(** ** The store *)

Definition loc := positive.
Definition shape := list nat.

(** [prod(shape)], the number of elements of an array of that shape. *)
Definition size_of (sh : shape) : nat := foldr Nat.mul 1%nat sh.

(** The objects [prepare_data] handles: a numeric [ndarray], a boolean
    [ndarray], and a [numpy.ma.MaskedArray].  The [_mask] attribute of a
    masked array is either the constant [nomask] ([None]) or a reference to
    a boolean array. *)
Inductive obj : Type :=
| NdArray (sh : shape) (vals : list Q)
| BoolArray (sh : shape) (bits : list bool)
| MaskedArray (sh : shape) (vals : list Q) (mask : option loc).

Abbreviation heap := (gmap loc obj).

Definition obj_shape (o : obj) : shape :=
  match o with
  | NdArray sh _ | BoolArray sh _ | MaskedArray sh _ _ => sh
  end.

(** ** Exceptions and the computation monad *)

Inductive value_error : Type :=
| InvalidMaskShape      (* raised by prepare_data itself *)
| CouldNotConvert       (* float(str) on a string that is not a number *)
| ZeroSizeReduction     (* np.min / np.max of an empty selection *)
| PercentileRange.      (* np.percentile with q outside [0, 100] *)

Inductive exn : Type :=
| ValueError (why : value_error)
| IndexError            (* np.percentile of an empty selection *)
| TypeError.            (* item assignment into the scalar nomask *)

(** [Beyond] marks executions the model does not describe: a dangling
    reference, an object of an unexpected class, or a numpy corner case
    whose result depends on the numpy release (a reduction that yields the
    [masked] constant). *)
Inductive outcome (A : Type) : Type :=
| Ret (a : A)
| Raise (e : exn)
| Beyond.
Arguments Ret {A} a.
Arguments Raise {A} e.
Arguments Beyond {A}.

Definition M (A : Type) : Type := heap → heap * outcome A.

#[export] Instance M_ret : MRet M := λ A a h, (h, Ret a).
#[export] Instance M_bind : MBind M := λ A B f c h,
  match c h with
  | (h', Ret a) => f a h'
  | (h', Raise e) => (h', Raise e)
  | (h', Beyond) => (h', Beyond)
  end.

Definition raise {A} (e : exn) : M A := λ h, (h, Raise e).
Definition beyond {A} : M A := λ h, (h, Beyond).

Definition deref (l : loc) : M obj := λ h,
  match h !! l with
  | Some o => (h, Ret o)
  | None => (h, Beyond)
  end.

Definition alloc (o : obj) : M loc := λ h,
  let l := fresh (dom h) in (<[l := o]> h, Ret l).

Definition store (l : loc) (o : obj) : M unit := λ h, (<[l := o]> h, Ret tt).

Definition skip : M unit := mret tt.

(** A pure computation that may raise. *)
Definition lift {A} (r : outcome A) : M A := λ h, (h, r).

(** ** numpy *)

(** [a[b]] for a boolean array [b] of the shape of [a]: the elements of [a]
    where [b] is true, in order. *)
Fixpoint boolean_index {A} (b : list bool) (a : list A) : list A :=
  match b, a with
  | true :: b', x :: a' => x :: boolean_index b' a'
  | false :: b', _ :: a' => boolean_index b' a'
  | _, _ => []
  end.

(** [b[idx] = True] for boolean arrays of one shape. *)
Definition set_true (idx b : list bool) : list bool := zip_with orb b idx.

(** A selection [data[~mask]]: each selected element with the bit of the
    mask that [data] itself carries (false for a plain array). *)
Definition selection := list (Q * bool).

(** The values of a selection that the mask of [data] leaves unmasked. *)
Definition live (sel : selection) : list Q := (filter (λ p, p.2 = false) sel).*1.

Definition fold_min (x : Q) (l : list Q) : Q := foldl np_minimum x l.
Definition fold_max (x : Q) (l : list Q) : Q := foldl np_maximum x l.

(** [np.min(sel)].  An empty selection raises [ValueError]; on a masked
    selection the reduction runs over the elements that are not masked, and
    yields the [masked] constant when there is none. *)
Definition np_min (sel : selection) : outcome Q :=
  match sel with
  | [] => Raise (ValueError ZeroSizeReduction)
  | _ => match live sel with
         | [] => Beyond
         | x :: l => Ret (fold_min x l)
         end
  end.

(** [np.max(sel)], symmetric. *)
Definition np_max (sel : selection) : outcome Q :=
  match sel with
  | [] => Raise (ValueError ZeroSizeReduction)
  | _ => match live sel with
         | [] => Beyond
         | x :: l => Ret (fold_max x l)
         end
  end.

Fixpoint insert_sorted (x : Q) (l : list Q) : list Q :=
  match l with
  | [] => [x]
  | y :: l' => if Qle_bool x y then x :: l else y :: insert_sorted x l'
  end.

Definition np_sort (l : list Q) : list Q := foldr insert_sorted [] l.

(** The default ("linear") method of [np.percentile] on a non-empty list:
    the virtual index [(n-1) * q/100] is split into its floor and its
    fractional part, and the two neighbours in sorted order are
    interpolated. *)
Definition linear_percentile (a : list Q) (q : Q) : Q :=
  let s := np_sort a in
  let n := Z.of_nat (length s) in
  let v := ((q / 100) * inject_Z (n - 1))%Q in
  let i := Qfloor v in
  let g := (v - inject_Z i)%Q in
  let below := nth (Z.to_nat i) s 0%Q in
  let above := nth (Z.to_nat (Z.min (i + 1) (n - 1))) s 0%Q in
  Qred (below + (above - below) * g).

(** [np.percentile(sel, q)].  The range of [q] is checked first; an empty
    selection then fails on its index computation; [np.percentile] has no
    defined behaviour on masked elements. *)
Definition np_percentile (sel : selection) (q : Q) : outcome Q :=
  if Qltb q 0 || Qltb 100 q then Raise (ValueError PercentileRange)
  else match sel with
       | [] => Raise IndexError
       | _ => if existsb snd sel then Beyond else Ret (linear_percentile sel.*1 q)
       end.

(** The index arrays [data < clip_lo] and [data > clip_hi].  On a masked
    array the comparison is made on the underlying values; the positions
    that [data] itself masks are masked in the result in any case. *)
Definition below (lo : Q) (vals : list Q) : list bool := (λ x, Qltb x lo) <$> vals.
Definition above (hi : Q) (vals : list Q) : list bool := (λ x, Qltb hi x) <$> vals.

(** ** prepare_data *)

(** A clip argument that is not [None]: a number or a string. *)
Inductive clip_arg : Type :=
| ClipNum (x : Q)
| ClipStr (s : string).

Section PrepareData.

(** Python's [float] on a string; [None] stands for its [ValueError]. *)
Variable py_float : string → option Q.

Definition float_of_str (s : string) : outcome Q :=
  match py_float s with
  | Some x => Ret x
  | None => Raise (ValueError CouldNotConvert)
  end.

(** The local function [get_clip] of [prepare_data]; [unmasked_data] is the
    variable of the enclosing function it reads. *)
Definition get_clip (unmasked_data : selection) (value : clip_arg) : outcome (Q * bool) :=
  match value with
  | ClipNum x => Ret (x, false)
  | ClipStr s =>
      let clip_mask := startswith "!" s in
      let s := if clip_mask then drop_first s else s in
      if endswith_char "%" s then
        match float_of_str (drop_last s) with
        | Ret q =>
            match np_percentile unmasked_data q with
            | Ret v => Ret (v, clip_mask)
            | Raise e => Raise e
            | Beyond => Beyond
            end
        | Raise e => Raise e
        | Beyond => Beyond
        end
      else
        match float_of_str s with
        | Ret v => Ret (v, clip_mask)
        | Raise e => Raise e
        | Beyond => Beyond
        end
  end.

(** The data argument after [np.asanyarray]: shape, values, and the [mask]
    attribute when the object has one. *)
Definition load_data (data : loc) : M (shape * list Q * option (option loc)) :=
  o ← deref data;
  match o with
  | NdArray sh vals => mret (sh, vals, None)
  | MaskedArray sh vals m => mret (sh, vals, Some m)
  | BoolArray _ _ => beyond
  end.

(** The shape and the bits of a boolean array. *)
Definition load_bool (l : loc) : M (shape * list bool) :=
  o ← deref l;
  match o with
  | BoolArray sh bits => mret (sh, bits)
  | _ => beyond
  end.

(** The bits of a mask value: [nomask] reads as false everywhere. *)
Definition mask_bits (mask : option loc) (sh : shape) : M (list bool) :=
  match mask with
  | None => mret (replicate (size_of sh) false)
  | Some l => '(_, bits) ← load_bool l; mret bits
  end.

(** The first statement of [prepare_data], up to [unmasked_data = ...]:
    either the function returns [data] at once ([inl]), or it goes on with
    the mask it settled on ([inr]). *)
Definition resolve_mask (data : loc) (own : option (option loc)) (sh : shape)
    (mask : option loc) (clip_lo clip_hi : option clip_arg) : M (loc + option loc) :=
  match mask with
  | None =>
      match own with
      | Some m =>
          (* mask = data.mask *)
          match clip_lo, clip_hi with
          | None, None => mret (inl data)
          | _, _ => mret (inr m)
          end
      | None =>
          (* except AttributeError: mask = np.zeros_like(data, dtype=bool) *)
          l ← alloc (BoolArray sh (replicate (size_of sh) false));
          mret (inr (Some l))
      end
  | Some l =>
      (* mask = np.asarray(mask) *)
      '(msh, _) ← load_bool l;
      if bool_decide (msh = sh) then mret (inr (Some l))
      else raise (ValueError InvalidMaskShape)
  end.

(** [data[~mask]]: the elements of [data] where [mask] is false, each with
    the bit of the mask of [data] itself. *)
Definition unmasked_of (mbits obits : list bool) (vals : list Q) : selection :=
  boolean_index (negb <$> mbits) (zip vals obits).

(** Whether [np.clip(data, clip_lo, clip_hi)] carries a mask array.  The
    mask of the result of [np.clip] is the mask of [data] when it holds a
    [True]; a mask that holds none is reduced to the scalar [nomask], as it
    is for a plain array and for a masked array without a mask array. *)
Definition clipped_has_mask (own : option (option loc)) (obits : list bool) : bool :=
  match own with
  | Some (Some _) => existsb id obits
  | _ => false
  end.

(** [numpy.ma.MaskedArray(np.clip(data, clip_lo, clip_hi), mask=mask)].
    When the clipped array carries a mask array, the constructor combines
    it with [mask] into a new array ([keep_mask=True]); otherwise it takes
    [mask] as it is, without a copy ([copy=False]), be it the [mask]
    argument, the array made by [np.zeros_like], or the mask array of
    [data] itself. *)
Definition masked_array_of_clip (sh : shape) (vals : list Q) (own : option (option loc))
    (mask : option loc) (mbits obits : list bool) (lo hi : Q) : M loc :=
  m ← (if clipped_has_mask own obits
       then l ← alloc (BoolArray sh (zip_with orb mbits obits)); mret (Some l)
       else mret mask);
  alloc (MaskedArray sh (clip lo hi <$> vals) m).

(** [clipped.mask[idx] = True].  The [mask] attribute is (a view of) the
    mask array of [clipped], so the assignment writes into that array; when
    the mask is the scalar [nomask], item assignment raises [TypeError]. *)
Definition mask_setitem (clipped : loc) (idx : list bool) : M unit :=
  o ← deref clipped;
  match o with
  | MaskedArray _ _ (Some l) =>
      '(sh, bits) ← load_bool l;
      store l (BoolArray sh (set_true idx bits))
  | MaskedArray _ _ None => raise TypeError
  | _ => beyond
  end.

(** [clip_lo, mask_lo = np.min(unmasked_data), False] when [clip_lo] is
    [None], and [get_clip(clip_lo)] otherwise; the same for [clip_hi] with
    [np.max]. *)
Definition resolve_lo (unmasked_data : selection) (clip_lo : option clip_arg) : outcome (Q * bool) :=
  match clip_lo with
  | None => match np_min unmasked_data with
            | Ret v => Ret (v, false)
            | Raise e => Raise e
            | Beyond => Beyond
            end
  | Some c => get_clip unmasked_data c
  end.

Definition resolve_hi (unmasked_data : selection) (clip_hi : option clip_arg) : outcome (Q * bool) :=
  match clip_hi with
  | None => match np_max unmasked_data with
            | Ret v => Ret (v, false)
            | Raise e => Raise e
            | Beyond => Beyond
            end
  | Some c => get_clip unmasked_data c
  end.

(** The statements of [prepare_data] that follow the first one. *)
Definition clip_and_mask (sh : shape) (vals : list Q) (own : option (option loc))
    (mask : option loc) (clip_lo clip_hi : option clip_arg) : M loc :=
  mbits ← mask_bits mask sh;
  obits ← match own with
          | Some m => mask_bits m sh
          | None => mret (replicate (size_of sh) false)
          end;
  let unmasked_data := unmasked_of mbits obits vals in
  '(clip_lo, mask_lo) ← lift (resolve_lo unmasked_data clip_lo);
  '(clip_hi, mask_hi) ← lift (resolve_hi unmasked_data clip_hi);
  clipped ← masked_array_of_clip sh vals own mask mbits obits clip_lo clip_hi;
  _ ← (if (mask_lo : bool) then mask_setitem clipped (below clip_lo vals)
       else skip);
  _ ← (if (mask_hi : bool) then mask_setitem clipped (above clip_hi vals)
       else skip);
  mret clipped.

Definition prepare_data (data : loc) (mask : option loc)
    (clip_lo clip_hi : option clip_arg) : M loc :=
  '(sh, vals, own) ← load_data data;
  r ← resolve_mask data own sh mask clip_lo clip_hi;
  match r with
  | inl d => mret d
  | inr mask => clip_and_mask sh vals own mask clip_lo clip_hi
  end.

End PrepareData.

(** ** Reading results back *)

(** The values and the mask bits of a masked array in a store. *)
Definition ma_values (h : heap) (r : loc) : option (list Q) :=
  match h !! r with
  | Some (MaskedArray _ vals _) => Some vals
  | _ => None
  end.

Definition ma_mask (h : heap) (r : loc) : option (list bool) :=
  match h !! r with
  | Some (MaskedArray sh _ None) => Some (replicate (size_of sh) false)
  | Some (MaskedArray _ _ (Some l)) =>
      match h !! l with
      | Some (BoolArray _ bits) => Some bits
      | _ => None
      end
  | _ => None
  end.

Definition bool_bits (h : heap) (l : loc) : option (list bool) :=
  match h !! l with
  | Some (BoolArray _ bits) => Some bits
  | _ => None
  end.

(** What [np.asanyarray(data)] exposes of the object at [data]. *)
Definition data_parts (h : heap) (data : loc) : option (shape * list Q * option (option loc)) :=
  match h !! data with
  | Some (NdArray sh vals) => Some (sh, vals, None)
  | Some (MaskedArray sh vals m) => Some (sh, vals, Some m)
  | _ => None
  end.

Definition mask_value_bits (h : heap) (m : option loc) (sh : shape) : option (list bool) :=
  match m with
  | None => Some (replicate (size_of sh) false)
  | Some l => bool_bits h l
  end.

(** The mask that [data] itself carries: the bits of its [mask] attribute
    for a masked array, all false for a plain array. *)
Definition own_mask (h : heap) (data : loc) : option (list bool) :=
  match data_parts h data with
  | Some (sh, _, own) =>
      match own with
      | Some m => mask_value_bits h m sh
      | None => Some (replicate (size_of sh) false)
      end
  | None => None
  end.

(** The effective input mask, that is the variable [mask] once the first
    statement of [prepare_data] has run: the [mask] argument when there is
    one, the mask of [data] otherwise. *)
Definition effective_mask (h : heap) (data : loc) (mask : option loc) : option (list bool) :=
  match mask with
  | Some l => bool_bits h l
  | None => own_mask h data
  end.

(** A [mask] argument that passes the shape test of [prepare_data]. *)
Definition mask_arg_ok (h : heap) (mask : option loc) (sh : shape) : Prop :=
  ∀ l, mask = Some l → ∃ bits, h !! l = Some (BoolArray sh bits).

(** A boolean array of shape [sh] at [l]. *)
Definition shaped (h : heap) (l : loc) (sh : shape) : Prop :=
  ∃ bits, h !! l = Some (BoolArray sh bits).

(** The identity path is taken exactly by a masked array passed alone. *)
Definition fast_path (h : heap) (data : loc) (mask : option loc)
    (clip_lo clip_hi : option clip_arg) : Prop :=
  mask = None ∧ clip_lo = None ∧ clip_hi = None ∧
  ∃ sh vals m, h !! data = Some (MaskedArray sh vals m).

Definition apply_flag (f : bool) (idx b : list bool) : list bool :=
  if f then set_true idx b else b.

(** The mask the constructor gives the result, and the mask of the result
    once the flagged bounds have been written into it. *)
Definition base_mask (own : option (option loc)) (mbits obits : list bool) : list bool :=
  if clipped_has_mask own obits then zip_with orb mbits obits else mbits.

Definition out_mask (own : option (option loc)) (mbits obits : list bool) (vals : list Q)
    (lo : Q) (flo : bool) (hi : Q) (fhi : bool) : list bool :=
  apply_flag fhi (above hi vals) (apply_flag flo (below lo vals) (base_mask own mbits obits)).


(** Well-formed stores: every array has as many elements as its shape
    says, and the mask of a masked array is a boolean array of its shape. *)
Definition wf_obj (h : heap) (o : obj) : bool :=
  match o with
  | NdArray sh vals => bool_decide (length vals = size_of sh)
  | BoolArray sh bits => bool_decide (length bits = size_of sh)
  | MaskedArray sh vals m =>
      bool_decide (length vals = size_of sh) &&
      match m with
      | None => true
      | Some l =>
          match h !! l with
          | Some (BoolArray sh' bits) =>
              bool_decide (sh' = sh) && bool_decide (length bits = size_of sh)
          | _ => false
          end
      end
  end.

Definition wf_heap (h : heap) : Prop :=
  forallb (λ p, wf_obj h p.2) (map_to_list h) = true.

(** ** Flags and bodies of string bounds *)

(** A string bound with its leading ["!"] removed. *)
Definition unflagged (s : string) : string :=
  if startswith "!" s then drop_first s else s.

(** Whether a clip argument asks for masking: a string that starts with
    ["!"]. *)
Definition is_flagged (c : option clip_arg) : bool :=
  match c with
  | Some (ClipStr s) => startswith "!" s
  | _ => false
  end.

(** Whether a clip argument is a percentile request: a string that, after
    its flag, ends with ["%"]. *)
Definition is_percentile (c : option clip_arg) : bool :=
  match c with
  | Some (ClipStr s) => endswith_char "%" (unflagged s)
  | _ => false
  end.

(** The text handed to [float]: the string without its flag and without
    its ["%"]. *)
Definition clip_body (s : string) : string :=
  if endswith_char "%" (unflagged s) then drop_last (unflagged s) else unflagged s.

(** A string bound that [float] rejects. *)
Definition malformed (py_float : string → option Q) (c : option clip_arg) : Prop :=
  match c with
  | Some (ClipStr s) => py_float (clip_body s) = None
  | _ => False
  end.

(** A bound that is absent, a number, or a string that [float] accepts,
    with a percentile inside [[0, 100]]. *)
Definition well_formed (py_float : string → option Q) (c : option clip_arg) : Prop :=
  match c with
  | Some (ClipStr s) =>
      ∃ q, py_float (clip_body s) = Some q ∧
           (is_percentile c = true → (0 <= q <= 100)%Q)
  | _ => True
  end.

(** A bound that is resolved from the distribution of the unmasked data. *)
Definition from_distribution (c : option clip_arg) : Prop :=
  c = None ∨ is_percentile c = true.

(** The exceptions of a reduction over an empty selection. *)
Definition empty_reduction_error (e : exn) : Prop :=
  e = ValueError ZeroSizeReduction ∨ e = IndexError.

(** The two bounds as a call resolves them in the store it starts in, when
    it resolves them. *)
Definition resolved_bounds (py_float : string → option Q) (h : heap) (data : loc)
    (mask : option loc) (clip_lo clip_hi : option clip_arg) : option (Q * Q) :=
  match data_parts h data, effective_mask h data mask, own_mask h data with
  | Some (_, vals, _), Some eff, Some obits =>
      match resolve_lo py_float (unmasked_of eff obits vals) clip_lo,
            resolve_hi py_float (unmasked_of eff obits vals) clip_hi with
      | Ret (lo, _), Ret (hi, _) => Some (lo, hi)
      | _, _ => None
      end
  | _, _, _ => None
  end.

(** The resolved lower bound does not exceed the resolved upper bound. *)
Definition bounds_ordered (py_float : string → option Q) (h : heap) (data : loc)
    (mask : option loc) (clip_lo clip_hi : option clip_arg) : Prop :=
  match resolved_bounds py_float h data mask clip_lo clip_hi with
  | Some (lo, hi) => (lo <= hi)%Q
  | None => True
  end.

(** ** Example stores *)

(** [np.arange(5.)] at reference 1. *)
Definition arange5 : heap :=
  {[ 1%positive := NdArray [5%nat] [0; 1; 2; 3; 4]%Q ]}.

(** [np.arange(5.)] at reference 1 and [np.zeros(5, dtype=bool)] at
    reference 2. *)
Definition arange5_with_mask : heap :=
  <[ 2%positive := BoolArray [5%nat] [false; false; false; false; false] ]> arange5.

(** [numpy.ma.MaskedArray([1., 2., 3.], mask=[True, False, False])] at
    reference 1 (its mask at reference 2) and
    [np.zeros(3, dtype=bool)] at reference 3. *)
Definition masked3 : heap :=
  <[ 3%positive := BoolArray [3%nat] [false; false; false] ]>
  (<[ 2%positive := BoolArray [3%nat] [true; false; false] ]>
  {[ 1%positive := MaskedArray [3%nat] [1; 2; 3]%Q (Some 2%positive) ]}).

(** [np.arange(5.)] at reference 1 and [np.zeros(4, dtype=bool)] at
    reference 3: data of shape [(5,)] and a mask of shape [(4,)]. *)
Definition arange5_with_mask4 : heap :=
  <[ 3%positive := BoolArray [4%nat] [false; false; false; false] ]> arange5.

(** [numpy.ma.MaskedArray([1., 2., 3.], mask=[False, False, False])] at
    reference 1, its mask at reference 2: a mask array that holds no
    [True]. *)
Definition unmasked3 : heap :=
  <[ 2%positive := BoolArray [3%nat] [false; false; false] ]>
  {[ 1%positive := MaskedArray [3%nat] [1; 2; 3]%Q (Some 2%positive) ]}.

(** [numpy.ma.MaskedArray([1., 2.], mask=[True, True])] at reference 1. *)
Definition all_masked2 : heap :=
  <[ 2%positive := BoolArray [2%nat] [true; true] ]>
  {[ 1%positive := MaskedArray [2%nat] [1; 2]%Q (Some 2%positive) ]}.

(** [numpy.ma.arange(5)] at reference 1: a masked array whose mask is the
    constant [nomask]. *)
Definition ma_arange5 : heap :=
  {[ 1%positive := MaskedArray [5%nat] [0; 1; 2; 3; 4]%Q None ]}.

(** [np.array([0., 10.])] at reference 1. *)
Definition pair010 : heap :=
  {[ 1%positive := NdArray [2%nat] [0; 10]%Q ]}.

(** ** plot_grid_map *)

(** What [plot_grid_map] reads of a [Basemap] object. *)
Record sky_map : Type := SkyMap { lonmin : Q; lonmax : Q }.

(** The exceptions of the plotting functions: those that [prepare_data]
    raises, the [ValueError]s and the [RuntimeError] the function raises
    itself, and the [IndexError] of an index into an empty array. *)
Inductive plot_error : Type :=
| PrepareData (e : exn)
| Expected2D
| InvalidRaEdges
| InvalidDecEdges
| RaEdgesSpan
| NotAllSky
| EmptyIndex
| Expected1D
| WrongPixelNumber      (* ValueError of hp.npix2nside *)
| MaskNotWritable       (* TypeError: item assignment into the scalar nomask *)
| PixelOutOfRange.      (* IndexError of an index array *)

(** [Unmodelled] stands for the executions the model does not describe
    ([Beyond] in [prepare_data]) and for a loop that is cut short. *)
Inductive plot_outcome (A : Type) : Type :=
| Plotted (a : A)
| Failed (e : plot_error)
| Unmodelled.
Arguments Plotted {A} a.
Arguments Failed {A} e.
Arguments Unmodelled {A}.

(** The call [basemap.pcolormesh(grid_ra, grid_dec, data, cmap=cmap, ...)]
    and the colorbar that follows: the edges given to [np.meshgrid], the
    rows of [data] (each cell with its mask bit), and the label of the
    colorbar when one is drawn. *)
Record grid_plot : Type := GridPlot {
  plot_basemap : sky_map;
  plot_ra : list Q;
  plot_dec : list Q;
  plot_data : list (list (Q * bool));
  plot_cmap : string;
  plot_colorbar : option (option string)
}.

(** [np.unique]: the values in increasing order, each once. *)
Fixpoint drop_repeats (l : list Q) : list Q :=
  match l with
  | [] => []
  | x :: t =>
      match t with
      | [] => [x]
      | y :: _ => if Qeq_bool x y then drop_repeats t else x :: drop_repeats t
      end
  end.

Definition np_unique (l : list Q) : list Q := drop_repeats (np_sort l).

(** The rows of a two-dimensional array stored in row-major order. *)
Fixpoint rows_of {A} (n_rows n_cols : nat) (l : list A) : list (list A) :=
  match n_rows with
  | O => []
  | S k => take n_cols l :: rows_of k n_cols (drop n_cols l)
  end.

(** [while ra_edges[0] > basemap.lonmin: ra_edges -= 360], with a bound on
    the number of iterations. *)
Fixpoint shift_down (fuel : nat) (lon_min : Q) (ra_edges : list Q) : option (list Q) :=
  match fuel with
  | O => None
  | S k =>
      match ra_edges with
      | [] => None
      | e0 :: _ =>
          if Qltb lon_min e0 then shift_down k lon_min ((λ x, x - 360)%Q <$> ra_edges)
          else Some ra_edges
      end
  end.

(** [while ra_edges[0] <= basemap.lonmin - 360: ra_edges += 360], with a
    bound on the number of iterations. *)
Fixpoint shift_up (fuel : nat) (lon_min : Q) (ra_edges : list Q) : option (list Q) :=
  match fuel with
  | O => None
  | S k =>
      match ra_edges with
      | [] => None
      | e0 :: _ =>
          if Qle_bool e0 (lon_min - 360) then shift_up k lon_min ((λ x, x + 360)%Q <$> ra_edges)
          else Some ra_edges
      end
  end.

(** Iterations that are enough for a loop that moves by 360 over a
    distance [x]. *)
Definition ra_fuel (x : Q) : nat := S (Z.to_nat (Qceiling (x / 360))).

(** The two loops, one after the other. *)
Definition shift_edges (lon_min : Q) (ra_edges : list Q) : option (list Q) :=
  match ra_edges with
  | [] => None
  | e0 :: _ =>
      match shift_down (ra_fuel (e0 - lon_min)) lon_min ra_edges with
      | Some (e1 :: t) => shift_up (ra_fuel (lon_min - e1)) lon_min (e1 :: t)
      | _ => None
      end
  end.

(** [np.where(ra_edges >= basemap.lonmin)[0][0]] *)
Fixpoint first_at_least (lon_min : Q) (ra_edges : list Q) : option nat :=
  match ra_edges with
  | [] => None
  | e :: t => if Qle_bool lon_min e then Some O else S <$> first_at_least lon_min t
  end.

(** The statements under [if first > 0:]. *)
Definition wrap_around (bm : sky_map) (first : nat) (ra_edges : list Q)
    (data : list (list (Q * bool))) : plot_outcome (list Q * list (list (Q * bool))) :=
  if (0 <? first)%nat then
    match ra_edges !! first with
    | None => Failed EmptyIndex
    | Some e =>
        if Qltb (lonmin bm) e then
          (* Split a wrap-around column into separate left and right columns. *)
          Plotted (([lonmin bm] ++ drop first ra_edges
                      ++ ((λ x, x + 360)%Q <$> take first ra_edges) ++ [lonmax bm])%list,
                   (λ row, (take 1 (drop first row) ++ drop first row
                              ++ take first row ++ take 1 (drop first row))%list) <$> data)
        else
          Plotted ((drop first ra_edges
                      ++ ((λ x, x + 360)%Q <$> take (S first) ra_edges))%list,
                   (λ row, (drop first row ++ take (S first) row)%list) <$> data)
    end
  else Plotted (ra_edges, data).

(** [if label:] on a string or [None]. *)
Definition shown_label (label : option string) : option string :=
  match label with
  | Some s => if String.eqb s "" then None else Some s
  | None => None
  end.

Section PlotGridMap.

Variable py_float : string → option Q.

(** The basemap [init_sky()] creates. *)
Variable init_sky : sky_map.

(** [plot_grid_map] from [n_dec, n_ra = data.shape] on; [cells] are the
    values of the prepared data with their mask bits, in row-major order. *)
Definition grid_map_of (sh : shape) (cells : list (Q * bool)) (ra_edges dec_edges : list Q)
    (cmap : string) (colorbar : bool) (label : option string) (basemap : option sky_map) :
    plot_outcome grid_plot :=
  match sh with
  | [n_dec; n_ra] =>
      let ra_edges := np_unique ra_edges in
      let dec_edges := np_unique dec_edges in
      if negb (length ra_edges =? n_ra + 1)%nat then Failed InvalidRaEdges
      else if negb (length dec_edges =? n_dec + 1)%nat then Failed InvalidDecEdges
      else
        match head ra_edges, last ra_edges with
        | Some e0, Some en =>
            if negb (Qeq_bool e0 (en - 360)) then Failed RaEdgesSpan
            else
              let basemap := default init_sky basemap in
              if negb (Qeq_bool (lonmin basemap + 360) (lonmax basemap)) then Failed NotAllSky
              else
                match shift_edges (lonmin basemap) ra_edges with
                | None => Unmodelled
                | Some ra_edges =>
                    match first_at_least (lonmin basemap) ra_edges with
                    | None => Failed EmptyIndex
                    | Some first =>
                        match wrap_around basemap first ra_edges (rows_of n_dec n_ra cells) with
                        | Plotted (ra_edges, data) =>
                            Plotted {| plot_basemap := basemap;
                                       plot_ra := ra_edges;
                                       plot_dec := dec_edges;
                                       plot_data := data;
                                       plot_cmap := cmap;
                                       plot_colorbar :=
                                         if colorbar then Some (shown_label label) else None |}
                        | Failed e => Failed e
                        | Unmodelled => Unmodelled
                        end
                    end
                end
        | _, _ => Failed EmptyIndex
        end
  | _ => Failed Expected2D
  end.

Definition plot_grid_map (data : loc) (ra_edges dec_edges : list Q)
    (cmap : string) (colorbar : bool) (label : option string) (basemap : option sky_map) :
    heap → heap * plot_outcome grid_plot := λ h,
  match prepare_data py_float data None None None h with
  | (h1, Ret d) =>
      (h1, match h1 !! d, ma_mask h1 d with
           | Some (MaskedArray sh vals _), Some bits =>
               grid_map_of sh (zip vals bits) ra_edges dec_edges cmap colorbar label basemap
           | _, _ => Unmodelled
           end)
  | (h1, Raise e) => (h1, Failed (PrepareData e))
  | (h1, Beyond) => (h1, Unmodelled)
  end.

End PlotGridMap.

(** A 2 by 4 grid at reference 1 with its RA edges, and the basemap of
    [init_sky()] with [ra_center=120]. *)
Definition grid2x4 : heap :=
  {[ 1%positive := NdArray [2%nat; 4%nat] [1; 2; 3; 4; 5; 6; 7; 8]%Q ]}.

Definition quarter_edges : list Q := [-180; -90; 0; 90; 180]%Q.
Definition three_dec_edges : list Q := [-90; 0; 90]%Q.
Definition sky120 : sky_map := SkyMap (-60) 300.

(** An all-sky map whose left edge lies between the last two edges of
    [quarter_edges]. *)
Definition sky280 : sky_map := SkyMap 100 460.

(** * plot_sky_binned and plot_sky_circles: right ascensions *)

(** Rounding towards zero. *)
Definition Qtrunc (x : Q) : Z := if Qle_bool 0 x then Qfloor x else Qceiling x.

(** [np.fmod(x, y)]: the remainder of the division rounded towards zero; it
    has the sign of [x]. *)
Definition np_fmod (x y : Q) : Q := x - y * inject_Z (Qtrunc (x / y)).

(** In [plot_sky_binned]:
    [ra = np.fmod(ra, 360.)] and then [ra[ra >= 180.] -= 360.]. *)
Definition wrap_ra (ra : list Q) : list Q :=
  (λ x, if Qle_bool 180 x then x - 360 else x)%Q <$> ((λ x, np_fmod x 360) <$> ra).

(** [np.linspace(start, stop, num)]: [arange(0, num) * step + start] with
    [step = (stop - start) / (num - 1)], and the last element set to [stop]. *)
Definition np_linspace (start stop : Q) (num : nat) : list Q :=
  let div := (num - 1)%nat in
  let step := ((stop - start) / inject_Z (Z.of_nat div))%Q in
  let y := (λ i, inject_Z (Z.of_nat i) * step + start)%Q <$> seq 0 num in
  if (1 <? num)%nat then <[div := stop]> y else y.

(** In [plot_sky_binned]: [ra_edges = np.linspace(-180., +180., n_ra + 1)]. *)
Definition sky_ra_edges (n_ra : nat) : list Q := np_linspace (-180) 180 (n_ra + 1).

Section PlotSkyCircles.

(** [np.cos(np.radians(dec))]. *)
Variable cos_deg : Q → Q.

(** [dDEC = 0.5 * field_of_view] and [dRA = dDEC / np.cos(np.radians(dec_center))]. *)
Definition circle_dRA (field_of_view : Q) (dec_center : list Q) : list Q :=
  (λ dec, ((1 # 2) * field_of_view) / cos_deg dec)%Q <$> dec_center.

(** [edge_dist = np.fmod(ra_center - basemap.lonmin, 360)] and
    [wrapped = np.minimum(edge_dist, 360 - edge_dist) < 1.05 * dRA],
    for one circle. *)
Definition circle_wrapped (lon_min ra dra : Q) : bool :=
  let edge_dist := np_fmod (ra - lon_min) 360 in
  Qltb (np_minimum edge_dist (360 - edge_dist)) ((21 # 20) * dra).

Definition wrapped_circles (bm : sky_map) (field_of_view : Q) (ra_center dec_center : list Q) :
    list bool :=
  zip_with (circle_wrapped (lonmin bm)) ra_center (circle_dRA field_of_view dec_center).

(** The circles the loop of [plot_sky_circles] draws: centre, [dRA] and face
    colour of each circle that is not [wrapped]. *)
Definition drawn_circles {C} (bm : sky_map) (field_of_view : Q) (ra_center dec_center : list Q)
    (facecolors : list C) : list (Q * Q * Q * C) :=
  let keep := negb <$> wrapped_circles bm field_of_view ra_center dec_center in
  zip (zip (zip (boolean_index keep ra_center) (boolean_index keep dec_center))
         (boolean_index keep (circle_dRA field_of_view dec_center)))
    (boolean_index keep facecolors).

End PlotSkyCircles.

(** The cosine on the equator, for the examples. *)
Definition cos_on_equator (dec : Q) : Q := 1.

(** * plot_healpix_map *)

(** The call [PolyCollection(verts, array=data, cmap=cmap, ...)] and the
    colorbar that follows: one cell per pixel with its mask bit. *)
Record healpix_plot : Type := HealpixPlot {
  hp_basemap : sky_map;
  hp_nside : nat;
  hp_cells : list (Q * bool);
  hp_cmap : string;
  hp_colorbar : option (option string)
}.

(** [b[wrapped] = True] for an array [wrapped] of indices within range. *)
Definition set_pixels (wrapped : list nat) (b : list bool) : list bool :=
  foldr (λ i acc, <[i := true]> acc) b wrapped.

Section PlotHealpixMap.

Variable py_float : string → option Q.

(** The basemap [init_sky()] creates. *)
Variable init_sky : sky_map.

(** [hp.npix2nside]; [None] when it raises [ValueError]. *)
Variable npix2nside : nat → option nat.

(** The array [wrapped] of the pixels that wrap around in RA, which healpy
    computes from [nside] and [basemap.lonmax]. *)
Variable wrapped_pixels : nat → sky_map → list nat.

Definition plot_healpix_map (data : loc) (cmap : string) (colorbar : bool)
    (label : option string) (basemap : option sky_map) :
    heap → heap * plot_outcome healpix_plot := λ h,
  match prepare_data py_float data None None None h with
  | (h1, Ret d) =>
      match h1 !! d with
      | Some (MaskedArray [npix] vals m) =>
          match npix2nside npix with
          | None => (h1, Failed WrongPixelNumber)
          | Some nside =>
              let basemap := default init_sky basemap in
              let wrapped := wrapped_pixels nside basemap in
              (* data.mask[wrapped] = True *)
              match m with
              | None => (h1, Failed MaskNotWritable)
              | Some l =>
                  match h1 !! l with
                  | Some (BoolArray msh bits) =>
                      if forallb (λ i, i <? length bits)%nat wrapped then
                        (<[l := BoolArray msh (set_pixels wrapped bits)]> h1,
                         Plotted {| hp_basemap := basemap;
                                    hp_nside := nside;
                                    hp_cells := zip vals (set_pixels wrapped bits);
                                    hp_cmap := cmap;
                                    hp_colorbar :=
                                      if colorbar then Some (shown_label label) else None |})
                      else (h1, Failed PixelOutOfRange)
                  | _ => (h1, Unmodelled)
                  end
              end
          end
      | Some (MaskedArray _ _ _) => (h1, Failed Expected1D)
      | _ => (h1, Unmodelled)
      end
  | (h1, Raise e) => (h1, Failed (PrepareData e))
  | (h1, Beyond) => (h1, Unmodelled)
  end.

End PlotHealpixMap.

(** A map of 12 pixels with a mask array of its own, one without a mask
    array, and a plain array; the pixel count healpy accepts here, and the
    pixels taken to wrap around. *)
Definition healpix12 : heap :=
  {[ 1%positive := MaskedArray [12%nat] [1; 2; 3; 4; 5; 6; 7; 8; 9; 10; 11; 12]%Q (Some 2%positive);
     2%positive := BoolArray [12%nat] (replicate 12 false);
     3%positive := MaskedArray [12%nat] [1; 2; 3; 4; 5; 6; 7; 8; 9; 10; 11; 12]%Q None;
     4%positive := NdArray [12%nat] [1; 2; 3; 4; 5; 6; 7; 8; 9; 10; 11; 12]%Q ]}.

Definition nside_of_12 (npix : nat) : option nat :=
  if (npix =? 12)%nat then Some 1%nat else None.

Definition wrapped_2_6 (nside : nat) (bm : sky_map) : list nat := [2%nat; 6%nat].

(** * plot_slices *)

(** [np.searchsorted(a, v, side='right')] on a sorted array: the index of
    the first element above [v], or the length when there is none. *)
Fixpoint searchsorted_right (a : list Q) (v : Q) : nat :=
  match a with
  | [] => 0%nat
  | b :: a' => if Qle_bool b v then S (searchsorted_right a' v) else 0%nat
  end.

Fixpoint nondecreasing (l : list Q) : bool :=
  match l with
  | x :: t => match t with
              | y :: _ => Qle_bool x y && nondecreasing t
              | [] => true
              end
  | [] => true
  end.

Fixpoint nonincreasing (l : list Q) : bool :=
  match l with
  | x :: t => match t with
              | y :: _ => Qle_bool y x && nonincreasing t
              | [] => true
              end
  | [] => true
  end.

(** [np.digitize(x, bins)]: [searchsorted(bins, x, side='right')] when the
    bins increase, [len(bins) - searchsorted(bins[::-1], x, side='right')]
    when they decrease; [None] stands for the [ValueError] raised for bins
    that are not monotonic. *)
Definition np_digitize (x bins : list Q) : option (list nat) :=
  if nondecreasing bins then Some (searchsorted_right bins <$> x)
  else if nonincreasing bins
       then Some ((λ v, length bins - searchsorted_right (reverse bins) v)%nat <$> x)
       else None.

(** [x_bins = np.linspace(x_lo, x_hi, num_slices + 1)]. *)
Definition slice_bins (x_lo x_hi : Q) (num_slices : nat) : list Q :=
  np_linspace x_lo x_hi (num_slices + 1).

(** [x_i = np.digitize(x, x_bins) - 1]. *)
Definition slice_indices (x : list Q) (x_bins : list Q) : option (list Z) :=
  match np_digitize x x_bins with
  | Some d => Some ((λ n : nat, (Z.of_nat n - 1)%Z) <$> d)
  | None => None
  end.

(** [y_slice = y[(x_i == s)]]; a boolean index of another length than [y]
    raises [IndexError] ([None]). *)
Definition y_slice (x_i : list Z) (y : list Q) (s : nat) : option (list Q) :=
  if (length x_i =? length y)%nat
  then Some (boolean_index ((λ i, Z.eqb i (Z.of_nat s)) <$> x_i) y)
  else None.

(** The percentiles [(2.5, 16, 50, 84, 97.5)]. *)
Definition slice_percentiles : list Q := [5 # 2; 16; 50; 84; 195 # 2]%Q.

(** One turn of the loop of [plot_slices] over the slices: the count of the
    slice and its limits, the percentiles of [y_slice] or zeros when the
    slice is empty. *)
Definition slice_stat (x_i : list Z) (y : list Q) (s : nat) : option (nat * list Q) :=
  match y_slice x_i y s with
  | Some ys =>
      Some (length ys,
            if (0 <? length ys)%nat then linear_percentile ys <$> slice_percentiles
            else [0; 0; 0; 0; 0]%Q)
  | None => None
  end.

(** [counts] and [limits] as the loop leaves them. *)
Definition slice_stats (x y : list Q) (x_lo x_hi : Q) (num_slices : nat) :
    option (list (nat * list Q)) :=
  match slice_indices x (slice_bins x_lo x_hi num_slices) with
  | Some x_i => mapM (slice_stat x_i y) (seq 0 num_slices)
  | None => None
  end.

(** ** Monad and store lemmas *)

Lemma bind_unfold {A B} (c : M A) (k : A → M B) (h : heap) :
  (c ≫= k) h =
  match c h with
  | (h', Ret a) => k a h'
  | (h', Raise e) => (h', Raise e)
  | (h', Beyond) => (h', Beyond)
  end.
Proof. reflexivity. Qed.

Lemma bind_Ret {A B} (c : M A) (k : A → M B) (h h1 : heap) (a : A) :
  c h = (h1, Ret a) → (c ≫= k) h = k a h1.
Proof. intros Hc. rewrite bind_unfold, Hc. reflexivity. Qed.

Lemma bind_Raise {A B} (c : M A) (k : A → M B) (h h1 : heap) (e : exn) :
  c h = (h1, Raise e) → (c ≫= k) h = (h1, Raise e).
Proof. intros Hc. rewrite bind_unfold, Hc. reflexivity. Qed.

Lemma bind_Ret_inv {A B} (c : M A) (k : A → M B) (h h' : heap) (b : B) :
  (c ≫= k) h = (h', Ret b) → ∃ a h1, c h = (h1, Ret a) ∧ k a h1 = (h', Ret b).
Proof.
  rewrite bind_unfold. destruct (c h) as [h1 [a | e |]]; try discriminate.
  intros Hk. exists a, h1. split; [reflexivity | exact Hk].
Qed.

Lemma deref_Some (l : loc) (o : obj) (h : heap) :
  h !! l = Some o → deref l h = (h, Ret o).
Proof. intros Hl. unfold deref. rewrite Hl. reflexivity. Qed.

Lemma deref_Ret_inv (l : loc) (h h1 : heap) (o : obj) :
  deref l h = (h1, Ret o) → h1 = h ∧ h !! l = Some o.
Proof.
  unfold deref. destruct (h !! l) as [o' |]; [| discriminate].
  intros [= -> ->]. split; reflexivity.
Qed.

Lemma fresh_lookup (h : heap) : h !! fresh (dom h) = None.
Proof. apply not_elem_of_dom. apply is_fresh. Qed.

Lemma load_data_NdArray (data : loc) (h : heap) sh vals :
  h !! data = Some (NdArray sh vals) → load_data data h = (h, Ret (sh, vals, None)).
Proof. intros Hd. unfold load_data. rewrite (bind_Ret _ _ _ _ _ (deref_Some _ _ _ Hd)). reflexivity. Qed.

Lemma load_data_MaskedArray (data : loc) (h : heap) sh vals m :
  h !! data = Some (MaskedArray sh vals m) → load_data data h = (h, Ret (sh, vals, Some m)).
Proof. intros Hd. unfold load_data. rewrite (bind_Ret _ _ _ _ _ (deref_Some _ _ _ Hd)). reflexivity. Qed.

Lemma load_bool_BoolArray (l : loc) (h : heap) sh bits :
  h !! l = Some (BoolArray sh bits) → load_bool l h = (h, Ret (sh, bits)).
Proof. intros Hl. unfold load_bool. rewrite (bind_Ret _ _ _ _ _ (deref_Some _ _ _ Hl)). reflexivity. Qed.

Lemma load_bool_Ret_inv (l : loc) (h h1 : heap) sh bits :
  load_bool l h = (h1, Ret (sh, bits)) → h1 = h ∧ h !! l = Some (BoolArray sh bits).
Proof.
  unfold load_bool. intros H. apply bind_Ret_inv in H as (o & h2 & Hd & Hk).
  apply deref_Ret_inv in Hd as [-> Hl].
  destruct o; try discriminate. injection Hk as -> -> ->. split; [reflexivity | exact Hl].
Qed.

(** ** The identity path (C1) *)

(** C1.  When the input is a masked array and neither a mask nor a clip
    bound is passed, [prepare_data] returns the very reference it was
    given, and the store is untouched: the result is the input object
    itself, not a copy. *)
Theorem prepare_data_passes_masked_input_through
    (py_float : string → option Q) (h : heap) (data : loc)
    (sh : shape) (vals : list Q) (m : option loc) :
  h !! data = Some (MaskedArray sh vals m) →
  prepare_data py_float data None None None h = (h, Ret data).
Proof.
  intros Hd. unfold prepare_data.
  rewrite (bind_Ret _ _ _ _ _ (load_data_MaskedArray _ _ _ _ _ Hd)).
  reflexivity.
Qed.

(** ** Inversion of the steps of [prepare_data] *)

Lemma load_data_Ret_inv (data : loc) (h h1 : heap) p :
  load_data data h = (h1, Ret p) → h1 = h ∧ data_parts h data = Some p.
Proof.
  unfold load_data, data_parts. intros H.
  apply bind_Ret_inv in H as (o & h2 & Hd & Hk).
  apply deref_Ret_inv in Hd as [-> Hl]. rewrite Hl.
  destruct o; try discriminate; injection Hk as -> <-; split; reflexivity.
Qed.

Lemma mask_bits_Ret_inv (m : option loc) (sh : shape) (h h1 : heap) bits :
  mask_bits m sh h = (h1, Ret bits) → h1 = h ∧ mask_value_bits h m sh = Some bits.
Proof.
  unfold mask_bits, mask_value_bits, bool_bits. destruct m as [l |].
  - intros H. apply bind_Ret_inv in H as ([msh b] & h2 & Hl & Hk).
    apply load_bool_Ret_inv in Hl as [-> Hl]. rewrite Hl.
    injection Hk as -> ->. split; reflexivity.
  - intros [= -> <-]. split; reflexivity.
Qed.

Lemma mask_bits_Some (m : option loc) (sh : shape) (h : heap) bits :
  mask_value_bits h m sh = Some bits → mask_bits m sh h = (h, Ret bits).
Proof.
  unfold mask_bits, mask_value_bits, bool_bits. destruct m as [l |].
  - destruct (h !! l) as [[| msh b |] |] eqn:Hl; try discriminate.
    intros [= ->]. rewrite (bind_Ret _ _ _ _ _ (load_bool_BoolArray _ _ _ _ Hl)). reflexivity.
  - intros [= <-]. reflexivity.
Qed.

Lemma lift_Ret_inv {A} (r : outcome A) (h h1 : heap) (a : A) :
  lift r h = (h1, Ret a) → h1 = h ∧ r = Ret a.
Proof. unfold lift. intros [= -> ->]. split; reflexivity. Qed.

Lemma alloc_Ret_inv (o : obj) (h h1 : heap) (l : loc) :
  alloc o h = (h1, Ret l) → h !! l = None ∧ h1 = <[l := o]> h.
Proof.
  unfold alloc. intros [= <- <-]. split; [apply fresh_lookup | reflexivity].
Qed.

(** The outcome of the first statement. *)
Lemma resolve_mask_Ret_inv (data : loc) own sh mask clo chi (h h1 : heap) r :
  resolve_mask data own sh mask clo chi h = (h1, Ret r) →
  (r = inl data ∧ h1 = h ∧ mask = None ∧ clo = None ∧ chi = None ∧ is_Some own) ∨
  (∃ mv, r = inr mv ∧
     ((mask = None ∧ own = Some mv ∧ h1 = h) ∨
      (∃ l, mask = None ∧ own = None ∧ mv = Some l ∧ h !! l = None ∧
            h1 = <[l := BoolArray sh (replicate (size_of sh) false)]> h) ∨
      (∃ l bits, mask = Some l ∧ mv = Some l ∧ h1 = h ∧
            h !! l = Some (BoolArray sh bits)))).
Proof.
  unfold resolve_mask. destruct mask as [l |].
  - intros H. apply bind_Ret_inv in H as ([msh b] & h2 & Hl & Hk).
    apply load_bool_Ret_inv in Hl as [-> Hl].
    case_bool_decide as Hsh; [| discriminate]. subst msh.
    injection Hk as <- <-. right. exists (Some l). split; [reflexivity |].
    right. right. exists l, b. auto.
  - destruct own as [m |].
    + destruct clo, chi; intros [= <- <-]; try (right; exists m; split; [reflexivity | left; auto]).
      left. repeat split; eauto.
    + intros H. apply bind_Ret_inv in H as (l & h2 & Ha & Hk).
      apply alloc_Ret_inv in Ha as [Hl ->]. injection Hk as <- <-.
      right. exists (Some l). split; [reflexivity |]. right. left. exists l. auto.
Qed.

Lemma mask_setitem_Ret_inv (r : loc) (idx : list bool) (h h1 : heap) u :
  mask_setitem r idx h = (h1, Ret u) →
  ∃ sh vals l msh bits,
    h !! r = Some (MaskedArray sh vals (Some l)) ∧
    h !! l = Some (BoolArray msh bits) ∧
    h1 = <[l := BoolArray msh (set_true idx bits)]> h.
Proof.
  unfold mask_setitem. intros H.
  apply bind_Ret_inv in H as (o & h2 & Hd & Hk).
  apply deref_Ret_inv in Hd as [-> Hr].
  destruct o as [| | sh vals [l |]]; try discriminate.
  apply bind_Ret_inv in Hk as ([msh bits] & h2 & Hl & Hk).
  apply load_bool_Ret_inv in Hl as [-> Hl].
  unfold store in Hk. injection Hk as <- _.
  exists sh, vals, l, msh, bits. auto.
Qed.

(** One conditional write [if flag: clipped.mask[idx] = True], seen from
    the masked array [r] it goes through. *)
Lemma flag_step (f : bool) (r : loc) (idx : list bool) (h h1 : heap) u
    sh cv rm k :
  (if f then mask_setitem r idx else skip) h = (h1, Ret u) →
  h !! r = Some (MaskedArray sh cv rm) →
  ma_mask h r = Some k →
  h1 !! r = Some (MaskedArray sh cv rm) ∧
  ma_mask h1 r = Some (apply_flag f idx k) ∧
  (∀ l, rm ≠ Some l → h1 !! l = h !! l) ∧
  (∀ l msh, rm = Some l → shaped h l msh →
            h1 !! l = Some (BoolArray msh (apply_flag f idx k))).
Proof.
  intros H Hr Hk. destruct f; simpl.
  - apply mask_setitem_Ret_inv in H as (sh' & vals' & l & msh & bits & Hr' & Hl & ->).
    rewrite Hr in Hr'. injection Hr' as <- <- ->.
    assert (l ≠ r) as Hne by (intros ->; congruence).
    unfold ma_mask in Hk. rewrite Hr, Hl in Hk. injection Hk as <-.
    unfold ma_mask. split_and!.
    + rewrite lookup_insert_ne by done. exact Hr.
    + rewrite lookup_insert_ne, Hr, lookup_insert_eq by done. reflexivity.
    + intros l' Hl'. rewrite lookup_insert_ne by congruence. reflexivity.
    + intros l' msh' [= <-] [b Hb]. rewrite lookup_insert_eq. congruence.
  - injection H as <- _. split_and!; auto.
    intros l msh -> [b Hb]. unfold ma_mask in Hk.
    rewrite Hr, Hb in Hk. congruence.
Qed.

(** The construction of the result, before any flagged write. *)
Lemma masked_array_of_clip_Ret_inv sh vals own mv mbits obits lo hi (h h1 : heap) r :
  masked_array_of_clip sh vals own mv mbits obits lo hi h = (h1, Ret r) →
  mask_value_bits h mv sh = Some mbits →
  ∃ rm,
    h !! r = None ∧
    h1 !! r = Some (MaskedArray sh (clip lo hi <$> vals) rm) ∧
    ma_mask h1 r = Some (base_mask own mbits obits) ∧
    (∀ l, l ≠ r → rm ≠ Some l → h1 !! l = h !! l) ∧
    ((rm = mv ∧ clipped_has_mask own obits = false) ∨
     (clipped_has_mask own obits = true ∧ ∃ l, rm = Some l ∧ h !! l = None)) ∧
    (∀ l, rm = Some l →
          ∃ msh, shaped h1 l msh ∧
                 (h !! l = None → msh = sh) ∧
                 (∀ msh0 b, h !! l = Some (BoolArray msh0 b) → msh = msh0)).
Proof.
  unfold masked_array_of_clip, base_mask. intros H Hm.
  apply bind_Ret_inv in H as (rm & h2 & Hrm & Ha).
  apply alloc_Ret_inv in Ha as [Hr ->]. exists rm.
  destruct (clipped_has_mask own obits) eqn:Hchm.
  - apply bind_Ret_inv in Hrm as (l & h3 & Ha & Hk).
    apply alloc_Ret_inv in Ha as [Hl ->]. injection Hk as <- <-.
    assert (l ≠ r) as Hne by (intros ->; rewrite lookup_insert_eq in Hr; discriminate).
    rewrite lookup_insert_ne in Hr by done.
    split; [exact Hr |]. split; [apply lookup_insert_eq |]. split.
    { unfold ma_mask. rewrite lookup_insert_eq, lookup_insert_ne, lookup_insert_eq by done.
      reflexivity. }
    split.
    { intros l' Hl' Hrm. rewrite !lookup_insert_ne by congruence. reflexivity. }
    split; [right; split; [reflexivity |]; exists l; auto |].
    intros l' [= <-]. exists sh. split; [| split; [reflexivity | congruence]]. eexists.
    rewrite lookup_insert_ne, lookup_insert_eq by done. reflexivity.
  - injection Hrm as <- <-.
    split; [exact Hr |]. split; [apply lookup_insert_eq |]. split.
    { unfold ma_mask. rewrite lookup_insert_eq.
      destruct mv as [l |]; simpl in Hm; [| exact Hm].
      unfold bool_bits in Hm. rewrite lookup_insert_ne by (intros ->; rewrite Hr in Hm; discriminate).
      destruct (h !! l) as [[] |]; congruence. }
    split.
    { intros l' Hl' _. rewrite lookup_insert_ne by congruence. reflexivity. }
    split; [left; auto |].
    intros l' ->. simpl in Hm. unfold bool_bits in Hm.
    destruct (h !! l') as [[| msh b |] |] eqn:Hl'; try discriminate.
    exists msh. split; [| split; [discriminate | congruence]].
    exists b. rewrite lookup_insert_ne by (intros ->; congruence). exact Hl'.
Qed.

Lemma clip_and_mask_Ret_inv pf sh vals own mv clo chi (h h' : heap) r :
  clip_and_mask pf sh vals own mv clo chi h = (h', Ret r) →
  ∃ mbits obits lo flo hi fhi rm,
    mask_value_bits h mv sh = Some mbits ∧
    match own with
    | Some m => mask_value_bits h m sh
    | None => Some (replicate (size_of sh) false)
    end = Some obits ∧
    resolve_lo pf (unmasked_of mbits obits vals) clo = Ret (lo, flo) ∧
    resolve_hi pf (unmasked_of mbits obits vals) chi = Ret (hi, fhi) ∧
    h !! r = None ∧
    h' !! r = Some (MaskedArray sh (clip lo hi <$> vals) rm) ∧
    ma_mask h' r = Some (out_mask own mbits obits vals lo flo hi fhi) ∧
    (∀ l, l ≠ r → rm ≠ Some l → h' !! l = h !! l) ∧
    ((rm = mv ∧ clipped_has_mask own obits = false) ∨
     (clipped_has_mask own obits = true ∧ ∃ l, rm = Some l ∧ h !! l = None)) ∧
    (rm = None → flo = false ∧ fhi = false) ∧
    (∀ l, rm = Some l →
          ∃ msh, h' !! l = Some (BoolArray msh (out_mask own mbits obits vals lo flo hi fhi)) ∧
                 (h !! l = None → msh = sh) ∧
                 (∀ msh0 b, h !! l = Some (BoolArray msh0 b) → msh = msh0)).
Proof.
  unfold clip_and_mask. intros H.
  apply bind_Ret_inv in H as (mbits & h1 & Hmb & H).
  apply mask_bits_Ret_inv in Hmb as [-> Hmb].
  apply bind_Ret_inv in H as (obits & h1 & Hob & H).
  assert (h1 = h ∧ match own with
                    | Some m => mask_value_bits h m sh
                    | None => Some (replicate (size_of sh) false)
                    end = Some obits) as [-> Hob'].
  { destruct own as [m |].
    - apply mask_bits_Ret_inv in Hob. exact Hob.
    - injection Hob as <- <-. auto. }
  clear Hob.
  apply bind_Ret_inv in H as ([lo flo] & h1 & Hlo & H).
  apply lift_Ret_inv in Hlo as [-> Hlo].
  apply bind_Ret_inv in H as ([hi fhi] & h1 & Hhi & H).
  apply lift_Ret_inv in Hhi as [-> Hhi].
  apply bind_Ret_inv in H as (clipped & h1 & Hc & H).
  apply (masked_array_of_clip_Ret_inv _ _ _ _ _ _ _ _ _ _ _) in Hc
    as (rm & Hfresh & Hr1 & Hk1 & Hframe1 & Hrm & Hshape1); [| exact Hmb].
  apply bind_Ret_inv in H as (u1 & h2 & Hs1 & H).
  destruct (flag_step _ _ _ _ _ _ _ _ _ _ Hs1 Hr1 Hk1) as (Hr2 & Hk2 & Hframe2 & Hshape2).
  apply bind_Ret_inv in H as (u2 & h3 & Hs2 & H).
  destruct (flag_step _ _ _ _ _ _ _ _ _ _ Hs2 Hr2 Hk2) as (Hr3 & Hk3 & Hframe3 & Hshape3).
  injection H as <- <-.
  exists mbits, obits, lo, flo, hi, fhi, rm.
  split_and!; try assumption.
  - intros l Hl Hne. rewrite Hframe3, Hframe2 by exact Hne. apply Hframe1; assumption.
  - intros ->. split.
    + destruct flo; [| reflexivity].
      apply mask_setitem_Ret_inv in Hs1 as (? & ? & ? & ? & ? & Hr' & _). congruence.
    + destruct fhi; [| reflexivity].
      apply mask_setitem_Ret_inv in Hs2 as (? & ? & ? & ? & ? & Hr' & _). congruence.
  - intros l Hl. destruct (Hshape1 l Hl) as (msh & Hsh1 & Hmsh).
    exists msh. split; [| exact Hmsh].
    apply (Hshape3 l msh Hl). eexists. apply (Hshape2 l msh Hl). exact Hsh1.
Qed.

(** Every returning call, described from the store it started in: either
    the identity path, or a new masked array whose values are the clipped
    input values and whose mask is [out_mask].  The mask array [rm] of the
    result is new, or it is the array the variable [mask] names: the [mask]
    argument, or the mask array of [data] when no [mask] is passed. *)
Lemma prepare_data_Ret_inv pf data mask clo chi (h h' : heap) r :
  prepare_data pf data mask clo chi h = (h', Ret r) →
  ∃ sh vals own,
    data_parts h data = Some (sh, vals, own) ∧
    ((r = data ∧ h' = h ∧ mask = None ∧ clo = None ∧ chi = None ∧ is_Some own) ∨
     (∃ mbits obits lo flo hi fhi rm,
        mask_arg_ok h mask sh ∧
        effective_mask h data mask = Some mbits ∧
        own_mask h data = Some obits ∧
        resolve_lo pf (unmasked_of mbits obits vals) clo = Ret (lo, flo) ∧
        resolve_hi pf (unmasked_of mbits obits vals) chi = Ret (hi, fhi) ∧
        h !! r = None ∧
        h' !! r = Some (MaskedArray sh (clip lo hi <$> vals) rm) ∧
        ma_mask h' r = Some (out_mask own mbits obits vals lo flo hi fhi) ∧
        (∀ l, is_Some (h !! l) → rm ≠ Some l → h' !! l = h !! l) ∧
        (∀ l, rm = Some l → is_Some (h !! l) →
              clipped_has_mask own obits = false ∧
              (mask = Some l ∨ (mask = None ∧ own = Some (Some l)))) ∧
        (rm = None → flo = false ∧ fhi = false ∧ mask = None ∧ own = Some None) ∧
        (∀ l, rm = Some l →
              ∃ msh,
                h' !! l = Some (BoolArray msh (out_mask own mbits obits vals lo flo hi fhi)) ∧
                (h !! l = None → msh = sh) ∧
                (∀ msh0 b, h !! l = Some (BoolArray msh0 b) → msh = msh0)))).
Proof.
  unfold prepare_data. intros H.
  apply bind_Ret_inv in H as ([[sh vals] own] & h1 & Hload & H).
  apply load_data_Ret_inv in Hload as [-> Hparts].
  exists sh, vals, own. split; [exact Hparts |].
  apply bind_Ret_inv in H as (rr & h1 & Hres & H).
  apply resolve_mask_Ret_inv in Hres
    as [(-> & -> & -> & -> & -> & Hown) | (mv & -> & Hcases)].
  { injection H as <- <-. left. repeat split; auto. }
  right.
  apply clip_and_mask_Ret_inv in H
    as (mbits & obits & lo & flo & hi & fhi & rm & Hmb & Hob & Hlo & Hhi
        & Hfresh & Hr & Hk & Hframe & Hrm & Hnone & Hshape).
  exists mbits, obits, lo, flo, hi, fhi, rm.
  destruct Hcases as [(-> & -> & ->) | [(l & -> & -> & -> & Hl & ->) | (l & bits & -> & -> & -> & Hl)]].
  - (* mask = data.mask *)
    unfold effective_mask, own_mask. rewrite Hparts.
    split_and!; try assumption.
    + intros l [=].
    + intros l [o Hl] Hne. apply Hframe; [congruence | exact Hne].
    + intros l Hl [o Ho]. destruct Hrm as [[Hrm Hno] | [_ (l' & Hrm & Hl')]]; [| congruence].
      split; [exact Hno |]. right. split; [reflexivity | congruence].
    + intros Hn. destruct (Hnone Hn) as [-> ->]. split_and!; try reflexivity.
      destruct Hrm as [[Hrm Hno] | [_ (l' & Hrm & Hl')]]; congruence.
  - (* mask = np.zeros_like(data, dtype=bool) *)
    assert (r ≠ l) as Hne by (intros ->; rewrite lookup_insert_eq in Hfresh; discriminate).
    rewrite lookup_insert_ne in Hfresh by done.
    simpl in Hmb. unfold bool_bits in Hmb. rewrite lookup_insert_eq in Hmb. injection Hmb as <-.
    injection Hob as <-.
    unfold effective_mask, own_mask. rewrite Hparts.
    destruct Hrm as [[-> _] | [[=] _]].
    split_and!; try assumption; try reflexivity.
    + intros l' [=].
    + intros l' [o Hl'] Hne'. rewrite Hframe by congruence.
      apply lookup_insert_ne. congruence.
    + intros l' [= <-] [o Ho]. congruence.
    + intros [=].
    + intros l' Hl'. destruct (Hshape l' Hl') as (msh & Hmsh & _ & Hsh).
      injection Hl' as <-.
      exists msh. split; [exact Hmsh |]. split; [| congruence].
      intros _. eapply Hsh. apply lookup_insert_eq.
  - (* the mask argument *)
    simpl in Hmb. unfold effective_mask, own_mask. rewrite Hparts.
    split_and!; try assumption.
    + intros l' [= <-]. eauto.
    + intros l' [o Hl'] Hne'. apply Hframe; [congruence | exact Hne'].
    + intros l' Hl' [o Ho]. destruct Hrm as [[Hrm Hno] | [_ (l'' & Hrm & Hl'')]]; [| congruence].
      split; [exact Hno |]. left. congruence.
    + intros Hn. destruct Hrm as [[Hrm Hno] | [_ (l'' & Hrm & Hl'')]]; congruence.
Qed.

(** ** Well-formed stores *)

Lemma wf_heap_lookup (h : heap) (l : loc) (o : obj) :
  wf_heap h → h !! l = Some o → wf_obj h o = true.
Proof.
  unfold wf_heap. rewrite forallb_forall. intros Hwf Hl.
  apply (Hwf (l, o)). apply list_elem_of_In, elem_of_map_to_list. exact Hl.
Qed.

Lemma wf_bool_length (h : heap) (l : loc) sh bits :
  wf_heap h → h !! l = Some (BoolArray sh bits) → length bits = size_of sh.
Proof.
  intros Hwf Hl. apply wf_heap_lookup in Hl; [| exact Hwf].
  simpl in Hl. apply bool_decide_eq_true in Hl. exact Hl.
Qed.

Lemma wf_values_length (h : heap) (data : loc) sh vals own :
  wf_heap h → data_parts h data = Some (sh, vals, own) → length vals = size_of sh.
Proof.
  unfold data_parts. intros Hwf Hd.
  destruct (h !! data) as [o |] eqn:Hl; [| discriminate].
  apply wf_heap_lookup in Hl; [| exact Hwf].
  destruct o; try discriminate; injection Hd as -> -> <-; simpl in Hl.
  - apply bool_decide_eq_true in Hl. exact Hl.
  - apply andb_true_iff in Hl as [Hl _]. apply bool_decide_eq_true in Hl. exact Hl.
Qed.

Lemma wf_own_length (h : heap) (data : loc) sh vals own obits :
  wf_heap h → data_parts h data = Some (sh, vals, own) →
  own_mask h data = Some obits → length obits = size_of sh.
Proof.
  unfold own_mask, data_parts. intros Hwf Hd.
  destruct (h !! data) as [o |] eqn:Hl; [| discriminate].
  apply wf_heap_lookup in Hl; [| exact Hwf].
  destruct o as [sh' v | | sh' v m]; try discriminate; injection Hd as -> -> <-; simpl in Hl.
  - intros [= <-]. apply length_replicate.
  - apply andb_true_iff in Hl as [_ Hl]. destruct m as [dm |]; simpl.
    + unfold bool_bits. destruct (h !! dm) as [[| sh' b |] |]; try discriminate.
      apply andb_true_iff in Hl as [_ Hl]. apply bool_decide_eq_true in Hl.
      intros [= <-]. exact Hl.
    + intros [= <-]. apply length_replicate.
Qed.

Lemma wf_effective_length (h : heap) (data : loc) mask sh vals own mbits :
  wf_heap h → data_parts h data = Some (sh, vals, own) → mask_arg_ok h mask sh →
  effective_mask h data mask = Some mbits → length mbits = size_of sh.
Proof.
  intros Hwf Hd Hok. destruct mask as [l |]; simpl.
  - destruct (Hok l eq_refl) as [bits Hl]. unfold bool_bits. rewrite Hl.
    intros [= <-]. eapply wf_bool_length; eassumption.
  - eapply wf_own_length; eassumption.
Qed.

Lemma zip_with_orb_false_r (b : list bool) (n : nat) :
  length b ≤ n → zip_with orb b (replicate n false) = b.
Proof.
  revert n. induction b as [| x b IH]; intros n Hn; [reflexivity |].
  destruct n as [| n]; simpl in *; [lia |].
  rewrite orb_false_r, IH by lia. reflexivity.
Qed.

Lemma zip_with_orb_none (b k : list bool) :
  existsb id k = false → length b ≤ length k → zip_with orb b k = b.
Proof.
  revert k. induction b as [| x b IH]; intros k Hk Hlen; [reflexivity |].
  destruct k as [| y k]; simpl in *; [lia |].
  apply orb_false_iff in Hk as [Hy Hk]. unfold id in Hy. subst y.
  rewrite orb_false_r, IH by (assumption || lia). reflexivity.
Qed.

Lemma zip_with_orb_diag (b : list bool) : zip_with orb b b = b.
Proof. induction b as [| x b IH]; simpl; [reflexivity |]. rewrite orb_diag, IH. reflexivity. Qed.

(** On a well-formed store the mask given by the constructor is the
    effective mask joined with the mask the data carries. *)
Lemma base_mask_or (h : heap) (data : loc) mask sh vals own mbits obits :
  wf_heap h → data_parts h data = Some (sh, vals, own) → mask_arg_ok h mask sh →
  effective_mask h data mask = Some mbits → own_mask h data = Some obits →
  base_mask own mbits obits = zip_with orb mbits obits.
Proof.
  intros Hwf Hd Hok Hm Ho.
  pose proof (wf_effective_length _ _ _ _ _ _ _ Hwf Hd Hok Hm) as Hlen.
  pose proof (wf_own_length _ _ _ _ _ _ Hwf Hd Ho) as Hleno.
  unfold base_mask, clipped_has_mask. destruct own as [[dm |] |].
  - destruct (existsb id obits) eqn:E; [reflexivity |].
    symmetry. apply zip_with_orb_none; [exact E | lia].
  - unfold own_mask in Ho. rewrite Hd in Ho. injection Ho as <-.
    symmetry. apply zip_with_orb_false_r. lia.
  - unfold own_mask in Ho. rewrite Hd in Ho. injection Ho as <-.
    symmetry. apply zip_with_orb_false_r. lia.
Qed.

(** ** Order facts on element values *)

Lemma Qle_bool_false (x y : Q) : Qle_bool x y = false → (y < x)%Q.
Proof.
  intros H. apply Qnot_le_lt. intros Hle. apply Qle_bool_iff in Hle. congruence.
Qed.

Ltac q_cases :=
  repeat match goal with
    | |- context [Qle_bool ?x ?y] =>
        let E := fresh "E" in
        destruct (Qle_bool x y) eqn:E;
        [apply Qle_bool_iff in E | apply Qle_bool_false in E]
    | H : context [Qle_bool ?x ?y] |- _ =>
        let E := fresh "E" in
        destruct (Qle_bool x y) eqn:E;
        [apply Qle_bool_iff in E | apply Qle_bool_false in E]
    end.

Lemma clip_in_range (lo hi x : Q) : (lo <= hi)%Q → (lo <= clip lo hi x <= hi)%Q.
Proof. intros Hle. unfold clip, np_minimum, np_maximum. q_cases; lra. Qed.

Lemma clip_fixed (lo hi x : Q) : (lo <= x <= hi)%Q → (clip lo hi x == x)%Q.
Proof. intros Hx. unfold clip, np_minimum, np_maximum. q_cases; lra. Qed.

Lemma Qltb_true (x y : Q) : Qltb x y = true ↔ (x < y)%Q.
Proof.
  unfold Qltb. split.
  - intros H. apply negb_true_iff in H. apply Qle_bool_false. exact H.
  - intros H. apply negb_true_iff. destruct (Qle_bool y x) eqn:E; [| reflexivity].
    apply Qle_bool_iff in E. lra.
Qed.

(** ** Mask shape (C7) *)

(** C7.  A [mask] argument whose shape is not the shape of [data] makes the
    call raise [ValueError('Invalid mask shape.')]; nothing is returned and
    the store is as it was. *)
Theorem prepare_data_rejects_mask_of_other_shape
    (py_float : string → option Q) (h : heap) (data mask : loc)
    (clip_lo clip_hi : option clip_arg)
    (sh : shape) (vals : list Q) (own : option (option loc))
    (msh : shape) (bits : list bool) :
  data_parts h data = Some (sh, vals, own) →
  h !! mask = Some (BoolArray msh bits) →
  msh ≠ sh →
  prepare_data py_float data (Some mask) clip_lo clip_hi h
  = (h, Raise (ValueError InvalidMaskShape)).
Proof.
  intros Hd Hm Hne. unfold prepare_data.
  assert (load_data data h = (h, Ret (sh, vals, own))) as Hload.
  { unfold data_parts in Hd. destruct (h !! data) as [[] |] eqn:Hl; try discriminate;
      injection Hd as <- <- <-.
    - apply load_data_NdArray, Hl.
    - apply load_data_MaskedArray, Hl. }
  rewrite (bind_Ret _ _ _ _ _ Hload). simpl.
  apply bind_Raise. unfold resolve_mask.
  rewrite (bind_Ret _ _ _ _ _ (load_bool_BoolArray _ _ _ _ Hm)). simpl.
  rewrite bool_decide_eq_false_2 by exact Hne. reflexivity.
Qed.

(** ** Numeric bounds (C2) *)

(** C2, as stated, fails: [data] is a masked array whose own mask is
    [True, False, False], the [mask] argument is all false, the bounds are
    the numbers 0 and 10.  The effective input mask is the [mask] argument,
    yet the first position of the result is masked. *)
Lemma numeric_clip_mask_is_not_the_effective_mask :
  ∃ h' r bits eff,
    (0 <= 10)%Q ∧
    prepare_data decimal_float 1%positive (Some 3%positive)
      (Some (ClipNum 0)) (Some (ClipNum 10)) masked3 = (h', Ret r) ∧
    ma_mask h' r = Some bits ∧
    effective_mask masked3 1%positive (Some 3%positive) = Some eff ∧
    bits ≠ eff.
Proof.
  eexists _, _, [true; false; false], [false; false; false].
  split; [lra |]. split; [vm_compute; reflexivity |].
  split; [vm_compute; reflexivity |]. split; [vm_compute; reflexivity |].
  discriminate.
Qed.

(** C2, amended.  With two numbers [clip_lo <= clip_hi] as bounds, every
    value of the result lies in [[clip_lo, clip_hi]], and the mask of the
    result is the effective input mask joined with the mask [data] itself
    carries; the two coincide, and the mask of the result is the effective
    input mask, unless a [mask] argument is passed along with a masked
    array. *)
Theorem numeric_clip_values_and_mask
    (py_float : string → option Q) (h h' : heap) (data r : loc)
    (mask : option loc) (lo hi : Q) :
  wf_heap h →
  (lo <= hi)%Q →
  prepare_data py_float data mask (Some (ClipNum lo)) (Some (ClipNum hi)) h = (h', Ret r) →
  ∃ vals' bits eff own,
    ma_values h' r = Some vals' ∧
    Forall (λ x, (lo <= x <= hi)%Q) vals' ∧
    ma_mask h' r = Some bits ∧
    effective_mask h data mask = Some eff ∧
    own_mask h data = Some own ∧
    bits = zip_with orb eff own ∧
    (mask = None ∨ (∃ sh vals, h !! data = Some (NdArray sh vals)) → bits = eff).
Proof.
  intros Hwf Hle H. apply prepare_data_Ret_inv in H as (sh & vals & own & Hd & Hcase).
  destruct Hcase as [(_ & _ & _ & [=] & _) |
    (mbits & obits & lo' & flo & hi' & fhi & rm & Hok & Hm & Ho & Hlo & Hhi & _ & Hr & Hk & _)].
  simpl in Hlo, Hhi. injection Hlo as <- <-. injection Hhi as <- <-.
  exists (clip lo hi <$> vals), (zip_with orb mbits obits), mbits, obits.
  unfold out_mask, apply_flag in Hk.
  rewrite (base_mask_or _ _ _ _ _ _ _ _ Hwf Hd Hok Hm Ho) in Hk.
  split_and!; try assumption; try reflexivity.
  - unfold ma_values. rewrite Hr. reflexivity.
  - apply Forall_fmap, Forall_forall. intros x _. apply clip_in_range, Hle.
  - pose proof (wf_effective_length _ _ _ _ _ _ _ Hwf Hd Hok Hm) as Hlen.
    intros [-> | (sh' & vals' & Hplain)].
    + simpl in Hm. rewrite Hm in Ho. injection Ho as <-. apply zip_with_orb_diag.
    + unfold own_mask, data_parts in *. rewrite Hplain in *.
      injection Hd as <- <- <-. injection Ho as <-.
      apply zip_with_orb_false_r. lia.
Qed.

Lemma numeric_clip_values_and_mask_witness :
  ∃ vals' bits eff own,
    ma_values (prepare_data decimal_float 1%positive (Some 3%positive)
                 (Some (ClipNum 2)) (Some (ClipNum 2.5)) masked3).1 5%positive = Some vals' ∧
    Forall (λ x, (2 <= x <= 2.5)%Q) vals' ∧
    ma_mask (prepare_data decimal_float 1%positive (Some 3%positive)
               (Some (ClipNum 2)) (Some (ClipNum 2.5)) masked3).1 5%positive = Some bits ∧
    effective_mask masked3 1%positive (Some 3%positive) = Some eff ∧
    own_mask masked3 1%positive = Some own ∧
    bits = zip_with orb eff own ∧
    (Some 3%positive = None ∨ (∃ sh vals, masked3 !! 1%positive = Some (NdArray sh vals)) →
     bits = eff).
Proof.
  apply (numeric_clip_values_and_mask decimal_float masked3 _ 1%positive 5%positive
           (Some 3%positive) 2 2.5).
  - vm_compute. reflexivity.
  - vm_compute. discriminate.
  - vm_compute. reflexivity.
Defined.

(** ** Flagged bounds (C3) *)

Lemma get_clip_flag pf sel (c : clip_arg) v f :
  get_clip pf sel c = Ret (v, f) → f = is_flagged (Some c).
Proof.
  destruct c as [x | s]; simpl.
  - intros [= _ <-]. reflexivity.
  - destruct (endswith_char "%" _).
    + destruct (float_of_str pf _) as [q | |]; try discriminate.
      destruct (np_percentile sel q); try discriminate. intros [= _ <-]. reflexivity.
    + destruct (float_of_str pf _); try discriminate. intros [= _ <-]. reflexivity.
Qed.

Lemma resolve_lo_flag pf sel clo v f :
  resolve_lo pf sel clo = Ret (v, f) → f = is_flagged clo.
Proof.
  destruct clo as [c |]; simpl.
  - apply get_clip_flag.
  - destruct (np_min sel); try discriminate. intros [= _ <-]. reflexivity.
Qed.

Lemma resolve_hi_flag pf sel chi v f :
  resolve_hi pf sel chi = Ret (v, f) → f = is_flagged chi.
Proof.
  destruct chi as [c |]; simpl.
  - apply get_clip_flag.
  - destruct (np_max sel); try discriminate. intros [= _ <-]. reflexivity.
Qed.

Lemma zip_with_orb_lookup_true (a b : list bool) (i : nat) :
  length a = length b →
  zip_with orb a b !! i = Some true ↔ a !! i = Some true ∨ b !! i = Some true.
Proof.
  revert b i. induction a as [| x a IH]; intros [| y b] i Hlen; simpl in *; try lia.
  - rewrite lookup_nil. split; [discriminate | intros [[=] | [=]]].
  - destruct i as [| i]; simpl.
    + destruct x, y; simpl; split; intros; try discriminate; auto.
      destruct H as [[=] | [=]].
    + apply IH. lia.
Qed.

Lemma apply_flag_length (f : bool) (idx b : list bool) :
  length idx = length b → length (apply_flag f idx b) = length b.
Proof.
  intros Hlen. destruct f; simpl; [| reflexivity].
  unfold set_true. rewrite length_zip_with. lia.
Qed.

Lemma apply_flag_lookup_true (f : bool) (idx b : list bool) (i : nat) :
  length idx = length b →
  apply_flag f idx b !! i = Some true ↔
  b !! i = Some true ∨ (f = true ∧ idx !! i = Some true).
Proof.
  intros Hlen. destruct f; simpl.
  - unfold set_true. rewrite zip_with_orb_lookup_true by lia. intuition.
  - intuition discriminate.
Qed.

Lemma below_lookup_true (lo : Q) (vals : list Q) (i : nat) :
  below lo vals !! i = Some true ↔ ∃ x, vals !! i = Some x ∧ (x < lo)%Q.
Proof.
  unfold below. rewrite list_lookup_fmap. destruct (vals !! i) as [x |]; simpl.
  - split.
    + intros [= H]. exists x. split; [reflexivity | apply Qltb_true, H].
    + intros (y & [= <-] & H). f_equal. apply Qltb_true, H.
  - split; [discriminate | intros (y & [=] & _)].
Qed.

Lemma above_lookup_true (hi : Q) (vals : list Q) (i : nat) :
  above hi vals !! i = Some true ↔ ∃ x, vals !! i = Some x ∧ (hi < x)%Q.
Proof.
  unfold above. rewrite list_lookup_fmap. destruct (vals !! i) as [x |]; simpl.
  - split.
    + intros [= H]. exists x. split; [reflexivity | apply Qltb_true, H].
    + intros (y & [= <-] & H). f_equal. apply Qltb_true, H.
  - split; [discriminate | intros (y & [=] & _)].
Qed.

(** C3, as stated, fails on the same kind of input as C2: [data] is a
    masked array whose own mask is [True, False, False], the [mask]
    argument is all false, [clip_lo] is ["!0"] and [clip_hi] is 10.  No
    value is below 0, yet the first position of the result is masked
    although the effective input mask is all false. *)
Lemma flagged_clip_masks_another_position :
  ∃ h' r bits eff,
    prepare_data decimal_float 1%positive (Some 3%positive)
      (Some (ClipStr "!0")) (Some (ClipNum 10)) masked3 = (h', Ret r) ∧
    ma_mask h' r = Some bits ∧
    effective_mask masked3 1%positive (Some 3%positive) = Some eff ∧
    bits ≠ set_true (below 0 [1; 2; 3]%Q) eff.
Proof.
  eexists _, _, [true; false; false], [false; false; false].
  split; [vm_compute; reflexivity |].
  split; [vm_compute; reflexivity |]. split; [vm_compute; reflexivity |].
  vm_compute. discriminate.
Qed.

(** C3, amended.  When a bound is flagged with ["!"], the mask of the
    result is the effective input mask, joined with the mask [data] itself
    carries, joined with the positions whose input value is below the
    resolved [clip_lo] if [clip_lo] is flagged and with the positions whose
    input value is above the resolved [clip_hi] if [clip_hi] is flagged;
    no other position is masked. *)
Theorem flagged_clip_mask
    (py_float : string → option Q) (h h' : heap) (data r : loc)
    (mask : option loc) (clip_lo clip_hi : option clip_arg) :
  wf_heap h →
  is_flagged clip_lo = true ∨ is_flagged clip_hi = true →
  prepare_data py_float data mask clip_lo clip_hi h = (h', Ret r) →
  ∃ sh vals own eff obits lo hi bits,
    data_parts h data = Some (sh, vals, own) ∧
    effective_mask h data mask = Some eff ∧
    own_mask h data = Some obits ∧
    resolve_lo py_float (unmasked_of eff obits vals) clip_lo = Ret (lo, is_flagged clip_lo) ∧
    resolve_hi py_float (unmasked_of eff obits vals) clip_hi = Ret (hi, is_flagged clip_hi) ∧
    ma_mask h' r = Some bits ∧
    bits = apply_flag (is_flagged clip_hi) (above hi vals)
             (apply_flag (is_flagged clip_lo) (below lo vals) (zip_with orb eff obits)) ∧
    length bits = length vals ∧
    ∀ i, bits !! i = Some true ↔
         eff !! i = Some true ∨ obits !! i = Some true ∨
         (is_flagged clip_lo = true ∧ ∃ x, vals !! i = Some x ∧ (x < lo)%Q) ∨
         (is_flagged clip_hi = true ∧ ∃ x, vals !! i = Some x ∧ (hi < x)%Q).
Proof.
  intros Hwf Hflag H. apply prepare_data_Ret_inv in H as (sh & vals & own & Hd & Hcase).
  destruct Hcase as [(_ & _ & _ & -> & -> & _) |
    (mbits & obits & lo & flo & hi & fhi & rm & Hok & Hm & Ho & Hlo & Hhi & _ & Hr & Hk & _)].
  { destruct Hflag; discriminate. }
  pose proof (resolve_lo_flag _ _ _ _ _ Hlo) as ->.
  pose proof (resolve_hi_flag _ _ _ _ _ Hhi) as ->.
  unfold out_mask in Hk.
  rewrite (base_mask_or _ _ _ _ _ _ _ _ Hwf Hd Hok Hm Ho) in Hk.
  pose proof (wf_effective_length _ _ _ _ _ _ _ Hwf Hd Hok Hm) as Hlm.
  pose proof (wf_own_length _ _ _ _ _ _ Hwf Hd Ho) as Hlo'.
  pose proof (wf_values_length _ _ _ _ _ Hwf Hd) as Hlv.
  assert (length (zip_with orb mbits obits) = length vals) as Hl0
    by (rewrite length_zip_with; lia).
  assert (length (below lo vals) = length vals) as Hlb by (unfold below; apply length_fmap).
  assert (length (above hi vals) = length vals) as Hla by (unfold above; apply length_fmap).
  assert (length (apply_flag (is_flagged clip_lo) (below lo vals) (zip_with orb mbits obits))
          = length vals) as Hl1 by (rewrite apply_flag_length; lia).
  exists sh, vals, own, mbits, obits, lo, hi,
    (apply_flag (is_flagged clip_hi) (above hi vals)
       (apply_flag (is_flagged clip_lo) (below lo vals) (zip_with orb mbits obits))).
  split_and!; try eassumption; try reflexivity.
  - rewrite apply_flag_length; lia.
  - intros i. rewrite apply_flag_lookup_true by lia.
    rewrite apply_flag_lookup_true by lia.
    rewrite zip_with_orb_lookup_true by lia.
    rewrite below_lookup_true, above_lookup_true. tauto.
Qed.

Lemma flagged_clip_mask_witness :
  ∃ sh vals own eff obits lo hi bits,
    data_parts arange5_with_mask 1%positive = Some (sh, vals, own) ∧
    effective_mask arange5_with_mask 1%positive (Some 2%positive) = Some eff ∧
    own_mask arange5_with_mask 1%positive = Some obits ∧
    resolve_lo decimal_float (unmasked_of eff obits vals) (Some (ClipStr "!25%"))
      = Ret (lo, true) ∧
    resolve_hi decimal_float (unmasked_of eff obits vals) (Some (ClipNum 3.5))
      = Ret (hi, false) ∧
    ma_mask (prepare_data decimal_float 1%positive (Some 2%positive)
               (Some (ClipStr "!25%")) (Some (ClipNum 3.5)) arange5_with_mask).1
            3%positive = Some bits ∧
    bits = apply_flag false (above hi vals)
             (apply_flag true (below lo vals) (zip_with orb eff obits)) ∧
    length bits = length vals ∧
    ∀ i, bits !! i = Some true ↔
         eff !! i = Some true ∨ obits !! i = Some true ∨
         (true = true ∧ ∃ x, vals !! i = Some x ∧ (x < lo)%Q) ∨
         (false = true ∧ ∃ x, vals !! i = Some x ∧ (hi < x)%Q).
Proof.
  apply (flagged_clip_mask decimal_float arange5_with_mask _ 1%positive 3%positive
           (Some 2%positive) (Some (ClipStr "!25%")) (Some (ClipNum 3.5))).
  - vm_compute. reflexivity.
  - left. reflexivity.
  - vm_compute. reflexivity.
Defined.

(** ** Calls that reach the resolution of the bounds *)

Lemma load_data_parts (h : heap) (data : loc) p :
  data_parts h data = Some p → load_data data h = (h, Ret p).
Proof.
  unfold data_parts. destruct (h !! data) as [[] |] eqn:Hl; try discriminate; intros [= <-].
  - apply load_data_NdArray, Hl.
  - apply load_data_MaskedArray, Hl.
Qed.

Lemma prepare_data_reaches_mask pf (h : heap) data mask clo chi sh vals own mbits obits :
  data_parts h data = Some (sh, vals, own) →
  ¬ fast_path h data mask clo chi →
  mask_arg_ok h mask sh →
  effective_mask h data mask = Some mbits →
  own_mask h data = Some obits →
  ∃ h1 mv,
    prepare_data pf data mask clo chi h = clip_and_mask pf sh vals own mv clo chi h1 ∧
    mask_bits mv sh h1 = (h1, Ret mbits) ∧
    match own with
    | Some m => mask_bits m sh
    | None => mret (replicate (size_of sh) false)
    end h1 = (h1, Ret obits) ∧
    ((∃ dm, own = Some (Some dm)) → ∃ l, mv = Some l).
Proof.
  intros Hd Hnf Hok Hm Ho. unfold prepare_data.
  rewrite (bind_Ret _ _ _ _ _ (load_data_parts _ _ _ Hd)). simpl.
  unfold own_mask in Ho. rewrite Hd in Ho.
  destruct mask as [l |].
  - destruct (Hok l eq_refl) as [bits Hl].
    exists h, (Some l). split.
    + assert (resolve_mask data own sh (Some l) clo chi h = (h, Ret (inr (Some l)))) as Hres.
      { unfold resolve_mask.
        rewrite (bind_Ret _ _ _ _ _ (load_bool_BoolArray _ _ _ _ Hl)). simpl.
        rewrite bool_decide_eq_true_2 by reflexivity. reflexivity. }
      rewrite (bind_Ret _ _ _ _ _ Hres). reflexivity.
    + split; [apply mask_bits_Some; exact Hm |]. split; [| eauto].
      destruct own as [m |]; [apply mask_bits_Some; exact Ho |].
      injection Ho as <-. reflexivity.
  - simpl in Hm. unfold own_mask in Hm. rewrite Hd in Hm.
    destruct own as [m |].
    + exists h, m. split.
      * assert (resolve_mask data (Some m) sh None clo chi h = (h, Ret (inr m))) as Hres.
        { unfold resolve_mask. destruct clo, chi; try reflexivity.
          exfalso. apply Hnf. unfold fast_path. split_and!; try reflexivity.
          unfold data_parts in Hd. destruct (h !! data) as [[] |]; try discriminate. eauto. }
        rewrite (bind_Ret _ _ _ _ _ Hres). reflexivity.
      * split; [apply mask_bits_Some; assumption |].
        split; [apply mask_bits_Some; assumption |].
        intros [dm [= ->]]. eauto.
    + injection Hm as <-. injection Ho as <-.
      exists (<[fresh (dom h) := BoolArray sh (replicate (size_of sh) false)]> h),
        (Some (fresh (dom h))).
      split; [reflexivity |]. split; [| split; [reflexivity | eauto]].
      apply mask_bits_Some. simpl. unfold bool_bits. rewrite lookup_insert_eq. reflexivity.
Qed.

Lemma prepare_data_reaches pf (h : heap) data mask clo chi sh vals own mbits obits :
  data_parts h data = Some (sh, vals, own) →
  ¬ fast_path h data mask clo chi →
  mask_arg_ok h mask sh →
  effective_mask h data mask = Some mbits →
  own_mask h data = Some obits →
  ∃ h1 mv,
    prepare_data pf data mask clo chi h = clip_and_mask pf sh vals own mv clo chi h1 ∧
    mask_bits mv sh h1 = (h1, Ret mbits) ∧
    match own with
    | Some m => mask_bits m sh
    | None => mret (replicate (size_of sh) false)
    end h1 = (h1, Ret obits).
Proof.
  intros Hd Hnf Hok Hm Ho.
  destruct (prepare_data_reaches_mask pf h data mask clo chi sh vals own mbits obits
              Hd Hnf Hok Hm Ho) as (h1 & mv & H1 & H2 & H3 & _).
  exists h1, mv. auto.
Qed.


Lemma clip_and_mask_raise_lo pf sh vals own mv clo chi (h : heap) mbits obits e :
  mask_bits mv sh h = (h, Ret mbits) →
  match own with
  | Some m => mask_bits m sh
  | None => mret (replicate (size_of sh) false)
  end h = (h, Ret obits) →
  resolve_lo pf (unmasked_of mbits obits vals) clo = Raise e →
  clip_and_mask pf sh vals own mv clo chi h = (h, Raise e).
Proof.
  intros Hm Ho Hlo. unfold clip_and_mask.
  rewrite (bind_Ret _ _ _ _ _ Hm), (bind_Ret _ _ _ _ _ Ho).
  apply bind_Raise. unfold lift. rewrite Hlo. reflexivity.
Qed.

Lemma clip_and_mask_raise_hi pf sh vals own mv clo chi (h : heap) mbits obits p e :
  mask_bits mv sh h = (h, Ret mbits) →
  match own with
  | Some m => mask_bits m sh
  | None => mret (replicate (size_of sh) false)
  end h = (h, Ret obits) →
  resolve_lo pf (unmasked_of mbits obits vals) clo = Ret p →
  resolve_hi pf (unmasked_of mbits obits vals) chi = Raise e →
  clip_and_mask pf sh vals own mv clo chi h = (h, Raise e).
Proof.
  intros Hm Ho Hlo Hhi. unfold clip_and_mask.
  rewrite (bind_Ret _ _ _ _ _ Hm), (bind_Ret _ _ _ _ _ Ho).
  assert (lift (resolve_lo pf (unmasked_of mbits obits vals) clo) h = (h, Ret p)) as Hl
    by (unfold lift; rewrite Hlo; reflexivity).
  rewrite (bind_Ret _ _ _ _ _ Hl). destruct p as [lo flo].
  apply bind_Raise. unfold lift. rewrite Hhi. reflexivity.
Qed.

(** ** Malformed string bounds (C8) *)

Lemma get_clip_malformed pf sel (s : string) :
  pf (clip_body s) = None →
  get_clip pf sel (ClipStr s) = Raise (ValueError CouldNotConvert).
Proof.
  unfold get_clip, clip_body, unflagged, float_of_str.
  destruct (endswith_char "%" _); intros ->; reflexivity.
Qed.

Lemma resolve_lo_malformed pf sel clo :
  malformed pf clo → resolve_lo pf sel clo = Raise (ValueError CouldNotConvert).
Proof.
  destruct clo as [[x | s] |]; simpl; try tauto. apply get_clip_malformed.
Qed.

Lemma resolve_hi_malformed pf sel chi :
  malformed pf chi → resolve_hi pf sel chi = Raise (ValueError CouldNotConvert).
Proof.
  destruct chi as [[x | s] |]; simpl; try tauto. apply get_clip_malformed.
Qed.

Lemma malformed_not_fast pf (h : heap) data mask clo chi :
  malformed pf clo ∨ malformed pf chi → ¬ fast_path h data mask clo chi.
Proof.
  intros Hmal (_ & -> & -> & _). destruct Hmal as [[] | []].
Qed.

(** C8, as stated, fails: the string ["3.5"] does not end with ["%"], and
    [prepare_data] takes it as the number 3.5 and returns a result. *)
Lemma unsuffixed_numeric_string_is_accepted :
  endswith_char "%" "3.5" = false ∧
  ∃ h' r,
    prepare_data decimal_float 1%positive None (Some (ClipStr "3.5")) None arange5
    = (h', Ret r) ∧
    ma_values h' r = Some [7 # 2; 7 # 2; 7 # 2; 7 # 2; 4]%Q.
Proof.
  split; [reflexivity |]. eexists _, _.
  split; vm_compute; reflexivity.
Qed.

(** C8, amended.  A string bound is malformed when its body, that is the
    string without a leading ["!"] and without a trailing ["%"], is not a
    number for [float]; a string without ["%"] whose body is a number is a
    valid bound.  With a malformed bound [prepare_data] never returns a
    result, and it fails with the parse error of [float] as soon as the
    [mask] argument is valid and, for a malformed [clip_hi], [clip_lo] has
    been resolved. *)
Theorem malformed_clip_string_fails
    (py_float : string → option Q) (h : heap) (data : loc)
    (mask : option loc) (clip_lo clip_hi : option clip_arg) :
  malformed py_float clip_lo ∨ malformed py_float clip_hi →
  (∀ h' r, prepare_data py_float data mask clip_lo clip_hi h ≠ (h', Ret r)) ∧
  (∀ sh vals own mbits obits,
     data_parts h data = Some (sh, vals, own) →
     mask_arg_ok h mask sh →
     effective_mask h data mask = Some mbits →
     own_mask h data = Some obits →
     (malformed py_float clip_lo ∨
      ∃ p, resolve_lo py_float (unmasked_of mbits obits vals) clip_lo = Ret p) →
     ∃ h1, prepare_data py_float data mask clip_lo clip_hi h
           = (h1, Raise (ValueError CouldNotConvert))).
Proof.
  intros Hmal. split.
  - intros h' r H. apply prepare_data_Ret_inv in H as (sh & vals & own & Hd & Hcase).
    destruct Hcase as [(_ & _ & _ & -> & -> & _) |
      (mbits & obits & lo & flo & hi & fhi & rm & _ & _ & _ & Hlo & Hhi & _)].
    + destruct Hmal as [[] | []].
    + destruct Hmal as [Hm | Hm].
      * rewrite (resolve_lo_malformed _ _ _ Hm) in Hlo. discriminate.
      * rewrite (resolve_hi_malformed _ _ _ Hm) in Hhi. discriminate.
  - intros sh vals own mbits obits Hd Hok Hm Ho Hreach.
    destruct (prepare_data_reaches py_float h data mask clip_lo clip_hi sh vals own mbits obits
                Hd (malformed_not_fast _ _ _ _ _ _ Hmal) Hok Hm Ho)
      as (h1 & mv & -> & Hmb & Hob).
    exists h1. destruct Hreach as [Hlo | [p Hlo]].
    + eapply clip_and_mask_raise_lo; [exact Hmb | exact Hob |].
      apply resolve_lo_malformed, Hlo.
    + destruct Hmal as [Hbad | Hbad].
      * rewrite (resolve_lo_malformed _ _ _ Hbad) in Hlo. discriminate.
      * eapply clip_and_mask_raise_hi; [exact Hmb | exact Hob | exact Hlo |].
        apply resolve_hi_malformed, Hbad.
Qed.

Lemma malformed_clip_string_fails_witness :
  (∀ h' r, prepare_data decimal_float 1%positive None (Some (ClipNum 1))
             (Some (ClipStr "!high%")) arange5 ≠ (h', Ret r)) ∧
  (∀ sh vals own mbits obits,
     data_parts arange5 1%positive = Some (sh, vals, own) →
     mask_arg_ok arange5 None sh →
     effective_mask arange5 1%positive None = Some mbits →
     own_mask arange5 1%positive = Some obits →
     (malformed decimal_float (Some (ClipNum 1)) ∨
      ∃ p, resolve_lo decimal_float (unmasked_of mbits obits vals) (Some (ClipNum 1)) = Ret p) →
     ∃ h1, prepare_data decimal_float 1%positive None (Some (ClipNum 1))
             (Some (ClipStr "!high%")) arange5
           = (h1, Raise (ValueError CouldNotConvert))).
Proof.
  apply (malformed_clip_string_fails decimal_float arange5 1%positive None
           (Some (ClipNum 1)) (Some (ClipStr "!high%"))).
  right. vm_compute. reflexivity.
Defined.

(** ** Empty selections (C10) *)

Lemma boolean_index_all_false {A} (b : list bool) (a : list A) :
  Forall (λ x, x = true) b → boolean_index (negb <$> b) a = [].
Proof.
  intros Hb. revert a. induction Hb as [| x b -> _ IH]; intros a; [reflexivity |].
  simpl. destruct a; [reflexivity | apply IH].
Qed.

Lemma np_percentile_empty (q : Q) :
  ∃ e, np_percentile [] q = Raise e ∧
       ((0 <= q <= 100)%Q → e = IndexError).
Proof.
  unfold np_percentile. destruct (Qltb q 0 || Qltb 100 q) eqn:E.
  - eexists. split; [reflexivity |]. intros Hq.
    apply orb_true_iff in E as [E | E]; apply Qltb_true in E; lra.
  - eexists. split; reflexivity.
Qed.

Lemma get_clip_empty pf (c : clip_arg) :
  (∃ p, get_clip pf [] c = Ret p ∧ is_percentile (Some c) = false) ∨
  (∃ e, get_clip pf [] c = Raise e ∧
        (well_formed pf (Some c) → empty_reduction_error e)).
Proof.
  destruct c as [x | s]; [left; eexists; split; reflexivity |].
  unfold get_clip, well_formed, is_percentile, clip_body, float_of_str.
  fold (unflagged s).
  destruct (endswith_char "%" (unflagged s)) eqn:Hpct.
  - right. destruct (pf (drop_last (unflagged s))) as [q |] eqn:Hq.
    + destruct (np_percentile_empty q) as (e & -> & He).
      exists e. split; [reflexivity |].
      intros (q' & [= <-] & Hrange). right. apply He, Hrange. reflexivity.
    + eexists. split; [reflexivity |]. intros (q' & [=] & _).
  - destruct (pf (unflagged s)) as [v |] eqn:Hv.
    + left. eexists. split; reflexivity.
    + right. eexists. split; [reflexivity |]. intros (q' & [=] & _).
Qed.

Lemma resolve_lo_empty pf clo :
  (∃ p, resolve_lo pf [] clo = Ret p ∧ ¬ from_distribution clo) ∨
  (∃ e, resolve_lo pf [] clo = Raise e ∧
        (well_formed pf clo → empty_reduction_error e)).
Proof.
  destruct clo as [c |]; simpl.
  - destruct (get_clip_empty pf c) as [(p & -> & Hp) | (e & -> & He)].
    + left. exists p. split; [reflexivity |]. intros [[=] | Hpc]. congruence.
    + right. exists e. split; [reflexivity | exact He].
  - right. eexists. split; [reflexivity |]. intros _. left. reflexivity.
Qed.

Lemma resolve_hi_empty pf chi :
  (∃ p, resolve_hi pf [] chi = Ret p ∧ ¬ from_distribution chi) ∨
  (∃ e, resolve_hi pf [] chi = Raise e ∧
        (well_formed pf chi → empty_reduction_error e)).
Proof.
  destruct chi as [c |]; simpl.
  - destruct (get_clip_empty pf c) as [(p & -> & Hp) | (e & -> & He)].
    + left. exists p. split; [reflexivity |]. intros [[=] | Hpc]. congruence.
    + right. exists e. split; [reflexivity | exact He].
  - right. eexists. split; [reflexivity |]. intros _. left. reflexivity.
Qed.

(** C10, as stated, fails on a bound that is not well formed.  With every
    element masked and [clip_hi] absent, the percentile string ["150%"]
    makes [np.percentile] raise the [ValueError] of its range check, and
    the string ["abc"] makes [float] raise its [ValueError]: neither is the
    error of a reduction over the empty selection. *)
Lemma ill_formed_bound_on_empty_selection :
  effective_mask all_masked2 1%positive None = Some [true; true] ∧
  (from_distribution (Some (ClipStr "150%")) ∧
   prepare_data decimal_float 1%positive None (Some (ClipStr "150%")) None all_masked2
   = (all_masked2, Raise (ValueError PercentileRange)) ∧
   ¬ empty_reduction_error (ValueError PercentileRange)) ∧
  (from_distribution None ∧
   prepare_data decimal_float 1%positive None (Some (ClipStr "abc")) None all_masked2
   = (all_masked2, Raise (ValueError CouldNotConvert)) ∧
   ¬ empty_reduction_error (ValueError CouldNotConvert)).
Proof.
  split; [vm_compute; reflexivity |]. split.
  - split; [right; vm_compute; reflexivity |].
    split; [vm_compute; reflexivity |]. intros [[=] | [=]].
  - split; [left; reflexivity |].
    split; [vm_compute; reflexivity |]. intros [[=] | [=]].
Qed.

(** On the identity path no bound is resolved: a masked array whose every
    element is masked, passed alone, is returned as it is. *)
Lemma fully_masked_input_passes_through :
  effective_mask all_masked2 1%positive None = Some [true; true] ∧
  from_distribution None ∧
  prepare_data decimal_float 1%positive None None None all_masked2
  = (all_masked2, Ret 1%positive).
Proof.
  split; [vm_compute; reflexivity |]. split; [left; reflexivity |].
  vm_compute. reflexivity.
Qed.

(** C10, amended.  When the effective mask excludes every element and a
    bound has to be resolved from the data, being absent or a percentile
    string in a call that is not the identity path, [prepare_data] raises
    and returns nothing; when moreover both bounds are well formed, the
    exception is that of the reduction over the empty selection ([np.min],
    [np.max] or [np.percentile]). *)
Theorem empty_selection_raises
    (py_float : string → option Q) (h : heap) (data : loc)
    (mask : option loc) (clip_lo clip_hi : option clip_arg)
    (sh : shape) (vals : list Q) (own : option (option loc))
    (mbits obits : list bool) :
  data_parts h data = Some (sh, vals, own) →
  ¬ fast_path h data mask clip_lo clip_hi →
  mask_arg_ok h mask sh →
  effective_mask h data mask = Some mbits →
  own_mask h data = Some obits →
  Forall (λ b, b = true) mbits →
  from_distribution clip_lo ∨ from_distribution clip_hi →
  ∃ h1 e,
    prepare_data py_float data mask clip_lo clip_hi h = (h1, Raise e) ∧
    (well_formed py_float clip_lo → well_formed py_float clip_hi →
     empty_reduction_error e).
Proof.
  intros Hd Hnf Hok Hm Ho Hall Hdist.
  destruct (prepare_data_reaches py_float h data mask clip_lo clip_hi sh vals own mbits obits
              Hd Hnf Hok Hm Ho) as (h1 & mv & -> & Hmb & Hob).
  assert (unmasked_of mbits obits vals = []) as Hsel
    by (apply boolean_index_all_false, Hall).
  exists h1.
  destruct (resolve_lo_empty py_float clip_lo) as [(p & Hlo & Hnd) | (e & Hlo & He)].
  - destruct (resolve_hi_empty py_float clip_hi) as [(p' & Hhi & Hnd') | (e & Hhi & He)].
    + tauto.
    + exists e. split; [| intros _; exact He].
      eapply clip_and_mask_raise_hi; [exact Hmb | exact Hob | |]; rewrite Hsel; eassumption.
  - exists e. split; [| intros Hw _; exact (He Hw)].
    eapply clip_and_mask_raise_lo; [exact Hmb | exact Hob |]. rewrite Hsel. exact Hlo.
Qed.

Lemma empty_selection_raises_witness :
  ∃ h1 e,
    prepare_data decimal_float 1%positive None (Some (ClipStr "25%")) (Some (ClipNum 3))
      all_masked2 = (h1, Raise e) ∧
    (well_formed decimal_float (Some (ClipStr "25%")) →
     well_formed decimal_float (Some (ClipNum 3)) →
     empty_reduction_error e).
Proof.
  apply (empty_selection_raises decimal_float all_masked2 1%positive None
           (Some (ClipStr "25%")) (Some (ClipNum 3))
           [2%nat] [1; 2]%Q (Some (Some 2%positive)) [true; true] [true; true]).
  - vm_compute. reflexivity.
  - intros (_ & [=] & _).
  - intros l [=].
  - vm_compute. reflexivity.
  - vm_compute. reflexivity.
  - repeat constructor.
  - left. right. vm_compute. reflexivity.
Defined.

(** ** Percentile bounds (C4) *)

Lemma boolean_index_zip_fst {A B} (b : list bool) (xs : list A) (ys : list B) :
  length xs ≤ length ys →
  (boolean_index b (zip xs ys)).*1 = boolean_index b xs.
Proof.
  revert xs ys. induction b as [| c b IH]; intros xs ys Hlen; [reflexivity |].
  destruct xs as [| x xs]; [destruct c; reflexivity |].
  destruct ys as [| y ys]; simpl in *; [lia |].
  destruct c; simpl; rewrite IH by lia; reflexivity.
Qed.

Lemma get_clip_percentile pf sel (s : string) (q v : Q) (f : bool) :
  is_percentile (Some (ClipStr s)) = true →
  pf (clip_body s) = Some q →
  get_clip pf sel (ClipStr s) = Ret (v, f) →
  v = linear_percentile sel.*1 q.
Proof.
  unfold is_percentile, clip_body, get_clip, float_of_str. fold (unflagged s).
  intros -> ->. unfold np_percentile.
  destruct (Qltb q 0 || Qltb 100 q); [discriminate |].
  destruct sel as [| p sel]; [discriminate |].
  destruct (existsb snd (p :: sel)); [discriminate |].
  intros [= <- _]. reflexivity.
Qed.

Lemma get_clip_percentile_inv pf sel (s : string) (v : Q) (f : bool) :
  is_percentile (Some (ClipStr s)) = true →
  get_clip pf sel (ClipStr s) = Ret (v, f) →
  ∃ q, pf (clip_body s) = Some q ∧ (0 <= q <= 100)%Q ∧ v = linear_percentile sel.*1 q.
Proof.
  intros Hpct Hget. pose proof Hpct as Hpct'.
  unfold is_percentile in Hpct'.
  assert (∃ q, pf (clip_body s) = Some q) as [q Hq].
  { unfold clip_body. rewrite Hpct'. unfold get_clip, float_of_str in Hget.
    fold (unflagged s) in Hget. rewrite Hpct' in Hget.
    destruct (pf (drop_last (unflagged s))) as [q |]; [eauto | discriminate]. }
  exists q. split; [exact Hq |].
  split; [| exact (get_clip_percentile _ _ _ _ _ _ Hpct Hq Hget)].
  unfold get_clip, float_of_str in Hget. fold (unflagged s) in Hget.
  unfold clip_body in Hq. rewrite Hpct' in Hq, Hget. rewrite Hq in Hget.
  unfold np_percentile in Hget.
  destruct (Qltb q 0 || Qltb 100 q) eqn:E; [discriminate |].
  apply orb_false_iff in E as [E1 E2]. unfold Qltb in E1, E2.
  apply negb_false_iff, Qle_bool_iff in E1, E2. split; assumption.
Qed.

Lemma resolve_lo_percentile pf sel clo (lo : Q) (f : bool) :
  is_percentile clo = true →
  resolve_lo pf sel clo = Ret (lo, f) →
  ∃ s q, clo = Some (ClipStr s) ∧ pf (clip_body s) = Some q ∧ (0 <= q <= 100)%Q ∧
         lo = linear_percentile sel.*1 q.
Proof.
  destruct clo as [[x | s] |]; try discriminate. simpl. intros Hpct Hget.
  destruct (get_clip_percentile_inv _ _ _ _ _ Hpct Hget) as (q & Hq & Hrange & Hv).
  exists s, q. auto.
Qed.

Lemma resolve_hi_percentile pf sel chi (hi : Q) (f : bool) :
  is_percentile chi = true →
  resolve_hi pf sel chi = Ret (hi, f) →
  ∃ s q, chi = Some (ClipStr s) ∧ pf (clip_body s) = Some q ∧ (0 <= q <= 100)%Q ∧
         hi = linear_percentile sel.*1 q.
Proof.
  destruct chi as [[x | s] |]; try discriminate. simpl. intros Hpct Hget.
  destruct (get_clip_percentile_inv _ _ _ _ _ Hpct Hget) as (q & Hq & Hrange & Hv).
  exists s, q. auto.
Qed.

(** C4.  A percentile string, given as [clip_lo] or as [clip_hi], is
    resolved to the percentile of the values the effective mask leaves
    unmasked, and only of those, and the values of the result are the
    values of [data] clipped to the bounds so resolved; a numeric bound is
    used as it is.  On [[0, 1, 2, 3, 4]] the bound [clip_lo="25%"] is
    resolved to 1, the values of the result are [[1, 1, 2, 3, 4]] and its
    mask is all false; with [clip_hi="75%"] the values are
    [[0, 1, 2, 3, 3]]. *)
Theorem percentile_bound_over_unmasked_values :
  (∀ (py_float : string → option Q) (h h' : heap) (data r : loc) (mask : option loc)
     (clip_lo clip_hi : option clip_arg),
     wf_heap h →
     is_percentile clip_lo = true ∨ is_percentile clip_hi = true →
     prepare_data py_float data mask clip_lo clip_hi h = (h', Ret r) →
     ∃ sh vals own eff lo hi,
       data_parts h data = Some (sh, vals, own) ∧
       effective_mask h data mask = Some eff ∧
       ma_values h' r = Some (clip lo hi <$> vals) ∧
       (is_percentile clip_lo = true →
        ∃ s q, clip_lo = Some (ClipStr s) ∧ py_float (clip_body s) = Some q ∧
               (0 <= q <= 100)%Q ∧
               lo = linear_percentile (boolean_index (negb <$> eff) vals) q) ∧
       (is_percentile clip_hi = true →
        ∃ s q, clip_hi = Some (ClipStr s) ∧ py_float (clip_body s) = Some q ∧
               (0 <= q <= 100)%Q ∧
               hi = linear_percentile (boolean_index (negb <$> eff) vals) q) ∧
       (∀ x, clip_lo = Some (ClipNum x) → lo = x) ∧
       (∀ x, clip_hi = Some (ClipNum x) → hi = x)) ∧
  get_clip decimal_float
    (unmasked_of [false; false; false; false; false] [false; false; false; false; false]
       [0; 1; 2; 3; 4]%Q) (ClipStr "25%") = Ret (1%Q, false) ∧
  (∃ h' r,
     prepare_data decimal_float 1%positive None (Some (ClipStr "25%")) None arange5
     = (h', Ret r) ∧
     ma_values h' r = Some [1; 1; 2; 3; 4]%Q ∧
     ma_mask h' r = Some [false; false; false; false; false]) ∧
  ∃ h' r,
    prepare_data decimal_float 1%positive None None (Some (ClipStr "75%")) arange5
    = (h', Ret r) ∧
    ma_values h' r = Some [0; 1; 2; 3; 3]%Q ∧
    ma_mask h' r = Some [false; false; false; false; false].
Proof.
  split; [| split; [| split]].
  - intros pf h h' data r mask clo chi Hwf Hpct H.
    apply prepare_data_Ret_inv in H as (sh & vals & own & Hd & Hcase).
    destruct Hcase as [(_ & _ & _ & -> & -> & _) |
      (mbits & obits & lo & flo & hi & fhi & rm & Hok & Hm & Ho & Hlo & Hhi & _ & Hr & _)].
    { destruct Hpct; discriminate. }
    assert ((unmasked_of mbits obits vals).*1 = boolean_index (negb <$> mbits) vals) as Hsel.
    { unfold unmasked_of. apply boolean_index_zip_fst.
      rewrite (wf_values_length _ _ _ _ _ Hwf Hd), (wf_own_length _ _ _ _ _ _ Hwf Hd Ho).
      reflexivity. }
    exists sh, vals, own, mbits, lo, hi.
    split; [exact Hd |]. split; [exact Hm |].
    split; [unfold ma_values; rewrite Hr; reflexivity |].
    split; [| split; [| split]].
    + intros Hp. rewrite <- Hsel. eapply resolve_lo_percentile; eassumption.
    + intros Hp. rewrite <- Hsel. eapply resolve_hi_percentile; eassumption.
    + intros x ->. simpl in Hlo. congruence.
    + intros x ->. simpl in Hhi. congruence.
  - vm_compute. reflexivity.
  - eexists _, _. split_and!; vm_compute; reflexivity.
  - eexists _, _. split_and!; vm_compute; reflexivity.
Qed.

Lemma percentile_bound_over_unmasked_values_witness :
  ∃ sh vals own eff lo hi,
    data_parts masked3 1%positive = Some (sh, vals, own) ∧
    effective_mask masked3 1%positive None = Some eff ∧
    ma_values (prepare_data decimal_float 1%positive None (Some (ClipStr "50%"))
                 (Some (ClipStr "100%")) masked3).1 5%positive
    = Some (clip lo hi <$> vals) ∧
    (is_percentile (Some (ClipStr "50%")) = true →
     ∃ s q, Some (ClipStr "50%") = Some (ClipStr s) ∧ decimal_float (clip_body s) = Some q ∧
            (0 <= q <= 100)%Q ∧
            lo = linear_percentile (boolean_index (negb <$> eff) vals) q) ∧
    (is_percentile (Some (ClipStr "100%")) = true →
     ∃ s q, Some (ClipStr "100%") = Some (ClipStr s) ∧ decimal_float (clip_body s) = Some q ∧
            (0 <= q <= 100)%Q ∧
            hi = linear_percentile (boolean_index (negb <$> eff) vals) q) ∧
    (∀ x, Some (ClipStr "50%") = Some (ClipNum x) → lo = x) ∧
    (∀ x, Some (ClipStr "100%") = Some (ClipNum x) → hi = x).
Proof.
  apply (proj1 percentile_bound_over_unmasked_values decimal_float masked3 _
           1%positive 5%positive None (Some (ClipStr "50%")) (Some (ClipStr "100%"))).
  - vm_compute. reflexivity.
  - left. vm_compute. reflexivity.
  - vm_compute. reflexivity.
Defined.

(** ** Aliasing of the mask argument (C6) *)

(** C6 fails on the code.  [data] is [np.arange(5.)], [mask] is
    [np.zeros(5, dtype=bool)] and [clip_lo] is ["!25%"]: the call is not
    the identity path, the mask of the result is the very array passed as
    [mask], and after the call that array reads
    [[True, False, False, False, False]]. *)
Lemma flagged_clip_writes_into_the_mask_argument :
  ¬ fast_path arange5_with_mask 1%positive (Some 2%positive) (Some (ClipStr "!25%")) None ∧
  bool_bits arange5_with_mask 2%positive = Some [false; false; false; false; false] ∧
  ∃ h',
    prepare_data decimal_float 1%positive (Some 2%positive) (Some (ClipStr "!25%")) None
      arange5_with_mask = (h', Ret 3%positive) ∧
    h' !! 3%positive = Some (MaskedArray [5%nat] [1; 1; 2; 3; 4]%Q (Some 2%positive)) ∧
    bool_bits h' 2%positive = Some [true; false; false; false; false].
Proof.
  split; [intros ([=] & _) |]. split; [vm_compute; reflexivity |].
  eexists. split_and!; vm_compute; reflexivity.
Qed.

(** ** Worked instances of C1 and C7 *)

Lemma prepare_data_passes_masked_input_through_witness :
  prepare_data decimal_float 1%positive None None None masked3 = (masked3, Ret 1%positive).
Proof.
  apply (prepare_data_passes_masked_input_through decimal_float masked3 1%positive
           [3%nat] [1; 2; 3]%Q (Some 2%positive)).
  vm_compute. reflexivity.
Defined.

Lemma prepare_data_rejects_mask_of_other_shape_witness :
  prepare_data decimal_float 1%positive (Some 3%positive) None None arange5_with_mask4
  = (arange5_with_mask4, Raise (ValueError InvalidMaskShape)).
Proof.
  apply (prepare_data_rejects_mask_of_other_shape decimal_float arange5_with_mask4
           1%positive 3%positive None None [5%nat] [0; 1; 2; 3; 4]%Q None
           [4%nat] [false; false; false; false]).
  - vm_compute. reflexivity.
  - vm_compute. reflexivity.
  - discriminate.
Defined.

(** ** Applying [prepare_data] twice (C5) *)

(** C5, as stated, fails: on [[0, 10]] with [clip_lo = "50%"] the first
    call returns the values [[5, 10]]; the same call on that result
    resolves the percentile again, over the clipped values, and returns
    [[7.5, 10]]. *)
Lemma percentile_bound_is_not_idempotent :
  ∃ h1 r1 h2 r2,
    prepare_data decimal_float 1%positive None (Some (ClipStr "50%")) None pair010
    = (h1, Ret r1) ∧
    prepare_data decimal_float r1 None (Some (ClipStr "50%")) None h1 = (h2, Ret r2) ∧
    ma_values h1 r1 = Some [5; 10]%Q ∧
    ma_values h2 r2 = Some [15 # 2; 10]%Q ∧
    ¬ same_values [15 # 2; 10]%Q [5; 10]%Q.
Proof.
  eexists _, _, _, _. split_and!; try (vm_compute; reflexivity).
  intros H. inversion H as [| x y xs ys Hxy _]; subst.
  vm_compute in Hxy. discriminate.
Qed.

(** *** Selections and reductions, position by position *)

Lemma elem_of_boolean_index {A} (b : list bool) (a : list A) (x : A) :
  x ∈ boolean_index b a ↔ ∃ i, b !! i = Some true ∧ a !! i = Some x.
Proof.
  revert a. induction b as [| c b IH]; intros a.
  - simpl. split; [intros H; inversion H | intros (i & H & _); discriminate].
  - destruct a as [| y a].
    + destruct c; simpl; (split; [intros H; inversion H | intros (i & _ & H); discriminate]).
    + destruct c; simpl.
      * rewrite elem_of_cons, IH. split.
        -- intros [-> | (i & Hb & Ha)]; [exists 0%nat; auto | exists (S i); auto].
        -- intros ([| i] & Hb & Ha); simpl in *; [left; congruence | right; eauto].
      * rewrite IH. split.
        -- intros (i & Hb & Ha). exists (S i). auto.
        -- intros ([| i] & Hb & Ha); simpl in *; [discriminate | eauto].
Qed.

Lemma elem_of_live (sel : selection) (x : Q) : x ∈ live sel ↔ (x, false) ∈ sel.
Proof.
  unfold live. rewrite list_elem_of_fmap. split.
  - intros ([y o] & -> & Hy). apply list_elem_of_filter in Hy as [Ho Hy].
    simpl in *. subst o. exact Hy.
  - intros Hx. exists (x, false). split; [reflexivity |].
    apply list_elem_of_filter. split; [reflexivity | exact Hx].
Qed.

Lemma elem_of_live_unmasked (mb ob : list bool) (vs : list Q) (x : Q) :
  x ∈ live (unmasked_of mb ob vs) ↔
  ∃ i, vs !! i = Some x ∧ mb !! i = Some false ∧ ob !! i = Some false.
Proof.
  rewrite elem_of_live. unfold unmasked_of. rewrite elem_of_boolean_index.
  split.
  - intros (i & Hb & Hz). exists i.
    apply list_lookup_fmap_Some in Hb as (c & Hc & Hb).
    apply lookup_zip_with_Some in Hz as (v & o & [= <- <-] & Hv & Ho).
    destruct c; [discriminate | auto].
  - intros (i & Hv & Hm & Ho). exists i. split.
    + rewrite list_lookup_fmap, Hm. reflexivity.
    + apply lookup_zip_with_Some. exists x, false. auto.
Qed.

Lemma fold_min_spec (l : list Q) (x : Q) :
  fold_min x l ∈ x :: l ∧ ∀ y, y ∈ x :: l → (fold_min x l <= y)%Q.
Proof.
  unfold fold_min. revert x. induction l as [| z l IH]; intros x; simpl.
  - split; [apply list_elem_of_here |].
    intros y Hy. apply list_elem_of_singleton in Hy as ->. lra.
  - destruct (IH (np_minimum x z)) as [Hin Hle]. split.
    + apply elem_of_cons in Hin as [-> | Hin].
      * unfold np_minimum. destruct (Qle_bool x z); [left | right; left].
      * right. right. exact Hin.
    + intros y Hy.
      assert (foldl np_minimum (np_minimum x z) l <= np_minimum x z)%Q as Hm
        by (apply Hle; left).
      apply elem_of_cons in Hy as [-> | Hy]; [| apply elem_of_cons in Hy as [-> | Hy]].
      * revert Hm. unfold np_minimum. q_cases; lra.
      * revert Hm. unfold np_minimum. q_cases; lra.
      * apply Hle. right. exact Hy.
Qed.

Lemma fold_max_spec (l : list Q) (x : Q) :
  fold_max x l ∈ x :: l ∧ ∀ y, y ∈ x :: l → (y <= fold_max x l)%Q.
Proof.
  unfold fold_max. revert x. induction l as [| z l IH]; intros x; simpl.
  - split; [apply list_elem_of_here |].
    intros y Hy. apply list_elem_of_singleton in Hy as ->. lra.
  - destruct (IH (np_maximum x z)) as [Hin Hle]. split.
    + apply elem_of_cons in Hin as [-> | Hin].
      * unfold np_maximum. destruct (Qle_bool x z); [right; left | left].
      * right. right. exact Hin.
    + intros y Hy.
      assert (np_maximum x z <= foldl np_maximum (np_maximum x z) l)%Q as Hm
        by (apply Hle; left).
      apply elem_of_cons in Hy as [-> | Hy]; [| apply elem_of_cons in Hy as [-> | Hy]].
      * revert Hm. unfold np_maximum. q_cases; lra.
      * revert Hm. unfold np_maximum. q_cases; lra.
      * apply Hle. right. exact Hy.
Qed.

Lemma np_min_Ret_inv (sel : selection) (m : Q) :
  np_min sel = Ret m → m ∈ live sel ∧ ∀ y, y ∈ live sel → (m <= y)%Q.
Proof.
  unfold np_min. destruct sel as [| p sel]; [discriminate |].
  destruct (live (p :: sel)) as [| x l]; [discriminate |].
  intros [= <-]. apply fold_min_spec.
Qed.

Lemma np_max_Ret_inv (sel : selection) (m : Q) :
  np_max sel = Ret m → m ∈ live sel ∧ ∀ y, y ∈ live sel → (y <= m)%Q.
Proof.
  unfold np_max. destruct sel as [| p sel]; [discriminate |].
  destruct (live (p :: sel)) as [| x l]; [discriminate |].
  intros [= <-]. apply fold_max_spec.
Qed.

Lemma np_min_progress (sel : selection) (x : Q) :
  x ∈ live sel → ∃ m, np_min sel = Ret m.
Proof.
  intros Hx. unfold np_min. destruct sel as [| p sel].
  - inversion Hx.
  - destruct (live (p :: sel)) as [| y l]; [inversion Hx | eauto].
Qed.

Lemma np_max_progress (sel : selection) (x : Q) :
  x ∈ live sel → ∃ m, np_max sel = Ret m.
Proof.
  intros Hx. unfold np_max. destruct sel as [| p sel].
  - inversion Hx.
  - destruct (live (p :: sel)) as [| y l]; [inversion Hx | eauto].
Qed.

Lemma bool_list_eq (a b : list bool) :
  length a = length b →
  (∀ i, a !! i = Some true ↔ b !! i = Some true) →
  a = b.
Proof.
  revert b. induction a as [| x a IH]; intros [| y b] Hlen Hiff; simpl in *; try lia.
  - reflexivity.
  - f_equal.
    + specialize (Hiff 0%nat). simpl in Hiff. destruct x, y; try reflexivity.
      * destruct Hiff as [Hiff _]. specialize (Hiff eq_refl). discriminate.
      * destruct Hiff as [_ Hiff]. specialize (Hiff eq_refl). discriminate.
    + apply IH; [lia |]. intros i. apply (Hiff (S i)).
Qed.

Lemma lookup_bool_false (b : list bool) (i : nat) :
  b !! i = Some false ↔ (i < length b)%nat ∧ b !! i ≠ Some true.
Proof.
  split.
  - intros H. split; [eapply lookup_lt_Some; eassumption | congruence].
  - intros [Hlt Hne]. destruct (lookup_lt_is_Some_2 b i Hlt) as [[] Hc]; congruence.
Qed.

(** *** Calls that return *)

Lemma mask_setitem_run (r : loc) (idx : list bool) (h : heap) sh cv l msh bits :
  h !! r = Some (MaskedArray sh cv (Some l)) →
  h !! l = Some (BoolArray msh bits) →
  mask_setitem r idx h = (<[l := BoolArray msh (set_true idx bits)]> h, Ret tt).
Proof.
  intros Hr Hl. unfold mask_setitem.
  rewrite (bind_Ret _ _ _ _ _ (deref_Some _ _ _ Hr)).
  rewrite (bind_Ret _ _ _ _ _ (load_bool_BoolArray _ _ _ _ Hl)). reflexivity.
Qed.

Lemma flag_step_progress (f : bool) (r : loc) (idx : list bool) (h : heap) sh cv rm :
  h !! r = Some (MaskedArray sh cv rm) →
  (∃ l msh bits, rm = Some l ∧ h !! l = Some (BoolArray msh bits)) ∨ f = false →
  ∃ h1,
    (if f then mask_setitem r idx else skip) h = (h1, Ret tt) ∧
    h1 !! r = Some (MaskedArray sh cv rm) ∧
    ((∃ l msh bits, rm = Some l ∧ h !! l = Some (BoolArray msh bits)) →
     ∃ l msh bits, rm = Some l ∧ h1 !! l = Some (BoolArray msh bits)).
Proof.
  intros Hr Hm. destruct f.
  - destruct Hm as [(l & msh & bits & -> & Hl) | [=]].
    eexists. split; [apply (mask_setitem_run _ _ _ _ _ _ _ _ Hr Hl) |].
    assert (l ≠ r) as Hne by (intros ->; congruence).
    split; [rewrite lookup_insert_ne by done; exact Hr |].
    intros _. exists l, msh, (set_true idx bits).
    split; [reflexivity | apply lookup_insert_eq].
  - exists h. split; [reflexivity |]. split; [exact Hr | tauto].
Qed.

Lemma masked_array_of_clip_progress sh vals own mv mbits obits lo hi (h : heap) :
  mask_value_bits h mv sh = Some mbits →
  ∃ h1 r rm,
    masked_array_of_clip sh vals own mv mbits obits lo hi h = (h1, Ret r) ∧
    h1 !! r = Some (MaskedArray sh (clip lo hi <$> vals) rm) ∧
    (clipped_has_mask own obits = true ∨ (∃ l, mv = Some l) →
     ∃ l msh bits, rm = Some l ∧ h1 !! l = Some (BoolArray msh bits)).
Proof.
  intros Hm. unfold masked_array_of_clip.
  destruct (clipped_has_mask own obits) eqn:Hchm.
  - set (l := fresh (dom h)).
    set (h1 := <[l := BoolArray sh (zip_with orb mbits obits)]> h).
    set (r := fresh (dom h1)).
    exists (<[r := MaskedArray sh (clip lo hi <$> vals) (Some l)]> h1), r, (Some l).
    split; [reflexivity |]. split; [apply lookup_insert_eq |].
    intros _. exists l, sh, (zip_with orb mbits obits). split; [reflexivity |].
    assert (l ≠ r) as Hne.
    { intros Heq. pose proof (fresh_lookup h1) as Hf. fold r in Hf. rewrite <- Heq in Hf.
      unfold h1 in Hf. rewrite lookup_insert_eq in Hf. discriminate. }
    rewrite lookup_insert_ne by congruence. apply lookup_insert_eq.
  - set (r := fresh (dom h)).
    exists (<[r := MaskedArray sh (clip lo hi <$> vals) mv]> h), r, mv.
    split; [reflexivity |].
    split; [apply lookup_insert_eq |].
    intros [Hc | [l ->]]; [discriminate |].
    simpl in Hm. unfold bool_bits in Hm.
    destruct (h !! l) as [[| msh b |] |] eqn:Hl; try discriminate.
    exists l, msh, b. split; [reflexivity |].
    rewrite lookup_insert_ne; [exact Hl |].
    intros Heq. pose proof (fresh_lookup h) as Hf. fold r in Hf. congruence.
Qed.

Lemma clip_and_mask_progress pf sh vals own mv clo chi (h : heap) mbits obits lo flo hi fhi :
  mask_bits mv sh h = (h, Ret mbits) →
  match own with
  | Some m => mask_bits m sh
  | None => mret (replicate (size_of sh) false)
  end h = (h, Ret obits) →
  resolve_lo pf (unmasked_of mbits obits vals) clo = Ret (lo, flo) →
  resolve_hi pf (unmasked_of mbits obits vals) chi = Ret (hi, fhi) →
  clipped_has_mask own obits = true ∨ (∃ l, mv = Some l) ∨ (flo = false ∧ fhi = false) →
  ∃ h' r, clip_and_mask pf sh vals own mv clo chi h = (h', Ret r).
Proof.
  intros Hm Ho Hlo Hhi Hcase. unfold clip_and_mask.
  rewrite (bind_Ret _ _ _ _ _ Hm), (bind_Ret _ _ _ _ _ Ho).
  assert (lift (resolve_lo pf (unmasked_of mbits obits vals) clo) h = (h, Ret (lo, flo))) as Hl
    by (unfold lift; rewrite Hlo; reflexivity).
  rewrite (bind_Ret _ _ _ _ _ Hl).
  assert (lift (resolve_hi pf (unmasked_of mbits obits vals) chi) h = (h, Ret (hi, fhi))) as Hh
    by (unfold lift; rewrite Hhi; reflexivity).
  rewrite (bind_Ret _ _ _ _ _ Hh).
  apply mask_bits_Ret_inv in Hm as [_ Hm].
  destruct (masked_array_of_clip_progress sh vals own mv mbits obits lo hi h Hm)
    as (h1 & r & rm & Hc & Hr & Hmask).
  rewrite (bind_Ret _ _ _ _ _ Hc).
  assert ((∃ l msh bits, rm = Some l ∧ h1 !! l = Some (BoolArray msh bits)) ∨
          (flo = false ∧ fhi = false)) as Hcase'.
  { destruct Hcase as [H | [H | H]]; [left; apply Hmask; auto .. | right; exact H]. }
  destruct (flag_step_progress flo r (below lo vals) h1 _ _ _ Hr) as (h2 & Hs1 & Hr2 & Hk2).
  { destruct Hcase' as [H | [H _]]; [left; exact H | right; exact H]. }
  rewrite (bind_Ret _ _ _ _ _ Hs1).
  destruct (flag_step_progress fhi r (above hi vals) h2 _ _ _ Hr2) as (h3 & Hs2 & _).
  { destruct Hcase' as [H | [_ H]]; [left; apply Hk2, H | right; exact H]. }
  rewrite (bind_Ret _ _ _ _ _ Hs2).
  exists h3, r. reflexivity.
Qed.

(** *** The bounds of the second call *)

Lemma get_clip_without_percentile pf sel sel' (c : clip_arg) :
  is_percentile (Some c) = false → get_clip pf sel c = get_clip pf sel' c.
Proof.
  destruct c as [x | s]; [reflexivity |].
  unfold is_percentile, get_clip. fold (unflagged s). intros ->. reflexivity.
Qed.

Lemma apply_flag_nowhere (f : bool) (idx b : list bool) :
  length idx = length b →
  (∀ i, idx !! i ≠ Some true) →
  apply_flag f idx b = b.
Proof.
  intros Hlen Hno. apply bool_list_eq.
  - apply apply_flag_length, Hlen.
  - intros i. rewrite apply_flag_lookup_true by exact Hlen.
    split; [intros [H | [_ H]]; [exact H | destruct (Hno i H)] | auto].
Qed.

Lemma clip_twice (lo hi lo2 hi2 : Q) (vals : list Q) :
  (lo <= hi)%Q → (lo2 == lo)%Q → (hi2 == hi)%Q →
  same_values (clip lo2 hi2 <$> (clip lo hi <$> vals)) (clip lo hi <$> vals).
Proof.
  intros Hle Hlo Hhi. unfold same_values.
  induction vals as [| x vals IH]; simpl; constructor; [| exact IH].
  pose proof (clip_in_range lo hi x Hle) as Hx.
  apply clip_fixed. lra.
Qed.

Lemma flagged_mask_length (vals : list Q) (mbits obits : list bool)
    (lo hi : Q) (flo fhi : bool) :
  length mbits = length vals → length obits = length vals →
  length (apply_flag fhi (above hi vals)
            (apply_flag flo (below lo vals) (zip_with orb mbits obits)))
  = length vals.
Proof.
  intros Hm Ho.
  assert (length (zip_with orb mbits obits) = length vals) as Hl0
    by (rewrite length_zip_with; lia).
  assert (length (below lo vals) = length vals) as Hlb by (unfold below; apply length_fmap).
  assert (length (above hi vals) = length vals) as Hla by (unfold above; apply length_fmap).
  rewrite apply_flag_length; rewrite apply_flag_length; lia.
Qed.

Lemma flagged_mask_lookup_true (vals : list Q) (mbits obits : list bool)
    (lo hi : Q) (flo fhi : bool) (i : nat) :
  length mbits = length vals → length obits = length vals →
  apply_flag fhi (above hi vals)
    (apply_flag flo (below lo vals) (zip_with orb mbits obits)) !! i = Some true ↔
  mbits !! i = Some true ∨ obits !! i = Some true ∨
  (flo = true ∧ ∃ x, vals !! i = Some x ∧ (x < lo)%Q) ∨
  (fhi = true ∧ ∃ x, vals !! i = Some x ∧ (hi < x)%Q).
Proof.
  intros Hm Ho.
  assert (length (zip_with orb mbits obits) = length vals) as Hl0
    by (rewrite length_zip_with; lia).
  assert (length (below lo vals) = length vals) as Hlb by (unfold below; apply length_fmap).
  assert (length (above hi vals) = length vals) as Hla by (unfold above; apply length_fmap).
  rewrite apply_flag_lookup_true by (rewrite apply_flag_length; lia).
  rewrite apply_flag_lookup_true by lia.
  rewrite zip_with_orb_lookup_true by lia.
  rewrite below_lookup_true, above_lookup_true. tauto.
Qed.

Lemma existsb_false_lookup (k : list bool) (i : nat) :
  existsb id k = false → k !! i = Some true → False.
Proof.
  revert i. induction k as [| b k IH]; intros i Hk Hi; [discriminate |].
  simpl in Hk. apply orb_false_iff in Hk as [Hb Hk].
  destruct i as [| i]; simpl in Hi; [unfold id in Hb; congruence | eauto].
Qed.

Section SecondCall.

Variables (vals : list Q) (mbits obits mbits2 : list bool).
Variables (lo hi : Q) (flo fhi : bool).

Let k1 : list bool :=
  apply_flag fhi (above hi vals)
    (apply_flag flo (below lo vals) (zip_with orb mbits obits)).
Let cv : list Q := clip lo hi <$> vals.

Hypothesis len_mbits : length mbits = length vals.
Hypothesis len_obits : length obits = length vals.
Hypothesis len_mbits2 : length mbits2 = length vals.
Hypothesis ordered : (lo <= hi)%Q.
Hypothesis mbits2_below_k1 : ∀ i, mbits2 !! i = Some true → k1 !! i = Some true.

Lemma k1_length : length k1 = length vals.
Proof. apply flagged_mask_length; assumption. Qed.

Lemma k1_lookup_true (i : nat) :
  k1 !! i = Some true ↔
  mbits !! i = Some true ∨ obits !! i = Some true ∨
  (flo = true ∧ ∃ x, vals !! i = Some x ∧ (x < lo)%Q) ∨
  (fhi = true ∧ ∃ x, vals !! i = Some x ∧ (hi < x)%Q).
Proof. apply flagged_mask_lookup_true; assumption. Qed.

Lemma k1_lookup_false (i : nat) (x : Q) :
  vals !! i = Some x →
  mbits !! i = Some false → obits !! i = Some false →
  ¬ (flo = true ∧ (x < lo)%Q) → ¬ (fhi = true ∧ (hi < x)%Q) →
  k1 !! i = Some false ∧ mbits2 !! i = Some false.
Proof.
  intros Hx Hm Ho Hnlo Hnhi.
  assert (i < length vals)%nat as Hi by (eapply lookup_lt_Some; eassumption).
  assert (k1 !! i ≠ Some true) as Hk.
  { rewrite k1_lookup_true. intros [H | [H | [[Hf (y & Hy & Hlt)] | [Hf (y & Hy & Hlt)]]]];
      try congruence.
    - apply Hnlo. split; [exact Hf |]. congruence.
    - apply Hnhi. split; [exact Hf |]. congruence. }
  split; apply lookup_bool_false; split.
  - rewrite k1_length. exact Hi.
  - exact Hk.
  - lia.
  - intros H. apply Hk, mbits2_below_k1, H.
Qed.

Lemma second_selection_elem (y : Q) :
  y ∈ live (unmasked_of mbits2 k1 cv) → ∃ x, y = clip lo hi x.
Proof.
  intros Hy. apply elem_of_live_unmasked in Hy as (i & Hc & _).
  unfold cv in Hc. apply list_lookup_fmap_Some in Hc as (x & -> & Hx). eauto.
Qed.

Lemma second_selection_keeps (i : nat) (x : Q) :
  vals !! i = Some x →
  mbits !! i = Some false → obits !! i = Some false →
  ¬ (flo = true ∧ (x < lo)%Q) → ¬ (fhi = true ∧ (hi < x)%Q) →
  clip lo hi x ∈ live (unmasked_of mbits2 k1 cv).
Proof.
  intros Hx Hm Ho Hnlo Hnhi.
  destruct (k1_lookup_false i x Hx Hm Ho Hnlo Hnhi) as [Hk Hm2].
  apply elem_of_live_unmasked. exists i. split_and!; try assumption.
  unfold cv. rewrite list_lookup_fmap, Hx. reflexivity.
Qed.

(** The minimum of the unmasked values is the same in the second call. *)
Lemma np_min_second (m : Q) :
  np_min (unmasked_of mbits obits vals) = Ret m →
  lo = m → flo = false →
  ∃ m2, np_min (unmasked_of mbits2 k1 cv) = Ret m2 ∧ (m2 == m)%Q.
Proof.
  intros Hmin <- Hf.
  apply np_min_Ret_inv in Hmin as [Hin Hle].
  apply elem_of_live_unmasked in Hin as (i & Hx & Hm & Ho).
  assert (clip lo hi lo ∈ live (unmasked_of mbits2 k1 cv)) as Hkeep.
  { apply (second_selection_keeps i lo Hx Hm Ho).
    - intros [Hflo _]. congruence.
    - intros [_ Hlt]. lra. }
  destruct (np_min_progress _ _ Hkeep) as [m2 Hm2]. exists m2. split; [exact Hm2 |].
  apply np_min_Ret_inv in Hm2 as [Hin2 Hle2].
  apply second_selection_elem in Hin2 as [x ->].
  specialize (Hle2 _ Hkeep).
  pose proof (clip_in_range lo hi x ordered) as Hx'.
  pose proof (clip_fixed lo hi lo) as Hfix.
  lra.
Qed.

(** The maximum of the unmasked values is the same in the second call. *)
Lemma np_max_second (m : Q) :
  np_max (unmasked_of mbits obits vals) = Ret m →
  hi = m → fhi = false →
  ∃ m2, np_max (unmasked_of mbits2 k1 cv) = Ret m2 ∧ (m2 == m)%Q.
Proof.
  intros Hmax <- Hf.
  apply np_max_Ret_inv in Hmax as [Hin Hle].
  apply elem_of_live_unmasked in Hin as (i & Hx & Hm & Ho).
  assert (clip lo hi hi ∈ live (unmasked_of mbits2 k1 cv)) as Hkeep.
  { apply (second_selection_keeps i hi Hx Hm Ho).
    - intros [_ Hlt]. lra.
    - intros [Hfhi _]. congruence. }
  destruct (np_max_progress _ _ Hkeep) as [m2 Hm2]. exists m2. split; [exact Hm2 |].
  apply np_max_Ret_inv in Hm2 as [Hin2 Hle2].
  apply second_selection_elem in Hin2 as [x ->].
  specialize (Hle2 _ Hkeep).
  pose proof (clip_in_range lo hi x ordered) as Hx'.
  pose proof (clip_fixed lo hi hi) as Hfix.
  lra.
Qed.

Lemma resolve_lo_second pf clo :
  is_percentile clo = false →
  resolve_lo pf (unmasked_of mbits obits vals) clo = Ret (lo, flo) →
  ∃ lo2, resolve_lo pf (unmasked_of mbits2 k1 cv) clo = Ret (lo2, flo) ∧ (lo2 == lo)%Q.
Proof.
  intros Hp H. destruct clo as [c |]; simpl in *.
  - exists lo. split; [| reflexivity].
    rewrite <- H. apply get_clip_without_percentile, Hp.
  - destruct (np_min (unmasked_of mbits obits vals)) as [m | |] eqn:Hmin; try discriminate.
    injection H as Hm Hf.
    destruct (np_min_second m Hmin (eq_sym Hm) (eq_sym Hf)) as (m2 & -> & Heq).
    exists m2. subst. split; [reflexivity | exact Heq].
Qed.

Lemma resolve_hi_second pf chi :
  is_percentile chi = false →
  resolve_hi pf (unmasked_of mbits obits vals) chi = Ret (hi, fhi) →
  ∃ hi2, resolve_hi pf (unmasked_of mbits2 k1 cv) chi = Ret (hi2, fhi) ∧ (hi2 == hi)%Q.
Proof.
  intros Hp H. destruct chi as [c |]; simpl in *.
  - exists hi. split; [| reflexivity].
    rewrite <- H. apply get_clip_without_percentile, Hp.
  - destruct (np_max (unmasked_of mbits obits vals)) as [m | |] eqn:Hmax; try discriminate.
    injection H as Hm Hf.
    destruct (np_max_second m Hmax (eq_sym Hm) (eq_sym Hf)) as (m2 & -> & Heq).
    exists m2. subst. split; [reflexivity | exact Heq].
Qed.

(** The mask of the second result is the mask of the first. *)
Lemma out_mask_second (rm : option loc) (lo2 hi2 : Q) :
  (lo2 == lo)%Q → (hi2 == hi)%Q →
  (rm = None → mbits2 = k1) →
  out_mask (Some rm) mbits2 k1 cv lo2 flo hi2 fhi = k1.
Proof.
  intros Hlo Hhi Hnone. unfold out_mask.
  assert (base_mask (Some rm) mbits2 k1 = k1) as ->.
  { unfold base_mask, clipped_has_mask.
    destruct rm as [l |]; [| apply Hnone; reflexivity].
    destruct (existsb id k1) eqn:Hany.
    - apply bool_list_eq.
      + rewrite length_zip_with, k1_length. lia.
      + intros i. rewrite zip_with_orb_lookup_true by (rewrite k1_length; lia).
        split; [intros [H | H]; [apply mbits2_below_k1, H | exact H] | auto].
    - apply bool_list_eq.
      + rewrite k1_length. exact len_mbits2.
      + intros i. split; [apply mbits2_below_k1 |].
        intros Hi. exfalso. eapply existsb_false_lookup; eassumption. }
  assert (length cv = length vals) as Hcv by (unfold cv; apply length_fmap).
  rewrite (apply_flag_nowhere flo).
  - apply apply_flag_nowhere.
    + unfold above. rewrite length_fmap, k1_length. exact Hcv.
    + intros i Hi. apply above_lookup_true in Hi as (y & Hy & Hlt).
      unfold cv in Hy. apply list_lookup_fmap_Some in Hy as (x & -> & Hx).
      pose proof (clip_in_range lo hi x ordered). lra.
  - unfold below. rewrite length_fmap, k1_length. exact Hcv.
  - intros i Hi. apply below_lookup_true in Hi as (y & Hy & Hlt).
    unfold cv in Hy. apply list_lookup_fmap_Some in Hy as (x & -> & Hx).
    pose proof (clip_in_range lo hi x ordered). lra.
Qed.

End SecondCall.

Lemma own_mask_masked (h : heap) (r : loc) sh cv rm :
  h !! r = Some (MaskedArray sh cv rm) → own_mask h r = ma_mask h r.
Proof.
  intros Hr. unfold own_mask, ma_mask, data_parts, mask_value_bits, bool_bits.
  rewrite Hr. destruct rm as [l |]; reflexivity.
Qed.

Lemma same_values_refl (vals : list Q) : same_values vals vals.
Proof. unfold same_values. induction vals; constructor; [reflexivity | assumption]. Qed.

Lemma wf_ma_mask (h : heap) (r : loc) sh vals m :
  wf_heap h → h !! r = Some (MaskedArray sh vals m) → ∃ bits, ma_mask h r = Some bits.
Proof.
  intros Hwf Hr. pose proof (wf_heap_lookup _ _ _ Hwf Hr) as Hw. simpl in Hw.
  unfold ma_mask. rewrite Hr. destruct m as [l |]; [| eauto].
  apply andb_true_iff in Hw as [_ Hw].
  destruct (h !! l) as [[| sh' b |] |]; try discriminate. eauto.
Qed.

(** C5, amended.  When neither bound is a percentile string and the
    bounds, as the first call resolves them, satisfy [clip_lo <= clip_hi],
    applying [prepare_data] with the same arguments to its own result
    returns, and yields the same values and the same mask as the first
    application. *)
Theorem prepare_data_twice
    (py_float : string → option Q) (h h1 : heap) (data r1 : loc)
    (mask : option loc) (clip_lo clip_hi : option clip_arg) :
  wf_heap h →
  is_percentile clip_lo = false →
  is_percentile clip_hi = false →
  bounds_ordered py_float h data mask clip_lo clip_hi →
  prepare_data py_float data mask clip_lo clip_hi h = (h1, Ret r1) →
  ∃ h2 r2 vals1 vals2 bits,
    prepare_data py_float r1 mask clip_lo clip_hi h1 = (h2, Ret r2) ∧
    ma_values h1 r1 = Some vals1 ∧
    ma_values h2 r2 = Some vals2 ∧
    same_values vals2 vals1 ∧
    ma_mask h1 r1 = Some bits ∧
    ma_mask h2 r2 = Some bits.
Proof.
  intros Hwf Hplo Hphi Hord H1.
  pose proof H1 as Hinv.
  apply prepare_data_Ret_inv in Hinv as (sh & vals & own & Hd & [Hfast | Hslow]).
  { (* the first call is the identity path, and so is the second *)
    destruct Hfast as (-> & -> & -> & -> & -> & [m ->]).
    assert (h !! data = Some (MaskedArray sh vals m)) as Hr.
    { unfold data_parts in Hd. destruct (h !! data) as [[] |]; congruence. }
    destruct (wf_ma_mask _ _ _ _ _ Hwf Hr) as [bits Hbits].
    exists h, data, vals, vals, bits. split_and!; try assumption.
    - unfold ma_values. rewrite Hr. reflexivity.
    - unfold ma_values. rewrite Hr. reflexivity.
    - apply same_values_refl. }
  destruct Hslow as (mbits & obits & lo & flo & hi & fhi & rm & Hok & Hm & Ho & Hlo & Hhi
                     & Hfresh & Hr & Hk & Hframe & Hshare & Hnone & Hshape).
  assert (lo <= hi)%Q as Hle.
  { unfold bounds_ordered, resolved_bounds in Hord.
    rewrite Hd, Hm, Ho, Hlo, Hhi in Hord. exact Hord. }
  pose proof (wf_effective_length _ _ _ _ _ _ _ Hwf Hd Hok Hm) as Hlm.
  pose proof (wf_own_length _ _ _ _ _ _ Hwf Hd Ho) as Hlob.
  pose proof (wf_values_length _ _ _ _ _ Hwf Hd) as Hlv.
  unfold out_mask in Hk, Hshape.
  rewrite (base_mask_or _ _ _ _ _ _ _ _ Hwf Hd Hok Hm Ho) in Hk, Hshape.
  set (k1 := apply_flag fhi (above hi vals)
               (apply_flag flo (below lo vals) (zip_with orb mbits obits))) in *.
  set (cv := clip lo hi <$> vals) in *.
  assert (length mbits = length vals) as Hlen1 by lia.
  assert (length obits = length vals) as Hlen2 by lia.
  assert (length k1 = length vals) as Hlk.
  { apply flagged_mask_length; assumption. }
  assert (ma_values h1 r1 = Some cv) as Hv1 by (unfold ma_values; rewrite Hr; reflexivity).
  assert ((mask = None ∧ clip_lo = None ∧ clip_hi = None) ∨
          ¬ fast_path h1 r1 mask clip_lo clip_hi) as [(-> & -> & ->) | Hnf].
  { destruct mask; [right; intros ([=] & _) |].
    destruct clip_lo; [right; intros (_ & [=] & _) |].
    destruct clip_hi; [right; intros (_ & _ & [=] & _) |]. left. auto. }
  { (* the second call is the identity path *)
    exists h1, r1, cv, cv, k1. split_and!; try assumption.
    - unfold prepare_data.
      rewrite (bind_Ret _ _ _ _ _ (load_data_MaskedArray _ _ _ _ _ Hr)). reflexivity.
    - apply same_values_refl. }
  assert (data_parts h1 r1 = Some (sh, cv, Some rm)) as Hd2
    by (unfold data_parts; rewrite Hr; reflexivity).
  assert (own_mask h1 r1 = Some k1) as Ho2
    by (rewrite (own_mask_masked _ _ _ _ _ Hr); exact Hk).
  assert (mask_arg_ok h1 mask sh) as Hok2.
  { intros l ->. destruct (Hok l eq_refl) as [b0 Hl0].
    destruct rm as [l' |].
    - destruct (decide (l' = l)) as [-> | Hne].
      + destruct (Hshape l eq_refl) as (msh & Hmsh & _ & Hsh).
        rewrite (Hsh _ _ Hl0) in Hmsh. eauto.
      + exists b0. rewrite Hframe; [exact Hl0 | eauto | congruence].
    - exists b0. rewrite Hframe; [exact Hl0 | eauto | congruence]. }
  assert (∃ mbits2, effective_mask h1 r1 mask = Some mbits2 ∧
                    length mbits2 = length vals ∧
                    (∀ i, mbits2 !! i = Some true → k1 !! i = Some true) ∧
                    (rm = None → mbits2 = k1)) as (mbits2 & Hm2 & Hlen3 & Hsub & Hrmn).
  { destruct mask as [l |]; simpl.
    - destruct (Hok l eq_refl) as [b0 Hl0].
      simpl in Hm. unfold bool_bits in Hm. rewrite Hl0 in Hm. injection Hm as ->.
      assert (rm = Some l ∨ rm ≠ Some l) as [-> | Hne].
      { destruct rm as [l' |]; [| right; discriminate].
        destruct (decide (l' = l)) as [-> | Hne]; [left; reflexivity | right; congruence]. }
      + destruct (Hshape l eq_refl) as (msh & Hmsh & _).
        exists k1. unfold bool_bits. rewrite Hmsh.
        split_and!; auto; discriminate.
      + exists mbits. unfold bool_bits. rewrite Hframe by eauto. rewrite Hl0.
        split_and!; auto.
        * intros i Hi.
          apply flagged_mask_lookup_true; [assumption .. |]. left. exact Hi.
        * intros ->. destruct (Hnone eq_refl) as (_ & _ & [=] & _).
    - exists k1. split_and!; auto. }
  destruct (resolve_lo_second vals mbits obits mbits2 lo hi flo fhi
              Hlen1 Hlen2 Hlen3 Hle Hsub py_float clip_lo Hplo Hlo) as (lo2 & Hlo2 & Hlo_eq).
  destruct (resolve_hi_second vals mbits obits mbits2 lo hi flo fhi
              Hlen1 Hlen2 Hlen3 Hle Hsub py_float clip_hi Hphi Hhi) as (hi2 & Hhi2 & Hhi_eq).
  fold k1 cv in Hlo2, Hhi2.
  destruct (prepare_data_reaches_mask py_float h1 r1 mask clip_lo clip_hi sh cv (Some rm)
              mbits2 k1 Hd2 Hnf Hok2 Hm2 Ho2) as (h1' & mv & Hreach & Hmb & Hob & Hmv).
  destruct (clip_and_mask_progress py_float sh cv (Some rm) mv clip_lo clip_hi h1'
              mbits2 k1 lo2 flo hi2 fhi Hmb Hob Hlo2 Hhi2) as (h2 & r2 & Hrun).
  { destruct rm as [dm |]; [right; left; apply Hmv; eauto |].
    right. right. destruct (Hnone eq_refl) as (-> & -> & _). auto. }
  rewrite <- Hreach in Hrun.
  pose proof Hrun as Hinv2.
  apply prepare_data_Ret_inv in Hinv2 as (sh' & cv' & own' & Hd2' & [Hfast2 | Hslow2]).
  { destruct Hfast2 as (_ & _ & -> & -> & -> & _).
    exfalso. apply Hnf. unfold fast_path. split_and!; eauto. }
  rewrite Hd2 in Hd2'. injection Hd2' as <- <- <-.
  destruct Hslow2 as (mbits2' & obits2' & lo2' & flo' & hi2' & fhi' & rm2 & _ & Hm2' & Ho2'
                      & Hlo2' & Hhi2' & _ & Hr2 & Hk2 & _).
  rewrite Hm2 in Hm2'. injection Hm2' as <-.
  rewrite Ho2 in Ho2'. injection Ho2' as <-.
  rewrite Hlo2 in Hlo2'. injection Hlo2' as <- <-.
  rewrite Hhi2 in Hhi2'. injection Hhi2' as <- <-.
  exists h2, r2, cv, (clip lo2 hi2 <$> cv), k1.
  split_and!; try assumption.
  - unfold ma_values. rewrite Hr2. reflexivity.
  - apply clip_twice; assumption.
  - rewrite Hk2. f_equal.
    apply (out_mask_second vals mbits obits mbits2 lo hi flo fhi
             Hlen1 Hlen2 Hlen3 Hle Hsub rm lo2 hi2 Hlo_eq Hhi_eq Hrmn).
Qed.

Lemma prepare_data_twice_witness :
  ∃ h2 r2 vals1 vals2 bits,
    prepare_data decimal_float 3%positive (Some 2%positive) (Some (ClipStr "!1")) None
      (prepare_data decimal_float 1%positive (Some 2%positive) (Some (ClipStr "!1")) None
         arange5_with_mask).1 = (h2, Ret r2) ∧
    ma_values (prepare_data decimal_float 1%positive (Some 2%positive) (Some (ClipStr "!1"))
                 None arange5_with_mask).1 3%positive = Some vals1 ∧
    ma_values h2 r2 = Some vals2 ∧
    same_values vals2 vals1 ∧
    ma_mask (prepare_data decimal_float 1%positive (Some 2%positive) (Some (ClipStr "!1"))
               None arange5_with_mask).1 3%positive = Some bits ∧
    ma_mask h2 r2 = Some bits.
Proof.
  apply (prepare_data_twice decimal_float arange5_with_mask _ 1%positive 3%positive
           (Some 2%positive) (Some (ClipStr "!1")) None).
  - vm_compute. reflexivity.
  - reflexivity.
  - reflexivity.
  - vm_compute. discriminate.
  - vm_compute. reflexivity.
Defined.

(** ** The data object keeps its values and its mask reference *)

Lemma prepare_data_leaves_data pf data mask clo chi (h h' : heap) r :
  prepare_data pf data mask clo chi h = (h', Ret r) → h' !! data = h !! data.
Proof.
  intros H. apply prepare_data_Ret_inv in H as (sh & vals & own & Hd & [Hfast | Hslow]).
  - destruct Hfast as (_ & -> & _). reflexivity.
  - destruct Hslow as (mbits & obits & lo & flo & hi & fhi & rm & Hok & _ & Ho & _ & _
                       & _ & _ & _ & Hframe & Hshare & _).
    assert (is_Some (h !! data)) as Hsome.
    { unfold data_parts in Hd. destruct (h !! data); [eauto | discriminate]. }
    apply Hframe; [exact Hsome |]. intros Hrm.
    destruct (Hshare data Hrm Hsome) as [_ [-> | [_ ->]]].
    + destruct (Hok data eq_refl) as [bits Hb].
      unfold data_parts in Hd. rewrite Hb in Hd. discriminate.
    + unfold own_mask in Ho. rewrite Hd in Ho. simpl in Ho.
      unfold bool_bits in Ho. unfold data_parts in Hd.
      destruct (h !! data) as [[] |]; discriminate.
Qed.

(** ** Shape (C9) *)

(** The array [prepare_data] returns has as many values and mask bits as its
    shape says. *)
Lemma prepared_lengths pf data mask clo chi (h h1 : heap) d sh vals rm bits :
  wf_heap h →
  prepare_data pf data mask clo chi h = (h1, Ret d) →
  h1 !! d = Some (MaskedArray sh vals rm) →
  ma_mask h1 d = Some bits →
  length vals = size_of sh ∧ length bits = size_of sh.
Proof.
  intros Hwf H Hd Hk.
  apply prepare_data_Ret_inv in H as (sh0 & vals0 & own & Hparts & [Hfast | Hslow]).
  - destruct Hfast as (-> & -> & _ & _ & _ & _).
    assert (data_parts h data = Some (sh, vals, Some rm)) as Hparts'
      by (unfold data_parts; rewrite Hd; reflexivity).
    split; [eapply wf_values_length; eassumption |].
    eapply wf_own_length; [exact Hwf | exact Hparts' |].
    rewrite (own_mask_masked _ _ _ _ _ Hd). exact Hk.
  - destruct Hslow as (mbits & obits & lo & flo & hi & fhi & rm' & Hok & Hm & Ho & _ & _
                       & _ & Hd' & Hk' & _).
    rewrite Hd in Hd'. injection Hd' as <- -> <-.
    rewrite Hk in Hk'. injection Hk' as ->.
    pose proof (wf_effective_length _ _ _ _ _ _ _ Hwf Hparts Hok Hm) as Hlm.
    pose proof (wf_own_length _ _ _ _ _ _ Hwf Hparts Ho) as Hlo.
    pose proof (wf_values_length _ _ _ _ _ Hwf Hparts) as Hlv.
    split; [rewrite length_fmap; exact Hlv |].
    unfold out_mask.
    rewrite (base_mask_or _ _ _ _ _ _ _ _ Hwf Hparts Hok Hm Ho).
    rewrite flagged_mask_length; lia.
Qed.

Lemma prepared_mask_exists pf data mask clo chi (h h1 : heap) d :
  wf_heap h →
  prepare_data pf data mask clo chi h = (h1, Ret d) →
  ∃ sh vals rm bits, h1 !! d = Some (MaskedArray sh vals rm) ∧ ma_mask h1 d = Some bits.
Proof.
  intros Hwf H.
  apply prepare_data_Ret_inv in H as (sh & vals & own & Hparts & [Hfast | Hslow]).
  - destruct Hfast as (-> & -> & _ & _ & _ & [m ->]).
    unfold data_parts in Hparts.
    destruct (h !! data) as [[| | sh' vals' m'] |] eqn:Hd; try discriminate.
    destruct (wf_ma_mask _ _ _ _ _ Hwf Hd) as [bits Hbits].
    exists sh', vals', m', bits. split; [reflexivity | exact Hbits].
  - destruct Hslow as (mbits & obits & lo & flo & hi & fhi & rm & _ & _ & _ & _ & _
                       & _ & Hd & Hk & _).
    eexists _, _, _, _. split; [exact Hd | exact Hk].
Qed.

(** C9.  Whenever [prepare_data] returns, what it returns is a masked
    array of the shape of the input data array, with as many values as the
    input has; and on a store whose arrays have as many elements as their
    shapes say, the values and the mask of the result have as many elements
    as that shape says. *)
Theorem prepare_data_keeps_shape
    (py_float : string → option Q) (h h' : heap) (data r : loc)
    (mask : option loc) (clip_lo clip_hi : option clip_arg) :
  prepare_data py_float data mask clip_lo clip_hi h = (h', Ret r) →
  ∃ o vals own vals' rm,
    h !! data = Some o ∧
    data_parts h data = Some (obj_shape o, vals, own) ∧
    h' !! r = Some (MaskedArray (obj_shape o) vals' rm) ∧
    length vals' = length vals ∧
    (wf_heap h →
     length vals' = size_of (obj_shape o) ∧
     ∃ bits, ma_mask h' r = Some bits ∧ length bits = size_of (obj_shape o)).
Proof.
  intros H. pose proof H as Hinv.
  apply prepare_data_Ret_inv in Hinv as (sh & vals & own & Hd & Hcase).
  pose proof Hd as Hd'.
  unfold data_parts in Hd'. destruct (h !! data) as [o |] eqn:Hl; [| discriminate].
  assert (obj_shape o = sh) as Hsh
    by (destruct o; try discriminate; injection Hd' as -> _ _; reflexivity).
  assert (∃ vals' rm, h' !! r = Some (MaskedArray sh vals' rm) ∧ length vals' = length vals)
    as (vals' & rm & Hr & Hlen).
  { destruct Hcase as [(-> & -> & _ & _ & _ & [m ->]) |
      (mbits & obits & lo & flo & hi & fhi & rm & _ & _ & _ & _ & _ & _ & Hr & _)].
    - destruct o; try discriminate. injection Hd' as -> -> ->. eauto.
    - exists (clip lo hi <$> vals), rm. split; [exact Hr | apply length_fmap]. }
  exists o, vals, own, vals', rm. rewrite Hsh.
  split; [reflexivity |]. split; [exact Hd |]. split; [exact Hr |]. split; [exact Hlen |].
  intros Hwf.
  destruct (prepared_mask_exists _ _ _ _ _ _ _ _ Hwf H) as (sh2 & vals2 & rm2 & bits & Hr2 & Hk).
  destruct (prepared_lengths _ _ _ _ _ _ _ _ _ _ _ _ Hwf H Hr Hk) as [Hv Hb].
  split; [exact Hv |]. exists bits. split; [exact Hk | exact Hb].
Qed.

Lemma prepare_data_keeps_shape_witness :
  ∃ o vals own vals' rm,
    arange5 !! 1%positive = Some o ∧
    data_parts arange5 1%positive = Some (obj_shape o, vals, own) ∧
    (prepare_data decimal_float 1%positive None (Some (ClipStr "25%")) (Some (ClipNum 3.5))
       arange5).1 !! 3%positive = Some (MaskedArray (obj_shape o) vals' rm) ∧
    length vals' = length vals ∧
    (wf_heap arange5 →
     length vals' = size_of (obj_shape o) ∧
     ∃ bits,
       ma_mask (prepare_data decimal_float 1%positive None (Some (ClipStr "25%"))
                  (Some (ClipNum 3.5)) arange5).1 3%positive = Some bits ∧
       length bits = size_of (obj_shape o)).
Proof.
  apply (prepare_data_keeps_shape decimal_float arange5 _ 1%positive 3%positive None
           (Some (ClipStr "25%")) (Some (ClipNum 3.5))).
  vm_compute. reflexivity.
Defined.

(** * Further properties of [prepare_data] *)

(** ** What a call writes *)

(** X1.  A returning call leaves every object of the store it started in
    as it was, except possibly one mask array, the one the variable [mask]
    names: the array passed as [mask] or, when no [mask] is passed, the
    mask array of [data]. *)
Theorem prepare_data_writes_only_the_mask_in_use
    (py_float : string → option Q) (h h' : heap) (data r : loc)
    (mask : option loc) (clip_lo clip_hi : option clip_arg) (l : loc) (o : obj) :
  prepare_data py_float data mask clip_lo clip_hi h = (h', Ret r) →
  h !! l = Some o →
  mask ≠ Some l →
  ¬ (mask = None ∧ ∃ dsh dvals, h !! data = Some (MaskedArray dsh dvals (Some l))) →
  h' !! l = Some o.
Proof.
  intros H Hl Hne Hown.
  apply prepare_data_Ret_inv in H as (sh & vals & own & Hd & [Hfast | Hslow]).
  - destruct Hfast as (_ & -> & _). exact Hl.
  - destruct Hslow as (mbits & obits & lo & flo & hi & fhi & rm & _ & _ & _ & _ & _
                       & _ & _ & _ & Hframe & Hshare & _).
    rewrite <- Hl. apply Hframe; [eauto |]. intros Hrm.
    destruct (Hshare l Hrm) as [_ [Hm | [Hm Ho]]]; [eauto | congruence |].
    apply Hown. split; [exact Hm |]. subst own.
    unfold data_parts in Hd. destruct (h !! data) as [[| | dsh dvals dm] |]; try discriminate.
    injection Hd as -> -> ->. eauto.
Qed.

Lemma prepare_data_writes_only_the_mask_in_use_witness :
  (prepare_data decimal_float 1%positive (Some 2%positive) (Some (ClipStr "!25%")) None
     arange5_with_mask).1 !! 1%positive
  = Some (NdArray [5%nat] [0; 1; 2; 3; 4]%Q).
Proof.
  apply (prepare_data_writes_only_the_mask_in_use decimal_float arange5_with_mask _
           1%positive 3%positive (Some 2%positive) (Some (ClipStr "!25%")) None).
  - vm_compute. reflexivity.
  - vm_compute. reflexivity.
  - discriminate.
  - intros [[=] _].
Defined.

(** X2.  Outside the identity path the returned reference is new: it names
    no object of the initial store, hence neither [data] nor [mask].  The
    mask array of the result is new as well whenever [data] carries a mask
    array that holds a [True]; otherwise it is new, or it is the array
    passed as [mask], or, when no [mask] is passed, the mask array of
    [data]. *)
Theorem prepare_data_result_is_new
    (py_float : string → option Q) (h h' : heap) (data r : loc)
    (mask : option loc) (clip_lo clip_hi : option clip_arg) :
  prepare_data py_float data mask clip_lo clip_hi h = (h', Ret r) →
  ¬ fast_path h data mask clip_lo clip_hi →
  h !! r = None ∧
  ∃ sh vals' rm,
    h' !! r = Some (MaskedArray sh vals' rm) ∧
    (∀ l, rm = Some l →
          h !! l = None ∨ mask = Some l ∨
          (mask = None ∧ ∃ dsh dvals, h !! data = Some (MaskedArray dsh dvals (Some l)))) ∧
    (∀ dsh dvals dm obits,
       h !! data = Some (MaskedArray dsh dvals (Some dm)) →
       own_mask h data = Some obits →
       existsb id obits = true →
       ∀ l, rm = Some l → h !! l = None).
Proof.
  intros H Hnf. apply prepare_data_Ret_inv in H as (sh & vals & own & Hd & [Hfast | Hslow]).
  - exfalso. apply Hnf. destruct Hfast as (_ & _ & -> & -> & -> & [m ->]).
    unfold fast_path. split_and!; try reflexivity.
    unfold data_parts in Hd. destruct (h !! data) as [[] |]; try discriminate. eauto.
  - destruct Hslow as (mbits & obits & lo & flo & hi & fhi & rm & _ & _ & Ho & _ & _
                       & Hfresh & Hr & _ & _ & Hshare & _).
    split; [exact Hfresh |]. exists sh, (clip lo hi <$> vals), rm.
    split; [exact Hr |]. split.
    + intros l Hrm.
      destruct (h !! l) as [o |] eqn:Hl; [right | left; reflexivity].
      destruct (Hshare l Hrm) as [_ [Hm | [Hm Hown]]]; [eauto | left; exact Hm |].
      right. split; [exact Hm |]. subst own.
      unfold data_parts in Hd.
      destruct (h !! data) as [[| | dsh dvals dm] |]; try discriminate.
      injection Hd as -> -> ->. eauto.
    + intros dsh dvals dm obits' Hdata Ho' Hany l Hrm.
      destruct (h !! l) as [o |] eqn:Hl; [| reflexivity].
      destruct (Hshare l Hrm) as [Hchm _]; [eauto |].
      unfold data_parts in Hd. rewrite Hdata in Hd. injection Hd as <- <- <-.
      rewrite Ho in Ho'. injection Ho' as <-.
      simpl in Hchm. congruence.
Qed.

Lemma prepare_data_result_is_new_witness :
  arange5_with_mask !! 3%positive = None ∧
  ∃ sh vals' rm,
    (prepare_data decimal_float 1%positive (Some 2%positive) (Some (ClipNum 1)) None
       arange5_with_mask).1 !! 3%positive = Some (MaskedArray sh vals' rm) ∧
    (∀ l, rm = Some l →
          arange5_with_mask !! l = None ∨ Some 2%positive = Some l ∨
          (Some 2%positive = None ∧
           ∃ dsh dvals,
             arange5_with_mask !! 1%positive = Some (MaskedArray dsh dvals (Some l)))) ∧
    (∀ dsh dvals dm obits,
       arange5_with_mask !! 1%positive = Some (MaskedArray dsh dvals (Some dm)) →
       own_mask arange5_with_mask 1%positive = Some obits →
       existsb id obits = true →
       ∀ l, rm = Some l → arange5_with_mask !! l = None).
Proof.
  apply (prepare_data_result_is_new decimal_float arange5_with_mask _ 1%positive 3%positive
           (Some 2%positive) (Some (ClipNum 1)) None).
  - vm_compute. reflexivity.
  - intros ([=] & _).
Defined.

(** X3.  When no bound is flagged with ["!"], a returning call writes into
    no object of the store it started in: [data] and [mask] are as they
    were. *)
Theorem unflagged_call_writes_nothing
    (py_float : string → option Q) (h h' : heap) (data r : loc)
    (mask : option loc) (clip_lo clip_hi : option clip_arg) (l : loc) (o : obj) :
  is_flagged clip_lo = false →
  is_flagged clip_hi = false →
  prepare_data py_float data mask clip_lo clip_hi h = (h', Ret r) →
  h !! l = Some o →
  h' !! l = Some o.
Proof.
  intros Hflo Hfhi H Hl.
  apply prepare_data_Ret_inv in H as (sh & vals & own & Hd & [Hfast | Hslow]).
  - destruct Hfast as (_ & -> & _). exact Hl.
  - destruct Hslow as (mbits & obits & lo & flo & hi & fhi & rm & Hok & Hm & _ & Hlo & Hhi
                       & _ & _ & _ & Hframe & Hshare & _ & Hshape).
    pose proof (resolve_lo_flag _ _ _ _ _ Hlo) as ->.
    pose proof (resolve_hi_flag _ _ _ _ _ Hhi) as ->.
    rewrite Hflo, Hfhi in Hshape.
    assert (rm = Some l ∨ rm ≠ Some l) as [Hrm | Hrm].
    { destruct rm as [l' |]; [| right; discriminate].
      destruct (decide (l' = l)) as [-> | Hne]; [left; reflexivity | right; congruence]. }
    + destruct (Hshare l Hrm) as [Hchm Hwhich]; [eauto |].
      destruct (Hshape l Hrm) as (msh & Hmsh & _ & Hsame).
      assert (bool_bits h l = Some mbits) as Hbits.
      { destruct Hwhich as [-> | [-> ->]]; [exact Hm |].
        simpl in Hm. unfold own_mask in Hm. rewrite Hd in Hm. exact Hm. }
      unfold bool_bits in Hbits. rewrite Hl in Hbits.
      destruct o as [| osh ob |]; try discriminate. injection Hbits as ->.
      rewrite Hmsh, (Hsame _ _ Hl).
      unfold out_mask, apply_flag, base_mask. rewrite Hchm. reflexivity.
    + rewrite <- Hl. apply Hframe; [eauto | exact Hrm].
Qed.

Lemma unflagged_call_writes_nothing_witness :
  (prepare_data decimal_float 1%positive (Some 2%positive) (Some (ClipStr "25%"))
     (Some (ClipNum 3)) arange5_with_mask).1 !! 2%positive
  = Some (BoolArray [5%nat] [false; false; false; false; false]).
Proof.
  apply (unflagged_call_writes_nothing decimal_float arange5_with_mask _ 1%positive
           3%positive (Some 2%positive) (Some (ClipStr "25%")) (Some (ClipNum 3))).
  - reflexivity.
  - reflexivity.
  - vm_compute. reflexivity.
  - vm_compute. reflexivity.
Defined.

(** X4.  When [data] is a masked array whose mask array holds a [True], a
    returning call writes into no object of the store it started in, even
    with flagged bounds: the mask of the result is a new array. *)
Theorem masked_values_call_writes_nothing
    (py_float : string → option Q) (h h' : heap) (data r : loc)
    (mask : option loc) (clip_lo clip_hi : option clip_arg)
    (sh : shape) (vals : list Q) (dm : loc) (obits : list bool) (l : loc) (o : obj) :
  h !! data = Some (MaskedArray sh vals (Some dm)) →
  own_mask h data = Some obits →
  existsb id obits = true →
  prepare_data py_float data mask clip_lo clip_hi h = (h', Ret r) →
  h !! l = Some o →
  h' !! l = Some o.
Proof.
  intros Hdata Ho Hany H Hl.
  apply prepare_data_Ret_inv in H as (sh' & vals' & own & Hd & [Hfast | Hslow]).
  - destruct Hfast as (_ & -> & _). exact Hl.
  - destruct Hslow as (mbits & obits' & lo & flo & hi & fhi & rm & _ & _ & Ho' & _ & _
                       & _ & _ & _ & Hframe & Hshare & _).
    rewrite <- Hl. apply Hframe; [eauto |]. intros Hrm.
    destruct (Hshare l Hrm) as [Hchm _]; [eauto |].
    unfold data_parts in Hd. rewrite Hdata in Hd. injection Hd as <- <- <-.
    rewrite Ho in Ho'. injection Ho' as <-.
    simpl in Hchm. congruence.
Qed.

Lemma masked_values_call_writes_nothing_witness :
  (prepare_data decimal_float 1%positive (Some 3%positive) (Some (ClipStr "!2.5")) None
     masked3).1 !! 3%positive
  = Some (BoolArray [3%nat] [false; false; false]).
Proof.
  apply (masked_values_call_writes_nothing decimal_float masked3 _ 1%positive 5%positive
           (Some 3%positive) (Some (ClipStr "!2.5")) None [3%nat] [1; 2; 3]%Q 2%positive
           [true; false; false]).
  - vm_compute. reflexivity.
  - vm_compute. reflexivity.
  - reflexivity.
  - vm_compute. reflexivity.
  - vm_compute. reflexivity.
Defined.

(** When no [mask] is passed and the mask array of [data] holds no
    [True], the array returned outside the identity path has that very
    mask array. *)
Lemma result_shares_own_mask pf data clo chi (h h' : heap) r sh vals dm obits :
  data_parts h data = Some (sh, vals, Some (Some dm)) →
  own_mask h data = Some obits →
  existsb id obits = false →
  ¬ (clo = None ∧ chi = None) →
  prepare_data pf data None clo chi h = (h', Ret r) →
  ∃ cv, h' !! r = Some (MaskedArray sh cv (Some dm)).
Proof.
  intros Hd Ho Hany Hb H. unfold prepare_data in H.
  apply bind_Ret_inv in H as ([[sh' vals'] own] & h1 & Hload & H).
  apply load_data_Ret_inv in Hload as [-> Hparts].
  rewrite Hd in Hparts. injection Hparts as <- <- <-.
  apply bind_Ret_inv in H as (rr & h1 & Hres & H).
  apply resolve_mask_Ret_inv in Hres as [(-> & -> & _ & -> & -> & _) | (mv & -> & Hcases)].
  { exfalso. apply Hb. auto. }
  destruct Hcases as [(_ & Hmv & ->) | [(l & _ & [=] & _) | (l & bits & [=] & _)]].
  injection Hmv as <-.
  apply clip_and_mask_Ret_inv in H
    as (mbits & obits' & lo & flo & hi & fhi & rm & _ & Hob & _ & _ & _ & Hr & _ & _ & Hrm & _).
  unfold own_mask in Ho. rewrite Hd in Ho. rewrite Ho in Hob. injection Hob as <-.
  destruct Hrm as [[-> _] | [Hchm _]]; [eauto |].
  simpl in Hchm. congruence.
Qed.

(** X28.  When no [mask] is passed and [data] is a masked array whose mask
    array holds no [True], the array returned outside the identity path
    has the mask array of [data] as its own, and a flagged bound writes
    into it: after the call the mask of [data] is set exactly at the
    positions whose value lies beyond a flagged bound. *)
Theorem flagged_clip_writes_into_the_mask_of_data
    (py_float : string → option Q) (h h' : heap) (data r : loc)
    (clip_lo clip_hi : option clip_arg)
    (sh : shape) (vals : list Q) (dm : loc) (msh : shape) (bits : list bool) :
  wf_heap h →
  h !! data = Some (MaskedArray sh vals (Some dm)) →
  h !! dm = Some (BoolArray msh bits) →
  existsb id bits = false →
  ¬ (clip_lo = None ∧ clip_hi = None) →
  prepare_data py_float data None clip_lo clip_hi h = (h', Ret r) →
  ∃ cv bits' lo hi,
    resolved_bounds py_float h data None clip_lo clip_hi = Some (lo, hi) ∧
    h' !! r = Some (MaskedArray sh cv (Some dm)) ∧
    r ≠ data ∧
    h' !! data = Some (MaskedArray sh vals (Some dm)) ∧
    h' !! dm = Some (BoolArray msh bits') ∧
    ∀ i, bits' !! i = Some true ↔
         (is_flagged clip_lo = true ∧ ∃ x, vals !! i = Some x ∧ (x < lo)%Q) ∨
         (is_flagged clip_hi = true ∧ ∃ x, vals !! i = Some x ∧ (hi < x)%Q).
Proof.
  intros Hwf Hdata Hdm Hany Hb H.
  assert (data_parts h data = Some (sh, vals, Some (Some dm))) as Hd
    by (unfold data_parts; rewrite Hdata; reflexivity).
  assert (own_mask h data = Some bits) as Ho
    by (unfold own_mask; rewrite Hd; simpl; unfold bool_bits; rewrite Hdm; reflexivity).
  destruct (result_shares_own_mask _ _ _ _ _ _ _ _ _ _ _ Hd Ho Hany Hb H) as [cv Hr].
  pose proof (prepare_data_leaves_data _ _ _ _ _ _ _ _ H) as Hkeep.
  apply prepare_data_Ret_inv in H as (sh' & vals' & own & Hd' & [Hfast | Hslow]).
  { destruct Hfast as (_ & _ & _ & -> & -> & _). exfalso. apply Hb. auto. }
  rewrite Hd in Hd'. injection Hd' as <- <- <-.
  destruct Hslow as (mbits & obits & lo & flo & hi & fhi & rm & Hok & Hm & Ho' & Hlo & Hhi
                     & Hfresh & Hr' & _ & _ & _ & _ & Hshape).
  rewrite Hr in Hr'. injection Hr' as -> <-.
  rewrite Ho in Ho'. injection Ho' as <-.
  simpl in Hm. rewrite Ho in Hm. injection Hm as <-.
  destruct (Hshape dm eq_refl) as (msh' & Hmsh & _ & Hsame).
  rewrite (Hsame _ _ Hdm) in Hmsh.
  pose proof (resolve_lo_flag _ _ _ _ _ Hlo) as ->.
  pose proof (resolve_hi_flag _ _ _ _ _ Hhi) as ->.
  pose proof (wf_own_length _ _ _ _ _ _ Hwf Hd Ho) as Hlb.
  pose proof (wf_values_length _ _ _ _ _ Hwf Hd) as Hlv.
  unfold out_mask in Hmsh.
  assert (effective_mask h data None = Some bits) as Hm by exact Ho.
  rewrite (base_mask_or _ _ _ _ _ _ _ _ Hwf Hd Hok Hm Ho) in Hmsh.
  eexists _, _, lo, hi.
  split.
  { unfold resolved_bounds. rewrite Hd, Hm, Ho, Hlo, Hhi. reflexivity. }
  split; [exact Hr |].
  split; [intros ->; congruence |].
  split; [rewrite Hkeep; exact Hdata |].
  split; [exact Hmsh |].
  intros i. rewrite flagged_mask_lookup_true by lia.
  split; [| tauto].
  intros [Hi | [Hi | Hrest]]; [| | exact Hrest];
    exfalso; eapply existsb_false_lookup; eassumption.
Qed.

Lemma flagged_clip_writes_into_the_mask_of_data_witness :
  ∃ cv bits' lo hi,
    resolved_bounds decimal_float unmasked3 1%positive None (Some (ClipStr "!1.5")) None
    = Some (lo, hi) ∧
    (prepare_data decimal_float 1%positive None (Some (ClipStr "!1.5")) None unmasked3).1
      !! 3%positive = Some (MaskedArray [3%nat] cv (Some 2%positive)) ∧
    3%positive ≠ 1%positive ∧
    (prepare_data decimal_float 1%positive None (Some (ClipStr "!1.5")) None unmasked3).1
      !! 1%positive = Some (MaskedArray [3%nat] [1; 2; 3]%Q (Some 2%positive)) ∧
    (prepare_data decimal_float 1%positive None (Some (ClipStr "!1.5")) None unmasked3).1
      !! 2%positive = Some (BoolArray [3%nat] bits') ∧
    ∀ i, bits' !! i = Some true ↔
         (is_flagged (Some (ClipStr "!1.5")) = true ∧
          ∃ x, [1; 2; 3]%Q !! i = Some x ∧ (x < lo)%Q) ∨
         (is_flagged None = true ∧ ∃ x, [1; 2; 3]%Q !! i = Some x ∧ (hi < x)%Q).
Proof.
  apply (flagged_clip_writes_into_the_mask_of_data decimal_float unmasked3 _ 1%positive
           3%positive (Some (ClipStr "!1.5")) None [3%nat] [1; 2; 3]%Q 2%positive [3%nat]
           [false; false; false]).
  - vm_compute. reflexivity.
  - vm_compute. reflexivity.
  - vm_compute. reflexivity.
  - reflexivity.
  - intros [[=] _].
  - vm_compute. reflexivity.
Defined.

(** ** Values *)

Lemma resolve_lo_default sel (py_float : string → option Q) lo flo :
  resolve_lo py_float sel None = Ret (lo, flo) →
  ∀ x, x ∈ live sel → (lo <= x)%Q.
Proof.
  simpl. destruct (np_min sel) as [m | |] eqn:Hmin; try discriminate.
  intros [= <- _]. apply np_min_Ret_inv in Hmin as [_ Hle]. exact Hle.
Qed.

Lemma resolve_hi_default sel (py_float : string → option Q) hi fhi :
  resolve_hi py_float sel None = Ret (hi, fhi) →
  ∀ x, x ∈ live sel → (x <= hi)%Q.
Proof.
  simpl. destruct (np_max sel) as [m | |] eqn:Hmax; try discriminate.
  intros [= <- _]. apply np_max_Ret_inv in Hmax as [_ Hle]. exact Hle.
Qed.

(** X5.  With both bounds absent, the values at the positions that neither
    the effective mask nor the mask of [data] masks are left as they are:
    the default bounds are the minimum and the maximum of those values. *)
Theorem default_bounds_keep_unmasked_values
    (py_float : string → option Q) (h h' : heap) (data r : loc) (mask : option loc)
    (sh : shape) (vals vals' : list Q) (own : option (option loc))
    (eff obits : list bool) (i : nat) (x : Q) :
  prepare_data py_float data mask None None h = (h', Ret r) →
  data_parts h data = Some (sh, vals, own) →
  effective_mask h data mask = Some eff →
  own_mask h data = Some obits →
  ma_values h' r = Some vals' →
  vals !! i = Some x →
  eff !! i = Some false →
  obits !! i = Some false →
  ∃ y, vals' !! i = Some y ∧ (y == x)%Q.
Proof.
  intros H Hd Hm Ho Hv Hx He Hob.
  apply prepare_data_Ret_inv in H as (sh' & vals0 & own' & Hd' & [Hfast | Hslow]).
  - destruct Hfast as (-> & -> & _).
    rewrite Hd in Hd'. injection Hd' as <- <- <-.
    assert (vals' = vals) as ->.
    { unfold ma_values in Hv. unfold data_parts in Hd.
      destruct (h !! data) as [[] |]; congruence. }
    exists x. split; [exact Hx | reflexivity].
  - destruct Hslow as (mbits & obits' & lo & flo & hi & fhi & rm & _ & Hm' & Ho' & Hlo & Hhi
                       & _ & Hr & _).
    rewrite Hd in Hd'. injection Hd' as <- <- <-.
    rewrite Hm in Hm'. injection Hm' as <-. rewrite Ho in Ho'. injection Ho' as <-.
    unfold ma_values in Hv. rewrite Hr in Hv. injection Hv as <-.
    assert (x ∈ live (unmasked_of eff obits vals)) as Hin
      by (apply elem_of_live_unmasked; eauto).
    pose proof (resolve_lo_default _ _ _ _ Hlo x Hin) as Hge.
    pose proof (resolve_hi_default _ _ _ _ Hhi x Hin) as Hle.
    exists (clip lo hi x). split.
    + rewrite list_lookup_fmap, Hx. reflexivity.
    + apply clip_fixed. lra.
Qed.

Lemma default_bounds_keep_unmasked_values_witness :
  ∃ y, [2; 2; 3]%Q !! 1%nat = Some y ∧ (y == 2)%Q.
Proof.
  apply (default_bounds_keep_unmasked_values decimal_float masked3
           (prepare_data decimal_float 1%positive (Some 3%positive) None None masked3).1
           1%positive 5%positive (Some 3%positive) [3%nat] [1; 2; 3]%Q [2; 2; 3]%Q
           (Some (Some 2%positive)) [false; false; false] [true; false; false] 1%nat 2%Q).
  - vm_compute. reflexivity.
  - vm_compute. reflexivity.
  - vm_compute. reflexivity.
  - vm_compute. reflexivity.
  - vm_compute. reflexivity.
  - reflexivity.
  - reflexivity.
  - reflexivity.
Defined.

Lemma clip_keeps_values_in_range (lo hi : Q) (vals : list Q) :
  (∀ x, x ∈ vals → (lo <= x <= hi)%Q) →
  same_values (clip lo hi <$> vals) vals.
Proof.
  unfold same_values. induction vals as [| x vals IH]; intros Hin; simpl; constructor.
  - apply clip_fixed, Hin. left.
  - apply IH. intros y Hy. apply Hin. right. exact Hy.
Qed.

(** X6.  A non-empty plain array passed alone is never rejected: the call
    returns a new masked array with the values of [data] and a mask that is
    false everywhere, and [data] is as it was. *)
Theorem plain_array_alone
    (py_float : string → option Q) (h : heap) (data : loc) (sh : shape) (vals : list Q) :
  h !! data = Some (NdArray sh vals) →
  length vals = size_of sh →
  vals ≠ [] →
  ∃ h' r vals',
    prepare_data py_float data None None None h = (h', Ret r) ∧
    h !! r = None ∧
    ma_values h' r = Some vals' ∧
    same_values vals' vals ∧
    ma_mask h' r = Some (replicate (length vals) false) ∧
    h' !! data = Some (NdArray sh vals).
Proof.
  intros Hdata Hlen Hne.
  assert (data_parts h data = Some (sh, vals, None)) as Hd
    by (unfold data_parts; rewrite Hdata; reflexivity).
  assert (¬ fast_path h data None None None) as Hnf
    by (intros (_ & _ & _ & (? & ? & ? & ?)); congruence).
  assert (own_mask h data = Some (replicate (size_of sh) false)) as Ho
    by (unfold own_mask; rewrite Hd; reflexivity).
  set (zeros := replicate (size_of sh) false) in *.
  destruct (prepare_data_reaches py_float h data None None None sh vals None zeros zeros
              Hd Hnf) as (h1 & mv & Hreach & Hmb & Hob); try assumption.
  { intros l [=]. }
  assert (∀ x, x ∈ vals → x ∈ live (unmasked_of zeros zeros vals)) as Hall.
  { intros x Hx. apply list_elem_of_lookup in Hx as [i Hi].
    apply elem_of_live_unmasked. exists i.
    assert (zeros !! i = Some false) as Hz.
    { apply lookup_replicate. split; [reflexivity |].
      rewrite <- Hlen. eapply lookup_lt_Some. exact Hi. }
    auto. }
  destruct vals as [| x0 vals0] eqn:Hvals; [congruence |]. rewrite <- Hvals in *.
  assert (x0 ∈ vals) as Hx0 by (rewrite Hvals; left).
  destruct (np_min_progress _ _ (Hall x0 Hx0)) as [lo Hmin].
  destruct (np_max_progress _ _ (Hall x0 Hx0)) as [hi Hmax].
  destruct (clip_and_mask_progress py_float sh vals None mv None None h1 zeros zeros
              lo false hi false Hmb Hob) as (h' & r & Hrun).
  { simpl. rewrite Hmin. reflexivity. }
  { simpl. rewrite Hmax. reflexivity. }
  { right. right. auto. }
  rewrite <- Hreach in Hrun. exists h', r, (clip lo hi <$> vals).
  split; [exact Hrun |].
  apply prepare_data_Ret_inv in Hrun as (sh' & vals' & own' & Hd' & [Hfast | Hslow]).
  { destruct Hfast as (_ & _ & _ & _ & _ & [m ->]).
    rewrite Hd in Hd'. discriminate. }
  rewrite Hd in Hd'. injection Hd' as <- <- <-.
  destruct Hslow as (mbits & obits & lo' & flo & hi' & fhi & rm & _ & Hm' & Ho' & Hlo & Hhi
                     & Hfresh & Hr & Hk & Hframe & Hshare & _).
  simpl in Hm'. rewrite Ho in Hm', Ho'. injection Hm' as <-. injection Ho' as <-.
  simpl in Hlo, Hhi. rewrite Hmin in Hlo. rewrite Hmax in Hhi.
  injection Hlo as <- <-. injection Hhi as <- <-.
  apply np_min_Ret_inv in Hmin as [_ Hge]. apply np_max_Ret_inv in Hmax as [_ Hle].
  split_and!.
  - exact Hfresh.
  - unfold ma_values. rewrite Hr. reflexivity.
  - apply clip_keeps_values_in_range. intros x Hx. split; [apply Hge | apply Hle]; auto.
  - rewrite Hk. unfold out_mask, apply_flag, base_mask. unfold zeros. rewrite Hlen.
    reflexivity.
  - rewrite <- Hdata. apply Hframe; [eauto |]. intros Hrm.
    destruct (Hshare data Hrm) as [_ [[=] | [_ [=]]]]. eauto.
Qed.

Lemma plain_array_alone_witness :
  ∃ h' r vals',
    prepare_data decimal_float 1%positive None None None arange5 = (h', Ret r) ∧
    arange5 !! r = None ∧
    ma_values h' r = Some vals' ∧
    same_values vals' [0; 1; 2; 3; 4]%Q ∧
    ma_mask h' r = Some (replicate (length [0; 1; 2; 3; 4]%Q) false) ∧
    h' !! 1%positive = Some (NdArray [5%nat] [0; 1; 2; 3; 4]%Q).
Proof.
  apply (plain_array_alone decimal_float arange5 1%positive [5%nat] [0; 1; 2; 3; 4]%Q).
  - vm_compute. reflexivity.
  - reflexivity.
  - discriminate.
Defined.

(** X7.  Outside the identity path, with resolved bounds
    [clip_lo <= clip_hi], each value of the result is the input value at
    that position when it lies within the bounds, [clip_lo] when it is
    below and [clip_hi] when it is above, masked or not. *)
Theorem values_are_clamped
    (py_float : string → option Q) (h h' : heap) (data r : loc) (mask : option loc)
    (clip_lo clip_hi : option clip_arg)
    (sh : shape) (vals vals' : list Q) (own : option (option loc))
    (lo hi : Q) (i : nat) (x : Q) :
  prepare_data py_float data mask clip_lo clip_hi h = (h', Ret r) →
  ¬ fast_path h data mask clip_lo clip_hi →
  data_parts h data = Some (sh, vals, own) →
  resolved_bounds py_float h data mask clip_lo clip_hi = Some (lo, hi) →
  (lo <= hi)%Q →
  ma_values h' r = Some vals' →
  vals !! i = Some x →
  ∃ y, vals' !! i = Some y ∧
       ((x < lo)%Q → (y == lo)%Q) ∧
       ((hi < x)%Q → (y == hi)%Q) ∧
       ((lo <= x <= hi)%Q → (y == x)%Q).
Proof.
  intros H Hnf Hd Hb Hle Hv Hx.
  apply prepare_data_Ret_inv in H as (sh' & vals0 & own' & Hd' & [Hfast | Hslow]).
  { exfalso. apply Hnf. destruct Hfast as (_ & _ & -> & -> & -> & [m ->]).
    unfold fast_path. split_and!; try reflexivity.
    unfold data_parts in Hd'. destruct (h !! data) as [[] |]; try discriminate. eauto. }
  rewrite Hd in Hd'. injection Hd' as <- <- <-.
  destruct Hslow as (mbits & obits & lo' & flo & hi' & fhi & rm & _ & Hm & Ho & Hlo & Hhi
                     & _ & Hr & _).
  unfold resolved_bounds in Hb. rewrite Hd, Hm, Ho, Hlo, Hhi in Hb. injection Hb as -> ->.
  unfold ma_values in Hv. rewrite Hr in Hv. injection Hv as <-.
  exists (clip lo hi x). split; [rewrite list_lookup_fmap, Hx; reflexivity |].
  unfold clip, np_minimum, np_maximum. split_and!; intros; q_cases; lra.
Qed.

Lemma values_are_clamped_witness :
  ∃ y, [1; 1; 2; 3; 7 # 2]%Q !! 4%nat = Some y ∧
       ((4 < 1)%Q → (y == 1)%Q) ∧
       ((7 # 2 < 4)%Q → (y == 7 # 2)%Q) ∧
       ((1 <= 4 <= 7 # 2)%Q → (y == 4)%Q).
Proof.
  apply (values_are_clamped decimal_float arange5
           (prepare_data decimal_float 1%positive None (Some (ClipStr "25%"))
              (Some (ClipStr "3.5")) arange5).1
           1%positive 3%positive None (Some (ClipStr "25%")) (Some (ClipStr "3.5"))
           [5%nat] [0; 1; 2; 3; 4]%Q [1; 1; 2; 3; 7 # 2]%Q None 1%Q (7 # 2)%Q 4%nat 4%Q).
  - vm_compute. reflexivity.
  - intros (_ & [=] & _).
  - vm_compute. reflexivity.
  - vm_compute. reflexivity.
  - vm_compute. discriminate.
  - vm_compute. reflexivity.
  - reflexivity.
Defined.

(** ** Flagged bounds on a masked array without a mask array *)

Lemma mask_setitem_nomask (r : loc) (idx : list bool) (h : heap) sh cv :
  h !! r = Some (MaskedArray sh cv None) →
  mask_setitem r idx h = (h, Raise TypeError).
Proof.
  intros Hr. unfold mask_setitem.
  rewrite (bind_Ret _ _ _ _ _ (deref_Some _ _ _ Hr)). reflexivity.
Qed.

Lemma clip_and_mask_nomask_flagged pf sh vals clo chi (h : heap) mbits obits lo flo hi fhi :
  mask_bits None sh h = (h, Ret mbits) →
  mask_bits None sh h = (h, Ret obits) →
  resolve_lo pf (unmasked_of mbits obits vals) clo = Ret (lo, flo) →
  resolve_hi pf (unmasked_of mbits obits vals) chi = Ret (hi, fhi) →
  flo = true ∨ fhi = true →
  ∃ h', clip_and_mask pf sh vals (Some None) None clo chi h = (h', Raise TypeError).
Proof.
  intros Hm Ho Hlo Hhi Hflag. unfold clip_and_mask.
  rewrite (bind_Ret _ _ _ _ _ Hm), (bind_Ret _ _ _ _ _ Ho).
  assert (lift (resolve_lo pf (unmasked_of mbits obits vals) clo) h = (h, Ret (lo, flo))) as Hl
    by (unfold lift; rewrite Hlo; reflexivity).
  rewrite (bind_Ret _ _ _ _ _ Hl).
  assert (lift (resolve_hi pf (unmasked_of mbits obits vals) chi) h = (h, Ret (hi, fhi))) as Hh
    by (unfold lift; rewrite Hhi; reflexivity).
  rewrite (bind_Ret _ _ _ _ _ Hh).
  set (r := fresh (dom h)).
  set (h1 := <[r := MaskedArray sh (clip lo hi <$> vals) None]> h).
  assert (masked_array_of_clip sh vals (Some None) None mbits obits lo hi h = (h1, Ret r))
    as Hc by reflexivity.
  rewrite (bind_Ret _ _ _ _ _ Hc).
  assert (h1 !! r = Some (MaskedArray sh (clip lo hi <$> vals) None)) as Hr
    by apply lookup_insert_eq.
  exists h1. destruct flo.
  - apply bind_Raise. apply (mask_setitem_nomask _ _ _ _ _ Hr).
  - assert (skip h1 = (h1, Ret tt)) as Hs by reflexivity.
    rewrite (bind_Ret _ _ _ _ _ Hs).
    destruct Hflag as [[=] | ->].
    apply bind_Raise. apply (mask_setitem_nomask _ _ _ _ _ Hr).
Qed.

(** X8.  When [data] is a masked array whose mask is the constant
    [nomask] (as [numpy.ma.arange(5)] is), no [mask] is passed and a bound
    is flagged with ["!"], the call raises [TypeError] once both bounds are
    resolved: the flagged write has no mask array to go into. *)
Theorem flagged_bound_without_mask_array_raises
    (py_float : string → option Q) (h : heap) (data : loc)
    (clip_lo clip_hi : option clip_arg) (sh : shape) (vals : list Q) (lo hi : Q) :
  h !! data = Some (MaskedArray sh vals None) →
  is_flagged clip_lo = true ∨ is_flagged clip_hi = true →
  resolved_bounds py_float h data None clip_lo clip_hi = Some (lo, hi) →
  ∃ h', prepare_data py_float data None clip_lo clip_hi h = (h', Raise TypeError).
Proof.
  intros Hdata Hflag Hb.
  assert (data_parts h data = Some (sh, vals, Some None)) as Hd
    by (unfold data_parts; rewrite Hdata; reflexivity).
  assert (own_mask h data = Some (replicate (size_of sh) false)) as Ho
    by (unfold own_mask; rewrite Hd; reflexivity).
  set (zeros := replicate (size_of sh) false) in *.
  unfold resolved_bounds in Hb. rewrite Hd in Hb. simpl in Hb. rewrite Ho in Hb.
  destruct (resolve_lo py_float (unmasked_of zeros zeros vals) clip_lo)
    as [[lo' flo] | |] eqn:Hlo; try discriminate.
  destruct (resolve_hi py_float (unmasked_of zeros zeros vals) clip_hi)
    as [[hi' fhi] | |] eqn:Hhi; try discriminate.
  assert (flo = true ∨ fhi = true) as Hflag'.
  { rewrite (resolve_lo_flag _ _ _ _ _ Hlo), (resolve_hi_flag _ _ _ _ _ Hhi). exact Hflag. }
  assert (resolve_mask data (Some None) sh None clip_lo clip_hi h = (h, Ret (inr None)))
    as Hres.
  { unfold resolve_mask. destruct clip_lo, clip_hi; try reflexivity.
    destruct Hflag; discriminate. }
  unfold prepare_data.
  rewrite (bind_Ret _ _ _ _ _ (load_data_parts _ _ _ Hd)). simpl.
  rewrite (bind_Ret _ _ _ _ _ Hres).
  apply (clip_and_mask_nomask_flagged py_float sh vals clip_lo clip_hi h zeros zeros
           lo' flo hi' fhi); try assumption; reflexivity.
Qed.

Lemma flagged_bound_without_mask_array_raises_witness :
  ∃ h', prepare_data decimal_float 1%positive None (Some (ClipStr "!25%")) None ma_arange5
        = (h', Raise TypeError).
Proof.
  apply (flagged_bound_without_mask_array_raises decimal_float ma_arange5 1%positive
           (Some (ClipStr "!25%")) None [5%nat] [0; 1; 2; 3; 4]%Q 1%Q 4%Q).
  - vm_compute. reflexivity.
  - left. reflexivity.
  - vm_compute. reflexivity.
Defined.

(** ** The mask only grows *)

(** X9.  A returning call never clears a mask bit: every position masked
    by the effective input mask, or by the mask [data] itself carries, is
    masked in the result. *)
Theorem mask_is_never_cleared
    (py_float : string → option Q) (h h' : heap) (data r : loc) (mask : option loc)
    (clip_lo clip_hi : option clip_arg) (eff obits bits : list bool) (i : nat) :
  wf_heap h →
  prepare_data py_float data mask clip_lo clip_hi h = (h', Ret r) →
  effective_mask h data mask = Some eff →
  own_mask h data = Some obits →
  ma_mask h' r = Some bits →
  eff !! i = Some true ∨ obits !! i = Some true →
  bits !! i = Some true.
Proof.
  intros Hwf H Hm Ho Hk Hi.
  apply prepare_data_Ret_inv in H as (sh & vals & own & Hd & [Hfast | Hslow]).
  - destruct Hfast as (-> & -> & -> & _ & _ & [m ->]).
    simpl in Hm. rewrite Ho in Hm. injection Hm as <-.
    assert (∃ dsh dvals, h !! data = Some (MaskedArray dsh dvals m)) as (dsh & dvals & Hdata).
    { unfold data_parts in Hd. destruct (h !! data) as [[] |]; try discriminate.
      injection Hd as <- <- <-. eauto. }
    rewrite (own_mask_masked _ _ _ _ _ Hdata), Hk in Ho. injection Ho as <-.
    destruct Hi; assumption.
  - destruct Hslow as (mbits & obits' & lo & flo & hi & fhi & rm & Hok & Hm' & Ho' & _ & _
                       & _ & _ & Hk' & _).
    pose proof (wf_effective_length _ _ _ _ _ _ _ Hwf Hd Hok Hm') as Hlm.
    pose proof (wf_own_length _ _ _ _ _ _ Hwf Hd Ho') as Hlo.
    pose proof (wf_values_length _ _ _ _ _ Hwf Hd) as Hlv.
    unfold out_mask in Hk'.
    rewrite (base_mask_or _ _ _ _ _ _ _ _ Hwf Hd Hok Hm' Ho') in Hk'.
    rewrite Hm in Hm'. injection Hm' as <-. rewrite Ho in Ho'. injection Ho' as <-.
    rewrite Hk in Hk'. injection Hk' as ->.
    apply flagged_mask_lookup_true; [lia | lia |]. tauto.
Qed.

Lemma mask_is_never_cleared_witness :
  [true; true; false] !! 0%nat = Some true.
Proof.
  apply (mask_is_never_cleared decimal_float masked3
           (prepare_data decimal_float 1%positive (Some 3%positive) (Some (ClipStr "!2.5")) None
              masked3).1
           1%positive 5%positive (Some 3%positive) (Some (ClipStr "!2.5")) None
           [false; false; false] [true; false; false] [true; true; false] 0%nat).
  - vm_compute. reflexivity.
  - vm_compute. reflexivity.
  - vm_compute. reflexivity.
  - vm_compute. reflexivity.
  - vm_compute. reflexivity.
  - right. reflexivity.
Defined.

(** * plot_grid_map *)

(** ** The two loops on [ra_edges] *)

Lemma ra_fuel_enough (x : Q) :
  (x <= 360 * inject_Z (Z.of_nat (Z.to_nat (Qceiling (x / 360)))))%Q.
Proof.
  pose proof (Qle_ceiling (x / 360)) as Hc.
  assert (Qceiling (x / 360) ≤ Z.of_nat (Z.to_nat (Qceiling (x / 360))))%Z as Hz by lia.
  rewrite Zle_Qle in Hz.
  assert (x == 360 * (x / 360))%Q as Hx by (field).
  lra.
Qed.

Lemma inject_Z_S (n : nat) :
  (inject_Z (Z.of_nat (S n)) == inject_Z (Z.of_nat n) + 1)%Q.
Proof. rewrite Nat2Z.inj_succ. unfold Z.succ. rewrite inject_Z_plus. reflexivity. Qed.

Lemma Forall2_shift_zero (l : list Q) :
  Forall2 (λ x y, (y == x + 360 * inject_Z 0)%Q) l l.
Proof.
  induction l as [| x l IH]; constructor; [| exact IH].
  change (inject_Z 0) with 0%Q. lra.
Qed.

Lemma shift_down_spec (fuel : nat) (lon_min : Q) (e0 : Q) (t : list Q) :
  (e0 - lon_min <= 360 * inject_Z (Z.of_nat fuel))%Q →
  ∃ (k : Z) (e1 : Q) (t1 : list Q),
    shift_down (S fuel) lon_min (e0 :: t) = Some (e1 :: t1) ∧
    Forall2 (λ x y, (y == x + 360 * inject_Z k)%Q) (e0 :: t) (e1 :: t1) ∧
    (e1 <= lon_min)%Q ∧
    (k = 0%Z ∨ (lon_min - 360 < e1)%Q).
Proof.
  revert e0 t. induction fuel as [| fuel IH]; intros e0 t Hfuel.
  - exists 0%Z, e0, t. change (inject_Z (Z.of_nat 0)) with 0%Q in Hfuel.
    cbn [shift_down].
    assert (Qltb lon_min e0 = false) as ->.
    { destruct (Qltb lon_min e0) eqn:E; [| reflexivity]. apply Qltb_true in E. lra. }
    split_and!; [reflexivity | | lra | left; reflexivity].
    apply Forall2_shift_zero.
  - cbn [shift_down]. destruct (Qltb lon_min e0) eqn:E.
    + apply Qltb_true in E. rewrite inject_Z_S in Hfuel.
      destruct (IH (e0 - 360)%Q ((λ x, x - 360)%Q <$> t)) as (k & e1 & t1 & Hrun & Hall & Hle & Hk);
        [lra |].
      exists (k - 1)%Z, e1, t1. split_and!.
      * exact Hrun.
      * change ((e0 - 360)%Q :: ((λ x, x - 360)%Q <$> t))
          with ((λ x, x - 360)%Q <$> (e0 :: t)) in Hall.
        apply Forall2_fmap_l in Hall. eapply Forall2_impl; [exact Hall |].
        intros x y Hxy. simpl in Hxy. rewrite Hxy.
        unfold Zminus. rewrite inject_Z_plus.
        change (inject_Z (- (1))) with (-1 # 1)%Q. lra.
      * exact Hle.
      * right. destruct Hk as [-> | Hk]; [| exact Hk].
        inversion Hall as [| ? ? ? ? Hhead _]; subst.
        change (inject_Z 0) with 0%Q in Hhead. lra.
    + exists 0%Z, e0, t.
      assert (¬ (lon_min < e0)%Q) as Hn.
      { intros Hlt. apply Qltb_true in Hlt. congruence. }
      split_and!; [reflexivity | | lra | left; reflexivity].
      apply Forall2_shift_zero.
Qed.

Lemma shift_up_spec (fuel : nat) (lon_min : Q) (e0 : Q) (t : list Q) :
  (e0 <= lon_min)%Q →
  (lon_min - 360 - e0 < 360 * inject_Z (Z.of_nat fuel))%Q →
  ∃ (k : Z) (e1 : Q) (t1 : list Q),
    shift_up (S fuel) lon_min (e0 :: t) = Some (e1 :: t1) ∧
    Forall2 (λ x y, (y == x + 360 * inject_Z k)%Q) (e0 :: t) (e1 :: t1) ∧
    (lon_min - 360 < e1 <= lon_min)%Q.
Proof.
  revert e0 t. induction fuel as [| fuel IH]; intros e0 t Hpre Hfuel.
  - exists 0%Z, e0, t. change (inject_Z (Z.of_nat 0)) with 0%Q in Hfuel.
    cbn [shift_up].
    assert (Qle_bool e0 (lon_min - 360) = false) as ->.
    { destruct (Qle_bool e0 (lon_min - 360)) eqn:E; [| reflexivity].
      apply Qle_bool_iff in E. lra. }
    split_and!; [reflexivity | | lra | lra].
    apply Forall2_shift_zero.
  - cbn [shift_up]. destruct (Qle_bool e0 (lon_min - 360)) eqn:E.
    + apply Qle_bool_iff in E. rewrite inject_Z_S in Hfuel.
      destruct (IH (e0 + 360)%Q ((λ x, x + 360)%Q <$> t)) as (k & e1 & t1 & Hrun & Hall & Hle);
        [lra | lra |].
      exists (k + 1)%Z, e1, t1. split_and!.
      * exact Hrun.
      * change ((e0 + 360)%Q :: ((λ x, x + 360)%Q <$> t))
          with ((λ x, x + 360)%Q <$> (e0 :: t)) in Hall.
        apply Forall2_fmap_l in Hall. eapply Forall2_impl; [exact Hall |].
        intros x y Hxy. simpl in Hxy. rewrite Hxy.
        rewrite inject_Z_plus. change (inject_Z 1) with (1 # 1)%Q. lra.
      * lra.
      * lra.
    + exists 0%Z, e0, t. apply Qle_bool_false in E.
      split_and!; [reflexivity | | lra | lra].
      apply Forall2_shift_zero.
Qed.

Lemma shift_edges_spec (lon_min : Q) (ra_edges : list Q) :
  ra_edges ≠ [] →
  ∃ (k : Z) (e1 : Q) (t1 : list Q),
    shift_edges lon_min ra_edges = Some (e1 :: t1) ∧
    Forall2 (λ x y, (y == x + 360 * inject_Z k)%Q) ra_edges (e1 :: t1) ∧
    (lon_min - 360 < e1 <= lon_min)%Q.
Proof.
  intros Hne. destruct ra_edges as [| e0 t]; [congruence |].
  unfold shift_edges, ra_fuel.
  destruct (shift_down_spec _ lon_min e0 t (ra_fuel_enough (e0 - lon_min)))
    as (k & e1 & t1 & -> & Hall & Hle & Hk).
  assert (lon_min - 360 - e1 < 360 * inject_Z (Z.of_nat (Z.to_nat (Qceiling ((lon_min - e1) / 360)))))%Q
    as Hfuel.
  { pose proof (ra_fuel_enough (lon_min - e1)). lra. }
  destruct (shift_up_spec _ lon_min e1 t1 Hle Hfuel) as (k' & e2 & t2 & -> & Hall' & Hrange).
  exists (k + k')%Z, e2, t2. split_and!; [reflexivity | | lra | lra].
  apply Forall2_same_length_lookup. split.
  - apply Forall2_length in Hall, Hall'. congruence.
  - intros i x z Hx Hz.
    destruct (Forall2_lookup_l _ _ _ _ _ Hall Hx) as (y & Hy & Hxy).
    destruct (Forall2_lookup_l _ _ _ _ _ Hall' Hy) as (z' & Hz' & Hyz).
    rewrite Hz in Hz'. injection Hz' as <-.
    rewrite Hyz, Hxy, inject_Z_plus. lra.
Qed.


(** ** Sorted edges *)

Lemma elem_of_insert_sorted (x y : Q) (l : list Q) :
  y ∈ insert_sorted x l → y = x ∨ y ∈ l.
Proof.
  induction l as [| z l IH]; simpl.
  - intros H. apply list_elem_of_singleton in H. auto.
  - destruct (Qle_bool x z).
    + intros H. apply elem_of_cons in H as [-> | H]; auto.
    + intros H. apply elem_of_cons in H as [-> | H]; [right; left |].
      destruct (IH H) as [-> | Hin]; [left; reflexivity | right; right; exact Hin].
Qed.

Lemma insert_sorted_sorted (x : Q) (l : list Q) :
  StronglySorted Qle l → StronglySorted Qle (insert_sorted x l).
Proof.
  induction l as [| z l IH]; intros Hs; simpl.
  - repeat constructor.
  - apply StronglySorted_inv in Hs as [Hs Hz].
    destruct (Qle_bool x z) eqn:E.
    + apply Qle_bool_iff in E. constructor; [constructor; assumption |].
      constructor; [exact E |].
      eapply Forall_impl; [exact Hz |]. intros y Hy. simpl in Hy. lra.
    + apply Qle_bool_false in E. constructor; [apply IH, Hs |].
      apply Forall_forall. intros y Hy. apply elem_of_insert_sorted in Hy as [-> | Hy].
      * lra.
      * rewrite Forall_forall in Hz. apply Hz, Hy.
Qed.

Lemma np_sort_sorted (l : list Q) : StronglySorted Qle (np_sort l).
Proof.
  unfold np_sort. induction l as [| x l IH]; simpl; [constructor |].
  apply insert_sorted_sorted, IH.
Qed.

Lemma elem_of_drop_repeats (x : Q) (l : list Q) : x ∈ drop_repeats l → x ∈ l.
Proof.
  induction l as [| y l IH]; [intros H; exact H |].
  destruct l as [| z l].
  - intros H. exact H.
  - cbn [drop_repeats]. destruct (Qeq_bool y z).
    + intros H. right. apply IH, H.
    + intros H. apply elem_of_cons in H as [-> | H]; [left | right; apply IH, H].
Qed.

Lemma drop_repeats_cases (y : Q) (l : list Q) :
  drop_repeats (y :: l) = drop_repeats l ∨ drop_repeats (y :: l) = y :: drop_repeats l.
Proof.
  destruct l as [| z l]; [right; reflexivity |].
  change (drop_repeats (y :: z :: l))
    with (if Qeq_bool y z then drop_repeats (z :: l) else y :: drop_repeats (z :: l)).
  destruct (Qeq_bool y z); auto.
Qed.

Lemma drop_repeats_sorted (l : list Q) :
  StronglySorted Qle l → StronglySorted Qle (drop_repeats l).
Proof.
  induction l as [| y l IH]; intros Hs; [constructor |].
  apply StronglySorted_inv in Hs as [Hs Hy].
  destruct (drop_repeats_cases y l) as [-> | ->]; [apply IH, Hs |].
  constructor; [apply IH, Hs |].
  apply Forall_forall. intros x Hx. apply elem_of_drop_repeats in Hx.
  rewrite Forall_forall in Hy. apply Hy, Hx.
Qed.

Lemma np_unique_sorted (l : list Q) : StronglySorted Qle (np_unique l).
Proof. apply drop_repeats_sorted, np_sort_sorted. Qed.

Lemma shifted_sorted (c : Q) (l r : list Q) :
  Forall2 (λ x y, (y == x + c)%Q) l r →
  StronglySorted Qle l → StronglySorted Qle r.
Proof.
  intros Hall. induction Hall as [| x y l r Hxy Hall IH]; intros Hs; [constructor |].
  apply StronglySorted_inv in Hs as [Hs Hx]. constructor; [apply IH, Hs |].
  apply Forall_forall. intros y' Hy'.
  apply list_elem_of_lookup in Hy' as [i Hi].
  destruct (Forall2_lookup_r _ _ _ _ _ Hall Hi) as (x' & Hx' & Hxy').
  rewrite Forall_forall in Hx.
  assert (x <= x')%Q as Hle by (apply Hx; eapply list_elem_of_lookup_2; exact Hx').
  rewrite Hxy, Hxy'. lra.
Qed.

Lemma sorted_head_le (e0 : Q) (t : list Q) (x : Q) :
  StronglySorted Qle (e0 :: t) → x ∈ e0 :: t → (e0 <= x)%Q.
Proof.
  intros Hs Hx. apply StronglySorted_inv in Hs as [_ Hall].
  apply elem_of_cons in Hx as [-> | Hx]; [lra |].
  rewrite Forall_forall in Hall. apply Hall, Hx.
Qed.

Lemma sorted_le_last (l : list Q) (en x : Q) :
  StronglySorted Qle l → last l = Some en → x ∈ l → (x <= en)%Q.
Proof.
  intros Hs Hlast Hx.
  destruct l as [| y l _] using rev_ind; [discriminate |].
  rewrite last_snoc in Hlast. injection Hlast as ->.
  apply elem_of_app in Hx as [Hx | Hx].
  - apply (StronglySorted_app_1_elem_of _ _ _ _ _ Hs Hx). left.
  - apply list_elem_of_singleton in Hx as ->. lra.
Qed.

Lemma sorted_lookup_le (l : list Q) (i j : nat) (x y : Q) :
  StronglySorted Qle l → (i <= j)%nat →
  l !! i = Some x → l !! j = Some y → (x <= y)%Q.
Proof.
  intros Hs. revert i j. induction Hs as [| z l Hs IH Hz]; intros i j Hij Hx Hy.
  - discriminate.
  - destruct i as [| i], j as [| j]; simpl in *; try lia.
    + injection Hx as <-. injection Hy as <-. lra.
    + injection Hx as <-. rewrite Forall_forall in Hz. apply Hz.
      eapply list_elem_of_lookup_2. exact Hy.
    + apply (IH i j); [lia | assumption ..].
Qed.

(** X10.  The two loops that bring [ra_edges] next to the left edge of the
    map always finish, on any non-empty array of edges: every edge is moved
    by one and the same whole number of turns, the first edge ends in
    [(lonmin - 360, lonmin]], and edges that were in increasing order still
    are. *)
Theorem shift_edges_finishes (lon_min : Q) (ra_edges : list Q) :
  ra_edges ≠ [] →
  ∃ (k : Z) (e1 : Q) (t1 : list Q),
    shift_edges lon_min ra_edges = Some (e1 :: t1) ∧
    Forall2 (λ x y, (y == x + 360 * inject_Z k)%Q) ra_edges (e1 :: t1) ∧
    (lon_min - 360 < e1 <= lon_min)%Q ∧
    (StronglySorted Qle ra_edges → StronglySorted Qle (e1 :: t1)).
Proof.
  intros Hne.
  destruct (shift_edges_spec lon_min ra_edges Hne) as (k & e1 & t1 & Hrun & Hall & Hrange).
  exists k, e1, t1.
  split; [exact Hrun |]. split; [exact Hall |]. split; [exact Hrange |].
  intros Hs. eapply shifted_sorted; [exact Hall | exact Hs].
Qed.

Lemma shift_edges_finishes_witness :
  ∃ (k : Z) (e1 : Q) (t1 : list Q),
    shift_edges (-60) [700; 790; 880; 970; 1060]%Q = Some (e1 :: t1) ∧
    Forall2 (λ x y, (y == x + 360 * inject_Z k)%Q) [700; 790; 880; 970; 1060]%Q (e1 :: t1) ∧
    (-60 - 360 < e1 <= -60)%Q ∧
    (StronglySorted Qle [700; 790; 880; 970; 1060]%Q → StronglySorted Qle (e1 :: t1)).
Proof.
  apply (shift_edges_finishes (-60) [700; 790; 880; 970; 1060]%Q). discriminate.
Defined.

(** ** The first gridline inside the map *)

Lemma first_at_least_spec (lon_min : Q) (l : list Q) (first : nat) :
  first_at_least lon_min l = Some first →
  (∃ e, l !! first = Some e ∧ (lon_min <= e)%Q) ∧
  ∀ j x, (j < first)%nat → l !! j = Some x → (x < lon_min)%Q.
Proof.
  revert first. induction l as [| e l IH]; intros first; [discriminate |].
  cbn [first_at_least]. destruct (Qle_bool lon_min e) eqn:E.
  - intros [= <-]. apply Qle_bool_iff in E. split; [exists e; auto |]. intros j x Hj. lia.
  - apply Qle_bool_false in E.
    destruct (first_at_least lon_min l) as [f |] eqn:Hf; [| discriminate].
    intros [= <-]. destruct (IH f eq_refl) as [Hat Hbefore]. split; [exact Hat |].
    intros [| j] x Hj Hx; simpl in Hx.
    + injection Hx as <-. exact E.
    + apply (Hbefore j x); [lia | exact Hx].
Qed.

Lemma first_at_least_exists (lon_min : Q) (l : list Q) (x : Q) :
  x ∈ l → (lon_min <= x)%Q → ∃ first, first_at_least lon_min l = Some first.
Proof.
  induction l as [| e l IH]; intros Hx Hle; [inversion Hx |].
  cbn [first_at_least]. destruct (Qle_bool lon_min e) eqn:E; [eauto |].
  apply Qle_bool_false in E.
  apply elem_of_cons in Hx as [-> | Hx]; [lra |].
  destruct (IH Hx Hle) as [f ->]. eauto.
Qed.

(** ** What [plot_grid_map] has established when it draws *)

Lemma Forall2_last {A B} (P : A → B → Prop) (l : list A) (r : list B) (a : A) :
  Forall2 P l r → last l = Some a → ∃ b, last r = Some b ∧ P a b.
Proof.
  intros Hall. induction Hall as [| x y l r Hxy Hall IH]; [discriminate |].
  destruct Hall as [| x' y' l r Hxy' Hall].
  - intros [= <-]. exists y. auto.
  - intros Hlast. apply IH. exact Hlast.
Qed.

Lemma rows_of_lengths {A} (n_rows n_cols : nat) (l : list A) :
  length l = (n_rows * n_cols)%nat →
  length (rows_of n_rows n_cols l) = n_rows ∧
  Forall (λ row, length row = n_cols) (rows_of n_rows n_cols l).
Proof.
  revert l. induction n_rows as [| k IH]; intros l Hlen; simpl.
  - split; [reflexivity | constructor].
  - destruct (IH (drop n_cols l)) as [Hn Hall]; [rewrite length_drop; lia |].
    split; [lia |]. constructor; [rewrite length_take; lia | exact Hall].
Qed.

Lemma grid_map_of_inv (init_sky : sky_map) sh cells ra dec cmap colorbar label basemap p :
  grid_map_of init_sky sh cells ra dec cmap colorbar label basemap = Plotted p →
  ∃ n_dec n_ra e0 en r first,
    sh = [n_dec; n_ra] ∧
    length (np_unique ra) = (n_ra + 1)%nat ∧
    length (np_unique dec) = (n_dec + 1)%nat ∧
    head (np_unique ra) = Some e0 ∧
    last (np_unique ra) = Some en ∧
    (e0 == en - 360)%Q ∧
    (lonmin (default init_sky basemap) + 360 == lonmax (default init_sky basemap))%Q ∧
    shift_edges (lonmin (default init_sky basemap)) (np_unique ra) = Some r ∧
    first_at_least (lonmin (default init_sky basemap)) r = Some first ∧
    wrap_around (default init_sky basemap) first r (rows_of n_dec n_ra cells)
    = Plotted (plot_ra p, plot_data p) ∧
    plot_dec p = np_unique dec ∧
    plot_basemap p = default init_sky basemap ∧
    plot_cmap p = cmap ∧
    plot_colorbar p = (if colorbar then Some (shown_label label) else None).
Proof.
  unfold grid_map_of.
  destruct sh as [| n_dec [| n_ra [| ? ?]]]; try discriminate.
  destruct (length (np_unique ra) =? n_ra + 1)%nat eqn:Hra; [| discriminate].
  destruct (length (np_unique dec) =? n_dec + 1)%nat eqn:Hdec; [| discriminate].
  apply Nat.eqb_eq in Hra, Hdec. simpl.
  destruct (head (np_unique ra)) as [e0 |] eqn:Hhead; [| discriminate].
  destruct (last (np_unique ra)) as [en |] eqn:Hlast; [| discriminate].
  destruct (Qeq_bool e0 (en - 360)) eqn:Hspan; [| discriminate].
  destruct (Qeq_bool (lonmin (default init_sky basemap) + 360)
              (lonmax (default init_sky basemap))) eqn:Hsky; [| discriminate].
  apply Qeq_bool_iff in Hspan, Hsky. simpl.
  destruct (shift_edges _ (np_unique ra)) as [r |] eqn:Hshift; [| discriminate].
  destruct (first_at_least _ r) as [first |] eqn:Hfirst; [| discriminate].
  destruct (wrap_around _ first r _) as [[ra' data'] | |] eqn:Hwrap; try discriminate.
  intros [= <-]. exists n_dec, n_ra, e0, en, r, first. simpl.
  split_and!; try assumption; reflexivity.
Qed.

Lemma plot_grid_map_inv pf init_sky data ra dec cmap colorbar label basemap (h h1 : heap) p :
  plot_grid_map pf init_sky data ra dec cmap colorbar label basemap h = (h1, Plotted p) →
  ∃ d sh vals rm bits,
    prepare_data pf data None None None h = (h1, Ret d) ∧
    h1 !! d = Some (MaskedArray sh vals rm) ∧
    ma_mask h1 d = Some bits ∧
    grid_map_of init_sky sh (zip vals bits) ra dec cmap colorbar label basemap = Plotted p.
Proof.
  unfold plot_grid_map.
  destruct (prepare_data pf data None None None h) as [h2 [d | e |]]; try discriminate.
  destruct (h2 !! d) as [[| | sh vals rm] |] eqn:Hd; try discriminate.
  destruct (ma_mask h2 d) as [bits |] eqn:Hk; [| discriminate].
  intros [= <- Hg]. exists d, sh, vals, rm, bits. auto.
Qed.

(** The shifted edges: sorted, spanning one turn, the first one in
    [(lonmin - 360, lonmin]]. *)
Lemma shifted_edges_facts (lon_min : Q) (ra : list Q) (e0 en : Q) (r : list Q) :
  head (np_unique ra) = Some e0 →
  last (np_unique ra) = Some en →
  (e0 == en - 360)%Q →
  shift_edges lon_min (np_unique ra) = Some r →
  ∃ e1 t1 en1,
    r = e1 :: t1 ∧
    length r = length (np_unique ra) ∧
    last r = Some en1 ∧
    (en1 == e1 + 360)%Q ∧
    (lon_min - 360 < e1 <= lon_min)%Q ∧
    StronglySorted Qle r.
Proof.
  intros Hhead Hlast Hspan Hshift.
  assert (np_unique ra ≠ []) as Hne by (intros Heq; rewrite Heq in Hhead; discriminate).
  destruct (shift_edges_spec lon_min _ Hne) as (k & e1 & t1 & Hrun & Hall & Hrange).
  rewrite Hshift in Hrun. injection Hrun as ->.
  destruct (Forall2_last _ _ _ _ Hall Hlast) as (en1 & Hlast1 & Hen1).
  exists e1, t1, en1.
  split; [reflexivity |].
  split; [symmetry; eapply Forall2_length; exact Hall |].
  split; [exact Hlast1 |].
  split.
  { destruct (np_unique ra) as [| x l] eqn:Hu; [discriminate |].
    injection Hhead as ->. inversion Hall as [| ? ? ? ? He1 _]; subst.
    rewrite Hen1, He1. lra. }
  split; [exact Hrange |].
  eapply shifted_sorted; [exact Hall | apply np_unique_sorted].
Qed.

(** ** The rearranged mesh *)

(** The three ways through the wrap-around step, for edges that have been
    shifted next to the left edge of the map. *)
Lemma wrap_around_cases (bm : sky_map) (first : nat) (e1 : Q) (t1 : list Q) (en1 : Q)
    (rows : list (list (Q * bool))) :
  StronglySorted Qle (e1 :: t1) →
  last (e1 :: t1) = Some en1 →
  (en1 == e1 + 360)%Q →
  (lonmin bm - 360 < e1 <= lonmin bm)%Q →
  first_at_least (lonmin bm) (e1 :: t1) = Some first →
  (first < length (e1 :: t1))%nat ∧
  (∀ j x, (j < first)%nat → (e1 :: t1) !! j = Some x → (e1 <= x ∧ x < lonmin bm)%Q) ∧
  ((first = 0%nat ∧ (e1 == lonmin bm)%Q ∧
    wrap_around bm first (e1 :: t1) rows = Plotted (e1 :: t1, rows)) ∨
   ((0 < first)%nat ∧
    (∃ e, (e1 :: t1) !! first = Some e ∧ (lonmin bm < e)%Q) ∧
    wrap_around bm first (e1 :: t1) rows
    = Plotted (([lonmin bm] ++ drop first (e1 :: t1)
                  ++ ((λ x, x + 360)%Q <$> take first (e1 :: t1)) ++ [lonmax bm])%list,
               (λ row, (take 1 (drop first row) ++ drop first row
                          ++ take first row ++ take 1 (drop first row))%list) <$> rows)) ∨
   ((0 < first)%nat ∧ (S first < length (e1 :: t1))%nat ∧
    (∃ e, (e1 :: t1) !! first = Some e ∧ (e == lonmin bm)%Q) ∧
    wrap_around bm first (e1 :: t1) rows
    = Plotted ((drop first (e1 :: t1)
                  ++ ((λ x, x + 360)%Q <$> take (S first) (e1 :: t1)))%list,
               (λ row, (drop first row ++ take (S first) row)%list) <$> rows))).
Proof.
  intros Hs Hlast Hen [Hlo Hhi] Hfirst.
  destruct (first_at_least_spec _ _ _ Hfirst) as [(e & He & Hle) Hbefore].
  assert (first < length (e1 :: t1))%nat as Hlt
    by (apply lookup_lt_is_Some; eauto).
  split; [exact Hlt |]. split.
  { intros j x Hj Hx. split; [| eapply Hbefore; eauto].
    eapply sorted_head_le; [exact Hs |]. eapply list_elem_of_lookup_2. exact Hx. }
  unfold wrap_around. destruct first as [| f].
  - left. simpl in He. injection He as <-. split; [reflexivity |].
    split; [lra | reflexivity].
  - right. change (0 <? S f)%nat with true. cbv iota. rewrite He.
    destruct (Qltb (lonmin bm) e) eqn:E.
    + left. apply Qltb_true in E. split; [lia |]. split; [eauto |]. reflexivity.
    + right. assert (e == lonmin bm)%Q as Heq.
      { unfold Qltb in E. apply negb_false_iff, Qle_bool_iff in E. lra. }
      split; [lia |]. split; [| split; [eauto | reflexivity]].
      destruct (decide (S (S f) < length (e1 :: t1))%nat) as [? | Hge]; [assumption |].
      exfalso. rewrite last_lookup in Hlast.
      replace (pred (length (e1 :: t1))) with (S f) in Hlast by lia.
      rewrite He in Hlast. injection Hlast as <-. lra.
Qed.

(** Everything [plot_grid_map] has checked and computed when it draws. *)
Lemma plot_grid_map_Plotted_inv pf init_sky data ra dec cmap colorbar label basemap
    (h h1 : heap) p :
  plot_grid_map pf init_sky data ra dec cmap colorbar label basemap h = (h1, Plotted p) →
  ∃ d n_dec n_ra vals rm bits e1 t1 en1 first,
    prepare_data pf data None None None h = (h1, Ret d) ∧
    h1 !! d = Some (MaskedArray [n_dec; n_ra] vals rm) ∧
    ma_mask h1 d = Some bits ∧
    plot_basemap p = default init_sky basemap ∧
    plot_dec p = np_unique dec ∧
    length (np_unique dec) = S n_dec ∧
    length (np_unique ra) = S n_ra ∧
    length (e1 :: t1) = S n_ra ∧
    (lonmin (plot_basemap p) + 360 == lonmax (plot_basemap p))%Q ∧
    shift_edges (lonmin (plot_basemap p)) (np_unique ra) = Some (e1 :: t1) ∧
    StronglySorted Qle (e1 :: t1) ∧
    last (e1 :: t1) = Some en1 ∧
    (en1 == e1 + 360)%Q ∧
    (lonmin (plot_basemap p) - 360 < e1 <= lonmin (plot_basemap p))%Q ∧
    first_at_least (lonmin (plot_basemap p)) (e1 :: t1) = Some first ∧
    wrap_around (plot_basemap p) first (e1 :: t1) (rows_of n_dec n_ra (zip vals bits))
    = Plotted (plot_ra p, plot_data p).
Proof.
  intros H.
  apply plot_grid_map_inv in H as (d & sh & vals & rm & bits & Hprep & Hd & Hk & Hg).
  apply grid_map_of_inv in Hg
    as (n_dec & n_ra & e0 & en & r & first & -> & Hra & Hdec & Hhead & Hlast & Hspan & Hsky
        & Hshift & Hfirst & Hwrap & Hpdec & Hbm & _).
  rewrite <- Hbm in *.
  destruct (shifted_edges_facts _ _ _ _ _ Hhead Hlast Hspan Hshift)
    as (e1 & t1 & en1 & -> & Hlen & Hlast1 & Hen1 & Hrange & Hsorted).
  exists d, n_dec, n_ra, vals, rm, bits, e1, t1, en1, first.
  split; [exact Hprep |]. split; [exact Hd |]. split; [exact Hk |].
  split; [reflexivity |]. split; [exact Hpdec |].
  split; [lia |]. split; [lia |]. split; [lia |].
  split; [exact Hsky |]. split; [exact Hshift |]. split; [exact Hsorted |].
  split; [exact Hlast1 |]. split; [exact Hen1 |]. split; [exact Hrange |].
  split; [exact Hfirst | exact Hwrap].
Qed.

(** ** Order and extent of the mesh *)

Lemma drop_sorted (l : list Q) (n : nat) :
  StronglySorted Qle l → StronglySorted Qle (drop n l).
Proof.
  intros Hs. rewrite <- (take_drop n l) in Hs. eapply StronglySorted_app_1_r. exact Hs.
Qed.

Lemma take_sorted (l : list Q) (n : nat) :
  StronglySorted Qle l → StronglySorted Qle (take n l).
Proof.
  intros Hs. rewrite <- (take_drop n l) in Hs. eapply StronglySorted_app_1_l. exact Hs.
Qed.

Lemma elem_of_dropped (l : list Q) (n : nat) (x : Q) :
  x ∈ drop n l → ∃ i, l !! (n + i)%nat = Some x.
Proof.
  intros Hx. apply list_elem_of_lookup in Hx as [i Hi]. rewrite lookup_drop in Hi. eauto.
Qed.

(** The values of [hstack((ra_edges[first:], ra_edges[:n] + 360))] lie between
    [ra_edges[first]] and the left edge plus one turn. *)
Lemma wrapped_bounds (r : list Q) (first n : nat) (e e1 en1 lo x : Q) :
  StronglySorted Qle r →
  r !! first = Some e →
  last r = Some en1 →
  (en1 == e1 + 360)%Q →
  (∀ j y, (j < n)%nat → r !! j = Some y → (e1 <= y <= lo)%Q) →
  (e1 <= lo)%Q →
  x ∈ (drop first r ++ ((λ x, x + 360)%Q <$> take n r))%list →
  (e <= x <= lo + 360)%Q.
Proof.
  intros Hs He Hlast Hen Hbefore Hlo Hx.
  apply elem_of_app in Hx as [Hx | Hx].
  - apply elem_of_dropped in Hx as [i Hi].
    assert (e <= x)%Q by (eapply (sorted_lookup_le r first (first + i)); eauto; lia).
    assert (x <= en1)%Q
      by (eapply sorted_le_last; eauto; eapply list_elem_of_lookup_2; exact Hi).
    lra.
  - apply list_elem_of_fmap in Hx as (y & -> & Hy).
    apply elem_of_take in Hy as (j & Hj & Hlt).
    destruct (Hbefore j y Hlt Hj).
    assert (e <= en1)%Q
      by (eapply sorted_le_last; eauto; eapply list_elem_of_lookup_2; exact He).
    lra.
Qed.

Lemma wrapped_sorted (r : list Q) (first n : nat) (e1 en1 lo : Q) :
  StronglySorted Qle r →
  last r = Some en1 →
  (en1 == e1 + 360)%Q →
  (∀ j y, (j < n)%nat → r !! j = Some y → (e1 <= y <= lo)%Q) →
  StronglySorted Qle (drop first r ++ ((λ x, x + 360)%Q <$> take n r))%list.
Proof.
  intros Hs Hlast Hen Hbefore. apply StronglySorted_app. split_and!.
  - intros x1 x2 Hx1 Hx2.
    apply elem_of_dropped in Hx1 as [i Hi].
    assert (x1 <= en1)%Q
      by (eapply sorted_le_last; eauto; eapply list_elem_of_lookup_2; exact Hi).
    apply list_elem_of_fmap in Hx2 as (y & -> & Hy).
    apply elem_of_take in Hy as (j & Hj & Hlt).
    destruct (Hbefore j y Hlt Hj). lra.
  - apply drop_sorted, Hs.
  - eapply StronglySorted_fmap; [| apply take_sorted, Hs].
    intros x y Hxy. simpl. lra.
Qed.

Lemma head_drop {A} (l : list A) (n : nat) : head (drop n l) = l !! n.
Proof. rewrite head_lookup, lookup_drop. f_equal. lia. Qed.

Lemma last_take_S {A} (l : list A) (n : nat) (x : A) :
  l !! n = Some x → last (take (S n) l) = Some x.
Proof.
  intros Hx. assert (n < length l)%nat as Hlt by (apply lookup_lt_is_Some; eauto).
  rewrite last_lookup, length_take, lookup_take_lt by lia.
  replace (pred (S n `min` length l)) with n by lia. exact Hx.
Qed.

Lemma take_one_drop {A} (l : list A) (n : nat) (x : A) :
  l !! n = Some x → take 1 (drop n l) = [x].
Proof. intros Hx. rewrite (drop_S _ _ _ Hx). reflexivity. Qed.

(** X11.  Once [prepare_data] has returned a two-dimensional array and the
    four checks on the edges and on the map have passed, [plot_grid_map]
    reaches its call of [pcolormesh]: the two loops finish, a first gridline
    inside the map exists and the rearrangement of edges and columns is
    defined.  The map of that call is the one it was given, or the one
    [init_sky] creates.  What [pcolormesh] does with the arrays is not part
    of the statement. *)
Theorem validated_grid_reaches_pcolormesh
    (py_float : string → option Q) (init_sky : sky_map) (data : loc)
    (ra_edges dec_edges : list Q) (cmap : string) (colorbar : bool)
    (label : option string) (basemap : option sky_map)
    (h h1 : heap) (d : loc) (n_dec n_ra : nat) (vals : list Q) (rm : option loc) (e0 en : Q) :
  wf_heap h →
  prepare_data py_float data None None None h = (h1, Ret d) →
  h1 !! d = Some (MaskedArray [n_dec; n_ra] vals rm) →
  length (np_unique ra_edges) = S n_ra →
  length (np_unique dec_edges) = S n_dec →
  head (np_unique ra_edges) = Some e0 →
  last (np_unique ra_edges) = Some en →
  (e0 == en - 360)%Q →
  (lonmin (default init_sky basemap) + 360 == lonmax (default init_sky basemap))%Q →
  ∃ p, plot_grid_map py_float init_sky data ra_edges dec_edges cmap colorbar label basemap h
       = (h1, Plotted p) ∧
       plot_basemap p = default init_sky basemap.
Proof.
  intros Hwf Hprep Hd Hra Hdec Hhead Hlast Hspan Hsky.
  destruct (prepared_mask_exists _ _ _ _ _ _ _ _ Hwf Hprep) as (sh & vals' & rm' & bits & Hd' & Hk).
  assert (np_unique ra_edges ≠ []) as Hne
    by (intros Heq; rewrite Heq in Hhead; discriminate).
  destruct (shift_edges_spec (lonmin (default init_sky basemap)) _ Hne)
    as (k & e1 & t1 & Hshift & _ & _).
  destruct (shifted_edges_facts _ _ _ _ _ Hhead Hlast Hspan Hshift)
    as (e1' & t1' & en1 & Heq & _ & Hlast1 & Hen1 & Hrange & Hsorted).
  injection Heq as <- <-.
  destruct (first_at_least_exists (lonmin (default init_sky basemap)) (e1 :: t1) en1)
    as [first Hfirst]; [apply last_Some_elem_of, Hlast1 | lra |].
  destruct (wrap_around_cases (default init_sky basemap) first e1 t1 en1
              (rows_of n_dec n_ra (zip vals bits)) Hsorted Hlast1 Hen1 Hrange Hfirst)
    as (_ & _ & Hcases).
  assert (∃ ra' data', wrap_around (default init_sky basemap) first (e1 :: t1)
                         (rows_of n_dec n_ra (zip vals bits)) = Plotted (ra', data'))
    as (ra' & data' & Hwrap).
  { destruct Hcases as [(_ & _ & Hw) | [(_ & _ & Hw) | (_ & _ & _ & Hw)]]; eauto. }
  unfold plot_grid_map. rewrite Hprep, Hd, Hk. unfold grid_map_of.
  rewrite Hra, Hdec.
  replace (S n_ra =? n_ra + 1)%nat with true by (symmetry; apply Nat.eqb_eq; lia).
  replace (S n_dec =? n_dec + 1)%nat with true by (symmetry; apply Nat.eqb_eq; lia).
  cbn [negb]. rewrite Hhead, Hlast.
  rewrite (proj2 (Qeq_bool_iff _ _) Hspan), (proj2 (Qeq_bool_iff _ _) Hsky).
  cbn [negb]. rewrite Hshift, Hfirst, Hwrap.
  eexists. split; reflexivity.
Qed.

Lemma validated_grid_reaches_pcolormesh_witness :
  ∃ p, plot_grid_map decimal_float sky120 1%positive quarter_edges three_dec_edges
         "viridis" true (Some "counts") None grid2x4
       = ((prepare_data decimal_float 1%positive None None None grid2x4).1, Plotted p) ∧
       plot_basemap p = sky120.
Proof.
  apply (validated_grid_reaches_pcolormesh decimal_float sky120 1%positive quarter_edges three_dec_edges
           "viridis" true (Some "counts") None grid2x4
           (prepare_data decimal_float 1%positive None None None grid2x4).1
           3%positive 2%nat 4%nat [1; 2; 3; 4; 5; 6; 7; 8]%Q (Some 2%positive) (-180) 180).
  - vm_compute. reflexivity.
  - vm_compute. reflexivity.
  - vm_compute. reflexivity.
  - vm_compute. reflexivity.
  - vm_compute. reflexivity.
  - vm_compute. reflexivity.
  - vm_compute. reflexivity.
  - vm_compute. reflexivity.
  - vm_compute. reflexivity.
Defined.

(** Opens a drawn plot into the three ways through the wrap-around step. *)
Ltac open_plot H :=
  let Hwrap := fresh "Hwrap" in
  apply plot_grid_map_Plotted_inv in H
    as (d & n_dec & n_ra & vals & rm & bits & e1 & t1 & en1 & first
        & Hprep & Hd & Hk & Hbm & Hpdec & Hldec & Hlra & Hlr & Hsky & Hshift & Hsorted
        & Hlast1 & Hen1 & Hrange & Hfirst & Hwrap);
  destruct (wrap_around_cases (plot_basemap _) first e1 t1 en1
              (rows_of n_dec n_ra (zip vals bits)) Hsorted Hlast1 Hen1 Hrange Hfirst)
    as (Hlt & Hbefore
        & [(Hzero & He1 & Hw)
          | [(Hpos & (e & He & Hgt) & Hw) | (Hpos & HS & (e & He & Heq) & Hw)]]);
  remember (e1 :: t1) as r eqn:Hr in *;
  rewrite Hwrap in Hw; injection Hw as Hpra Hpdata.

(** X12.  The longitudes of the mesh that is drawn start at the left edge of
    the map and end at its right edge, wherever the edges passed in start. *)
Theorem mesh_spans_the_map
    (py_float : string → option Q) (init_sky : sky_map) (data : loc)
    (ra_edges dec_edges : list Q) (cmap : string) (colorbar : bool)
    (label : option string) (basemap : option sky_map) (h h1 : heap) (p : grid_plot) :
  plot_grid_map py_float init_sky data ra_edges dec_edges cmap colorbar label basemap h
  = (h1, Plotted p) →
  ∃ a b, head (plot_ra p) = Some a ∧ last (plot_ra p) = Some b ∧
         (a == lonmin (plot_basemap p))%Q ∧ (b == lonmax (plot_basemap p))%Q.
Proof.
  intros H. open_plot H.
  - exists e1, en1. rewrite Hpra. split; [rewrite Hr; reflexivity |].
    split; [exact Hlast1 |]. split; lra.
  - exists (lonmin (plot_basemap p)), (lonmax (plot_basemap p)). rewrite Hpra.
    split; [reflexivity |]. split; [| split; reflexivity].
    rewrite last_cons, !last_app. reflexivity.
  - exists e, (e + 360)%Q. rewrite Hpra.
    split; [rewrite head_app, head_drop, He; reflexivity |].
    split; [| split; lra].
    rewrite last_app, fmap_last, (last_take_S _ _ _ He). reflexivity.
Qed.

Lemma mesh_spans_the_map_witness :
  ∃ p a b,
    plot_grid_map decimal_float sky120 1%positive quarter_edges three_dec_edges
      "viridis" true (Some "counts") None grid2x4
    = ((prepare_data decimal_float 1%positive None None None grid2x4).1, Plotted p) ∧
    head (plot_ra p) = Some a ∧ last (plot_ra p) = Some b ∧
    (a == lonmin (plot_basemap p))%Q ∧ (b == lonmax (plot_basemap p))%Q.
Proof.
  eexists.
  assert (plot_grid_map decimal_float sky120 1%positive quarter_edges three_dec_edges
            "viridis" true (Some "counts") None grid2x4
          = ((prepare_data decimal_float 1%positive None None None grid2x4).1, Plotted _))
    as Hplot by (vm_compute; reflexivity).
  destruct (mesh_spans_the_map _ _ _ _ _ _ _ _ _ _ _ _ Hplot) as (a & b & Hspan).
  exists a, b. split; [exact Hplot | exact Hspan].
Defined.

(** X13.  The mesh that is drawn has its longitudes and its declinations in
    increasing order, also after the columns beyond the left edge of the map
    have been moved to the right. *)
Theorem mesh_edges_are_sorted
    (py_float : string → option Q) (init_sky : sky_map) (data : loc)
    (ra_edges dec_edges : list Q) (cmap : string) (colorbar : bool)
    (label : option string) (basemap : option sky_map) (h h1 : heap) (p : grid_plot) :
  plot_grid_map py_float init_sky data ra_edges dec_edges cmap colorbar label basemap h
  = (h1, Plotted p) →
  StronglySorted Qle (plot_ra p) ∧ StronglySorted Qle (plot_dec p).
Proof.
  intros H. open_plot H; (split; [| rewrite Hpdec; apply np_unique_sorted]); rewrite Hpra.
  - exact Hsorted.
  - assert (∀ j y, (j < first)%nat → r !! j = Some y →
                   (e1 <= y <= lonmin (plot_basemap p))%Q) as Hb.
    { intros j y Hj Hy. destruct (Hbefore j y Hj Hy). split; lra. }
    rewrite (assoc_L (++)).
    assert (∀ x, x ∈ (drop first r ++ ((λ x, x + 360)%Q <$> take first r))%list →
                 (e <= x <= lonmin (plot_basemap p) + 360)%Q) as Hin.
    { intros x Hx. eapply wrapped_bounds; eauto. lra. }
    apply StronglySorted_cons. split.
    + apply Forall_forall. intros x Hx. apply elem_of_app in Hx as [Hx | Hx].
      * destruct (Hin x Hx). lra.
      * apply list_elem_of_singleton in Hx as ->. lra.
    + apply StronglySorted_app. split_and!.
      * intros x1 x2 Hx1 Hx2. apply list_elem_of_singleton in Hx2 as ->.
        destruct (Hin x1 Hx1). lra.
      * eapply wrapped_sorted; eauto.
      * repeat constructor.
  - eapply (wrapped_sorted _ _ _ e1 en1 (lonmin (plot_basemap p))); eauto.
    intros j y Hj Hy.
    destruct (decide (j = first)) as [-> | Hne].
    + rewrite He in Hy. injection Hy as <-. split; [| lra].
      rewrite Hr in Hsorted, He.
      eapply sorted_head_le; [exact Hsorted |]. eapply list_elem_of_lookup_2. exact He.
    + destruct (Hbefore j y) as [? ?]; [lia | exact Hy |]. split; lra.
Qed.

Lemma mesh_edges_are_sorted_witness :
  ∃ p,
    plot_grid_map decimal_float sky120 1%positive quarter_edges three_dec_edges
      "viridis" true (Some "counts") None grid2x4
    = ((prepare_data decimal_float 1%positive None None None grid2x4).1, Plotted p) ∧
    StronglySorted Qle (plot_ra p) ∧ StronglySorted Qle (plot_dec p).
Proof.
  eexists.
  assert (plot_grid_map decimal_float sky120 1%positive quarter_edges three_dec_edges
            "viridis" true (Some "counts") None grid2x4
          = ((prepare_data decimal_float 1%positive None None None grid2x4).1, Plotted _))
    as Hplot by (vm_compute; reflexivity).
  split; [exact Hplot |].
  exact (mesh_edges_are_sorted _ _ _ _ _ _ _ _ _ _ _ _ Hplot).
Defined.

(** ** Shape of the mesh *)

Lemma grid_rows pf data mask clo chi (h h1 : heap) d n_dec n_ra vals rm bits :
  wf_heap h →
  prepare_data pf data mask clo chi h = (h1, Ret d) →
  h1 !! d = Some (MaskedArray [n_dec; n_ra] vals rm) →
  ma_mask h1 d = Some bits →
  length (rows_of n_dec n_ra (zip vals bits)) = n_dec ∧
  Forall (λ row, length row = n_ra) (rows_of n_dec n_ra (zip vals bits)).
Proof.
  intros Hwf Hprep Hd Hk.
  destruct (prepared_lengths _ _ _ _ _ _ _ _ _ _ _ _ Hwf Hprep Hd Hk) as [Hv Hb].
  simpl in Hv, Hb. rewrite Nat.mul_1_r in Hv, Hb.
  apply rows_of_lengths. rewrite length_zip_with. lia.
Qed.

(** X14.  When the first gridline inside the map is not the last edge, the
    mesh that is drawn is consistent: every row of cells has one cell less
    than there are longitudes, and there is one row less than there are
    declinations. *)
Theorem mesh_matches_its_edges
    (py_float : string → option Q) (init_sky : sky_map) (data : loc)
    (ra_edges dec_edges : list Q) (cmap : string) (colorbar : bool)
    (label : option string) (basemap : option sky_map) (h h1 : heap) (p : grid_plot)
    (edges : list Q) (k : nat) :
  wf_heap h →
  plot_grid_map py_float init_sky data ra_edges dec_edges cmap colorbar label basemap h
  = (h1, Plotted p) →
  shift_edges (lonmin (plot_basemap p)) (np_unique ra_edges) = Some edges →
  first_at_least (lonmin (plot_basemap p)) edges = Some k →
  (S k < length edges)%nat →
  ∃ cols,
    length (plot_ra p) = S cols ∧
    Forall (λ row, length row = cols) (plot_data p) ∧
    length (plot_dec p) = S (length (plot_data p)).
Proof.
  intros Hwf H Hedges Hk' Hlast.
  open_plot H;
    rewrite Hshift in Hedges; injection Hedges as <-;
    rewrite Hfirst in Hk'; injection Hk' as <-;
    destruct (grid_rows _ _ _ _ _ _ _ _ _ _ _ _ _ Hwf Hprep Hd Hk) as [Hn Hrows];
    rewrite Hpra, Hpdata, Hpdec, Hldec.
  - exists n_ra. split; [exact Hlr |]. split; [exact Hrows | congruence].
  - exists (S (S n_ra)). split_and!.
    + simpl. rewrite !length_app, length_fmap, length_take, length_drop. simpl. lia.
    + apply Forall_fmap. eapply Forall_impl; [exact Hrows |].
      intros row Hrow. unfold compose. cbv beta in Hrow.
      rewrite !length_app, !length_take, !length_drop. lia.
    + rewrite length_fmap. congruence.
  - exists (S n_ra). split_and!.
    + rewrite !length_app, length_fmap, length_take, length_drop. lia.
    + apply Forall_fmap. eapply Forall_impl; [exact Hrows |].
      intros row Hrow. unfold compose. cbv beta in Hrow.
      rewrite !length_app, !length_take, !length_drop. lia.
    + rewrite length_fmap. congruence.
Qed.

Lemma mesh_matches_its_edges_witness :
  ∃ p cols,
    plot_grid_map decimal_float sky120 1%positive quarter_edges three_dec_edges
      "viridis" true (Some "counts") None grid2x4
    = ((prepare_data decimal_float 1%positive None None None grid2x4).1, Plotted p) ∧
    length (plot_ra p) = S cols ∧
    Forall (λ row, length row = cols) (plot_data p) ∧
    length (plot_dec p) = S (length (plot_data p)).
Proof.
  eexists.
  assert (plot_grid_map decimal_float sky120 1%positive quarter_edges three_dec_edges
            "viridis" true (Some "counts") None grid2x4
          = ((prepare_data decimal_float 1%positive None None None grid2x4).1, Plotted _))
    as Hplot by (vm_compute; reflexivity).
  destruct (mesh_matches_its_edges decimal_float sky120 1%positive quarter_edges
              three_dec_edges "viridis" true (Some "counts") None grid2x4 _ _
              quarter_edges 2%nat
              ltac:(vm_compute; reflexivity) Hplot
              ltac:(vm_compute; reflexivity) ltac:(vm_compute; reflexivity)
              ltac:(simpl; lia))
    as (cols & Hcols).
  exists cols. split; [exact Hplot | exact Hcols].
Defined.

(** X15.  When the first gridline inside the map is the last edge, so that
    the left edge of the map lies in the last column of the grid, the arrays
    handed to [pcolormesh] do not fit: the rows keep their [n_ra] cells
    while the mesh has [n_ra + 3] longitudes. *)
Theorem gridline_at_last_edge
    (py_float : string → option Q) (init_sky : sky_map) (data : loc)
    (ra_edges dec_edges : list Q) (cmap : string) (colorbar : bool)
    (label : option string) (basemap : option sky_map) (h h1 : heap) (p : grid_plot)
    (edges : list Q) (k : nat) :
  wf_heap h →
  plot_grid_map py_float init_sky data ra_edges dec_edges cmap colorbar label basemap h
  = (h1, Plotted p) →
  shift_edges (lonmin (plot_basemap p)) (np_unique ra_edges) = Some edges →
  first_at_least (lonmin (plot_basemap p)) edges = Some k →
  S k = length edges →
  length (plot_ra p) = (k + 3)%nat ∧
  Forall (λ row, length row = k) (plot_data p) ∧
  length (plot_dec p) = S (length (plot_data p)).
Proof.
  intros Hwf H Hedges Hk' Hlast.
  open_plot H;
    rewrite Hshift in Hedges; injection Hedges as <-;
    rewrite Hfirst in Hk'; injection Hk' as <-;
    destruct (grid_rows _ _ _ _ _ _ _ _ _ _ _ _ _ Hwf Hprep Hd Hk) as [Hn Hrows];
    rewrite Hpra, Hpdata, Hpdec, Hldec.
  - exfalso. rewrite Hr in Hlast, Hlast1. subst first.
    destruct t1; [| discriminate]. simpl in Hlast1. injection Hlast1 as <-. lra.
  - split_and!.
    + simpl. rewrite !length_app, length_fmap, length_take, length_drop. simpl. lia.
    + apply Forall_fmap. eapply Forall_impl; [exact Hrows |].
      intros row Hrow. unfold compose. cbv beta in Hrow.
      rewrite !length_app, !length_take, !length_drop. lia.
    + rewrite length_fmap. congruence.
  - lia.
Qed.

Lemma gridline_at_last_edge_witness :
  ∃ p,
    plot_grid_map decimal_float sky120 1%positive quarter_edges three_dec_edges
      "viridis" true None (Some sky280) grid2x4
    = ((prepare_data decimal_float 1%positive None None None grid2x4).1, Plotted p) ∧
    length (plot_ra p) = 7%nat ∧
    Forall (λ row, length row = 4%nat) (plot_data p) ∧
    length (plot_dec p) = S (length (plot_data p)).
Proof.
  eexists.
  assert (plot_grid_map decimal_float sky120 1%positive quarter_edges three_dec_edges
            "viridis" true None (Some sky280) grid2x4
          = ((prepare_data decimal_float 1%positive None None None grid2x4).1, Plotted _))
    as Hplot by (vm_compute; reflexivity).
  split; [exact Hplot |].
  exact (gridline_at_last_edge decimal_float sky120 1%positive quarter_edges
           three_dec_edges "viridis" true None (Some sky280) grid2x4 _ _
           quarter_edges 4%nat
           ltac:(vm_compute; reflexivity) Hplot
           ltac:(vm_compute; reflexivity) ltac:(vm_compute; reflexivity)
           ltac:(reflexivity)).
Defined.

(** ** Which cells end up where *)

Lemma rows_of_lookup {A} (n_rows n_cols : nat) (l : list A) (i j : nat) (row : list A) :
  rows_of n_rows n_cols l !! i = Some row → (j < n_cols)%nat →
  row !! j = l !! (i * n_cols + j)%nat.
Proof.
  revert l i. induction n_rows as [| n IH]; intros l i Hrow Hj; [discriminate |].
  destruct i as [| i]; simpl in Hrow.
  - injection Hrow as <-. rewrite lookup_take_lt by lia. reflexivity.
  - rewrite (IH _ _ Hrow Hj), lookup_drop. f_equal. lia.
Qed.

Lemma last_drop {A} (l : list A) (n : nat) :
  (n < length l)%nat → last (drop n l) = last l.
Proof.
  intros Hn. rewrite !last_lookup, length_drop, lookup_drop. f_equal. lia.
Qed.

Lemma junction {A} (l1 l2 : list A) (a b : A) :
  last l1 = Some a → head l2 = Some b →
  (l1 ++ l2)%list !! pred (length l1) = Some a ∧
  (l1 ++ l2)%list !! S (pred (length l1)) = Some b.
Proof.
  intros Ha Hb.
  assert (0 < length l1)%nat as Hpos by (destruct l1; [discriminate | simpl; lia]).
  split.
  - rewrite lookup_app_l by lia. rewrite <- last_lookup. exact Ha.
  - rewrite lookup_app_r by lia.
    replace (S (pred (length l1)) - length l1)%nat with 0%nat by lia.
    rewrite <- head_lookup. exact Hb.
Qed.

(** X16.  When columns are moved from the left of the map to its right, each
    row that is drawn starts and ends with the same cell of the data: the one
    in the column of the first gridline inside the map. *)
Theorem wrapped_rows_start_and_end_alike
    (py_float : string → option Q) (init_sky : sky_map) (data : loc)
    (ra_edges dec_edges : list Q) (cmap : string) (colorbar : bool)
    (label : option string) (basemap : option sky_map) (h h1 : heap) (p : grid_plot)
    (out : loc) (n_rows n_cols : nat) (values : list Q) (mref : option loc)
    (mbits : list bool) (edges : list Q) (k i : nat) (drawn : list (Q * bool)) :
  wf_heap h →
  plot_grid_map py_float init_sky data ra_edges dec_edges cmap colorbar label basemap h
  = (h1, Plotted p) →
  prepare_data py_float data None None None h = (h1, Ret out) →
  h1 !! out = Some (MaskedArray [n_rows; n_cols] values mref) →
  ma_mask h1 out = Some mbits →
  shift_edges (lonmin (plot_basemap p)) (np_unique ra_edges) = Some edges →
  first_at_least (lonmin (plot_basemap p)) edges = Some k →
  (0 < k)%nat →
  (S k < length edges)%nat →
  plot_data p !! i = Some drawn →
  ∃ c, zip values mbits !! (i * n_cols + k)%nat = Some c ∧
       head drawn = Some c ∧ last drawn = Some c.
Proof.
  intros Hwf H Hout Hobj Hmask Hedges Hk' Hkpos Hklast Hdrawn.
  open_plot H;
    rewrite Hshift in Hedges; injection Hedges as <-;
    rewrite Hfirst in Hk'; injection Hk' as <-;
    rewrite Hout in Hprep; injection Hprep as <-;
    rewrite Hobj in Hd; injection Hd as <- <- <- <-;
    rewrite Hmask in Hk; injection Hk as <-;
    destruct (grid_rows _ _ _ _ _ _ _ _ _ _ _ _ _ Hwf Hout Hobj Hmask) as [Hn Hrows];
    [lia | |];
    rewrite Hpdata, list_lookup_fmap in Hdrawn;
    destruct (rows_of n_rows n_cols (zip values mbits) !! i) as [row |] eqn:Hrow;
    try discriminate; injection Hdrawn as <-;
    pose proof (proj1 (Forall_lookup _ _) Hrows i row Hrow) as Hlen; cbv beta in Hlen;
    (destruct (row !! first) as [c |] eqn:Hc;
     [| apply lookup_ge_None in Hc; lia]);
    exists c;
    (split; [rewrite <- (rows_of_lookup _ _ _ _ first _ Hrow) by lia; exact Hc |]).
  - rewrite (take_one_drop _ _ _ Hc). split; [reflexivity |].
    rewrite !last_app. reflexivity.
  - split; [rewrite head_app, head_drop, Hc; reflexivity |].
    rewrite last_app, (last_take_S _ _ _ Hc). reflexivity.
Qed.

Lemma wrapped_rows_start_and_end_alike_witness :
  ∃ p c,
    plot_grid_map decimal_float sky120 1%positive quarter_edges three_dec_edges
      "viridis" true (Some "counts") None grid2x4
    = ((prepare_data decimal_float 1%positive None None None grid2x4).1, Plotted p) ∧
    zip [1; 2; 3; 4; 5; 6; 7; 8]%Q (replicate 8 false) !! (1 * 4 + 2)%nat = Some c ∧
    head [(7%Q, false); (7%Q, false); (8%Q, false); (5%Q, false); (6%Q, false); (7%Q, false)]
    = Some c ∧
    last [(7%Q, false); (7%Q, false); (8%Q, false); (5%Q, false); (6%Q, false); (7%Q, false)]
    = Some c.
Proof.
  eexists.
  assert (plot_grid_map decimal_float sky120 1%positive quarter_edges three_dec_edges
            "viridis" true (Some "counts") None grid2x4
          = ((prepare_data decimal_float 1%positive None None None grid2x4).1, Plotted _))
    as Hplot by (vm_compute; reflexivity).
  destruct (wrapped_rows_start_and_end_alike decimal_float sky120 1%positive quarter_edges
              three_dec_edges "viridis" true (Some "counts") None grid2x4 _ _
              3%positive 2%nat 4%nat [1; 2; 3; 4; 5; 6; 7; 8]%Q (Some 2%positive)
              (replicate 8 false) quarter_edges 2%nat 1%nat
              [(7%Q, false); (7%Q, false); (8%Q, false); (5%Q, false); (6%Q, false);
               (7%Q, false)]
              ltac:(vm_compute; reflexivity) Hplot
              ltac:(vm_compute; reflexivity) ltac:(vm_compute; reflexivity)
              ltac:(vm_compute; reflexivity) ltac:(vm_compute; reflexivity)
              ltac:(vm_compute; reflexivity) ltac:(lia) ltac:(simpl; lia)
              ltac:(reflexivity))
    as (c & Hc).
  exists c. split; [exact Hplot | exact Hc].
Defined.

(** X17.  When columns are moved from the left of the map to its right, the
    longitudes of the mesh hold the same value twice in a row, the last edge
    and the first edge one turn on: one column of the mesh has no width. *)
Theorem wrapped_mesh_repeats_an_edge
    (py_float : string → option Q) (init_sky : sky_map) (data : loc)
    (ra_edges dec_edges : list Q) (cmap : string) (colorbar : bool)
    (label : option string) (basemap : option sky_map) (h h1 : heap) (p : grid_plot)
    (edges : list Q) (k : nat) :
  plot_grid_map py_float init_sky data ra_edges dec_edges cmap colorbar label basemap h
  = (h1, Plotted p) →
  shift_edges (lonmin (plot_basemap p)) (np_unique ra_edges) = Some edges →
  first_at_least (lonmin (plot_basemap p)) edges = Some k →
  (0 < k)%nat →
  ∃ i a b, plot_ra p !! i = Some a ∧ plot_ra p !! S i = Some b ∧ (a == b)%Q.
Proof.
  intros H Hedges Hk' Hkpos.
  open_plot H;
    rewrite Hshift in Hedges; injection Hedges as <-;
    rewrite Hfirst in Hk'; injection Hk' as <-; [lia | |].
  - destruct (junction (drop first r)
                (((λ x, x + 360)%Q <$> take first r) ++ [lonmax (plot_basemap p)])%list
                en1 (e1 + 360)%Q) as [Ha Hb].
    + rewrite last_drop by exact Hlt. exact Hlast1.
    + rewrite Hr. destruct first; [lia | reflexivity].
    + exists (S (pred (length (drop first r)))), en1, (e1 + 360)%Q.
      rewrite Hpra. split; [exact Ha |]. split; [exact Hb | exact Hen1].
  - destruct (junction (drop first r) ((λ x, x + 360)%Q <$> take (S first) r)
                en1 (e1 + 360)%Q) as [Ha Hb].
    + rewrite last_drop by exact Hlt. exact Hlast1.
    + rewrite Hr. reflexivity.
    + exists (pred (length (drop first r))), en1, (e1 + 360)%Q.
      rewrite Hpra. split; [exact Ha |]. split; [exact Hb | exact Hen1].
Qed.

Lemma wrapped_mesh_repeats_an_edge_witness :
  ∃ p i a b,
    plot_grid_map decimal_float sky120 1%positive quarter_edges three_dec_edges
      "viridis" true (Some "counts") None grid2x4
    = ((prepare_data decimal_float 1%positive None None None grid2x4).1, Plotted p) ∧
    plot_ra p !! i = Some a ∧ plot_ra p !! S i = Some b ∧ (a == b)%Q.
Proof.
  eexists.
  assert (plot_grid_map decimal_float sky120 1%positive quarter_edges three_dec_edges
            "viridis" true (Some "counts") None grid2x4
          = ((prepare_data decimal_float 1%positive None None None grid2x4).1, Plotted _))
    as Hplot by (vm_compute; reflexivity).
  destruct (wrapped_mesh_repeats_an_edge decimal_float sky120 1%positive quarter_edges
              three_dec_edges "viridis" true (Some "counts") None grid2x4 _ _
              quarter_edges 2%nat Hplot
              ltac:(vm_compute; reflexivity) ltac:(vm_compute; reflexivity) ltac:(lia))
    as (i & a & b & Hrep).
  exists i, a, b. split; [exact Hplot | exact Hrep].
Defined.

(** * plot_sky_binned *)

(** ** Right ascensions brought into range *)

Lemma np_fmod_turns (x : Q) : (np_fmod x 360 == x + 360 * inject_Z (- Qtrunc (x / 360)))%Q.
Proof. unfold np_fmod. rewrite inject_Z_opp. lra. Qed.

Lemma np_fmod_nonneg (x : Q) : (0 <= x)%Q → (0 <= np_fmod x 360 < 360)%Q.
Proof.
  intros Hx. unfold np_fmod, Qtrunc.
  assert (x == 360 * (x / 360))%Q as Hq by field.
  pose proof (Qfloor_le (x / 360)) as Hlo.
  pose proof (Qlt_floor (x / 360)) as Hhi.
  rewrite inject_Z_plus in Hhi. change (inject_Z 1) with 1%Q in Hhi.
  destruct (Qle_bool 0 (x / 360)) eqn:E.
  - lra.
  - apply Qle_bool_false in E. lra.
Qed.

Lemma np_fmod_neg (x : Q) : (x < 0)%Q → (-360 < np_fmod x 360 <= 0)%Q.
Proof.
  intros Hx. unfold np_fmod, Qtrunc.
  assert (x == 360 * (x / 360))%Q as Hq by field.
  pose proof (Qle_ceiling (x / 360)) as Hhi.
  pose proof (Qceiling_lt (x / 360)) as Hlo.
  unfold Z.sub in Hlo. rewrite inject_Z_plus in Hlo.
  change (inject_Z (- (1))) with (-1 # 1)%Q in Hlo.
  destruct (Qle_bool 0 (x / 360)) eqn:E.
  - apply Qle_bool_iff in E. lra.
  - lra.
Qed.

Lemma np_fmod_small_neg (x : Q) : (-360 < x < 0)%Q → (np_fmod x 360 == x)%Q.
Proof.
  intros [Hlo Hhi]. unfold np_fmod, Qtrunc.
  assert (x == 360 * (x / 360))%Q as Hq by field.
  pose proof (Qle_ceiling (x / 360)) as Hc1.
  pose proof (Qceiling_lt (x / 360)) as Hc2.
  unfold Z.sub in Hc2. rewrite inject_Z_plus in Hc2.
  change (inject_Z (- (1))) with (-1 # 1)%Q in Hc2.
  destruct (Qle_bool 0 (x / 360)) eqn:E.
  - apply Qle_bool_iff in E. lra.
  - assert (Qceiling (x / 360) < 1)%Z as H1
      by (rewrite Zlt_Qlt; change (inject_Z 1) with 1%Q; lra).
    assert (-1 < Qceiling (x / 360))%Z as H2
      by (rewrite Zlt_Qlt; change (inject_Z (-1)) with (-1 # 1)%Q; lra).
    replace (Qceiling (x / 360)) with 0%Z by lia.
    change (inject_Z 0) with 0%Q. lra.
Qed.

Lemma wrap_ra_lookup (ra : list Q) (i : nat) (x : Q) :
  ra !! i = Some x →
  wrap_ra ra !! i
  = Some (if Qle_bool 180 (np_fmod x 360) then np_fmod x 360 - 360 else np_fmod x 360)%Q.
Proof. intros Hx. unfold wrap_ra. rewrite !list_lookup_fmap, Hx. reflexivity. Qed.

(** X18.  [plot_sky_binned] moves every right ascension that is not
    negative by whole turns into [[-180, 180)]. *)
Theorem wrap_ra_of_nonnegative (ra : list Q) (i : nat) (x : Q) :
  ra !! i = Some x →
  (0 <= x)%Q →
  ∃ y k, wrap_ra ra !! i = Some y ∧
         (y == x + 360 * inject_Z k)%Q ∧ (-180 <= y < 180)%Q.
Proof.
  intros Hx Hpos. rewrite (wrap_ra_lookup _ _ _ Hx).
  pose proof (np_fmod_nonneg x Hpos) as Hr.
  pose proof (np_fmod_turns x) as Ht.
  destruct (Qle_bool 180 (np_fmod x 360)) eqn:E.
  - apply Qle_bool_iff in E.
    exists (np_fmod x 360 - 360)%Q, (- Qtrunc (x / 360) - 1)%Z.
    split; [reflexivity |]. split; [| lra].
    unfold Z.sub. rewrite inject_Z_plus.
    change (inject_Z (- (1))) with (-1 # 1)%Q. lra.
  - apply Qle_bool_false in E.
    exists (np_fmod x 360), (- Qtrunc (x / 360))%Z.
    split; [reflexivity |]. split; [exact Ht | lra].
Qed.

Lemma wrap_ra_of_nonnegative_witness :
  ∃ y k, wrap_ra [10; 190; 370]%Q !! 1%nat = Some y ∧
         (y == 190 + 360 * inject_Z k)%Q ∧ (-180 <= y < 180)%Q.
Proof.
  apply (wrap_ra_of_nonnegative [10; 190; 370]%Q 1%nat 190%Q).
  - reflexivity.
  - vm_compute. discriminate.
Defined.

(** X19.  A negative right ascension is never raised by [plot_sky_binned]:
    it ends in [(-360, 0]], and one between -360 and 0 is left as it is, so
    that a value between -360 and -180 is still below -180 afterwards. *)
Theorem wrap_ra_of_negative (ra : list Q) (i : nat) (x : Q) :
  ra !! i = Some x →
  (x < 0)%Q →
  ∃ y k, wrap_ra ra !! i = Some y ∧
         (y == x + 360 * inject_Z k)%Q ∧ (-360 < y <= 0)%Q ∧
         ((-360 < x)%Q → (y == x)%Q).
Proof.
  intros Hx Hneg. rewrite (wrap_ra_lookup _ _ _ Hx).
  pose proof (np_fmod_neg x Hneg) as Hr.
  pose proof (np_fmod_turns x) as Ht.
  destruct (Qle_bool 180 (np_fmod x 360)) eqn:E.
  - apply Qle_bool_iff in E. lra.
  - exists (np_fmod x 360), (- Qtrunc (x / 360))%Z.
    split; [reflexivity |]. split; [exact Ht |]. split; [exact Hr |].
    intros Hlo. apply np_fmod_small_neg. split; assumption.
Qed.

Lemma wrap_ra_of_negative_witness :
  ∃ y k, wrap_ra [10; -190; 370]%Q !! 1%nat = Some y ∧
         (y == -190 + 360 * inject_Z k)%Q ∧ (-360 < y <= 0)%Q ∧
         ((-360 < -190)%Q → (y == -190)%Q).
Proof.
  apply (wrap_ra_of_negative [10; -190; 370]%Q 1%nat (-190)%Q).
  - reflexivity.
  - vm_compute. reflexivity.
Defined.

(** ** The right ascension edges of the grid *)

Lemma sorted_by_lookup {A} (R : relation A) (l : list A) :
  (∀ i j x y, (i < j)%nat → l !! i = Some x → l !! j = Some y → R x y) →
  StronglySorted R l.
Proof.
  induction l as [| a l IH]; intros Hl; constructor.
  - apply IH. intros i j x y Hij Hx Hy. apply (Hl (S i) (S j)); [lia | exact Hx | exact Hy].
  - apply Forall_forall. intros y Hy. apply list_elem_of_lookup in Hy as [j Hj].
    apply (Hl 0%nat (S j)); [lia | reflexivity | exact Hj].
Qed.

Lemma strictly_sorted_weaken (l : list Q) : StronglySorted Qlt l → StronglySorted Qle l.
Proof.
  induction 1 as [| x l Hs IH Hx]; constructor; [exact IH |].
  eapply Forall_impl; [exact Hx |]. intros y Hy. simpl in Hy. lra.
Qed.

Lemma np_sort_of_sorted (l : list Q) : StronglySorted Qle l → np_sort l = l.
Proof.
  induction 1 as [| x l Hs IH Hx]; [reflexivity |].
  unfold np_sort in *. simpl. rewrite IH.
  destruct l as [| y l]; [reflexivity |]. simpl.
  apply Forall_cons in Hx as [Hxy _]. apply Qle_bool_iff in Hxy. rewrite Hxy. reflexivity.
Qed.

Lemma drop_repeats_of_strict (l : list Q) : StronglySorted Qlt l → drop_repeats l = l.
Proof.
  induction 1 as [| x l Hs IH Hx]; [reflexivity |].
  destruct l as [| y l]; [reflexivity |].
  change (drop_repeats (x :: y :: l))
    with (if Qeq_bool x y then drop_repeats (y :: l) else x :: drop_repeats (y :: l)).
  apply Forall_cons in Hx as [Hxy _].
  destruct (Qeq_bool x y) eqn:E.
  - apply Qeq_bool_iff in E. lra.
  - rewrite IH. reflexivity.
Qed.

Lemma np_unique_of_strict (l : list Q) : StronglySorted Qlt l → np_unique l = l.
Proof.
  intros Hs. unfold np_unique.
  rewrite np_sort_of_sorted by (apply strictly_sorted_weaken, Hs).
  apply drop_repeats_of_strict, Hs.
Qed.

Lemma np_linspace_length (start stop : Q) (num : nat) :
  length (np_linspace start stop num) = num.
Proof.
  unfold np_linspace. destruct (1 <? num)%nat.
  - rewrite length_insert, length_fmap, length_seq. reflexivity.
  - rewrite length_fmap, length_seq. reflexivity.
Qed.

Lemma np_linspace_lookup (start stop : Q) (n i : nat) (y : Q) :
  (0 < n)%nat →
  np_linspace start stop (S n) !! i = Some y →
  ((i < n)%nat ∧
   y = (inject_Z (Z.of_nat i) * ((stop - start) / inject_Z (Z.of_nat n)) + start)%Q) ∨
  (i = n ∧ y = stop).
Proof.
  intros Hn. unfold np_linspace.
  replace (1 <? S n)%nat with true by (symmetry; apply Nat.ltb_lt; lia).
  replace (S n - 1)%nat with n by lia.
  intros Hy. destruct (decide (i = n)) as [-> | Hne].
  - right. rewrite list_lookup_insert_eq in Hy
      by (rewrite length_fmap, length_seq; lia).
    injection Hy as <-. auto.
  - left. rewrite list_lookup_insert_ne in Hy by congruence.
    rewrite list_lookup_fmap in Hy.
    destruct (seq 0 (S n) !! i) as [j |] eqn:Hj; [| discriminate].
    apply lookup_seq in Hj as [-> Hlt]. injection Hy as <-.
    split; [lia | reflexivity].
Qed.

Lemma np_linspace_increasing (start stop : Q) (n : nat) :
  (0 < n)%nat → (start < stop)%Q →
  StronglySorted Qlt (np_linspace start stop (S n)).
Proof.
  intros Hn Hlt. apply sorted_by_lookup. intros i j x y Hij Hx Hy.
  assert (0 < inject_Z (Z.of_nat n))%Q as HN
    by (change 0%Q with (inject_Z 0); rewrite <- Zlt_Qlt; lia).
  set (step := ((stop - start) / inject_Z (Z.of_nat n))%Q) in *.
  assert (step * inject_Z (Z.of_nat n) == stop - start)%Q as Hstep
    by (unfold step; field; lra).
  assert (0 < step)%Q as Hpos.
  { unfold step. apply Qlt_shift_div_l; [exact HN | lra]. }
  assert (∀ a b : nat, (a < b)%nat →
            (inject_Z (Z.of_nat a) * step < inject_Z (Z.of_nat b) * step)%Q) as Hmono.
  { intros a b Hab. apply Qmult_lt_compat_r; [exact Hpos |].
    rewrite <- Zlt_Qlt. lia. }
  destruct (np_linspace_lookup _ _ _ _ _ Hn Hx) as [[Hi ->] | [-> ->]];
    destruct (np_linspace_lookup _ _ _ _ _ Hn Hy) as [[Hj ->] | [-> ->]]; try lia.
  - fold step. pose proof (Hmono i j Hij). lra.
  - fold step. pose proof (Hmono i n Hi).
    assert (inject_Z (Z.of_nat n) * step == stop - start)%Q by lra. lra.
Qed.

(** X20.  The right ascension edges [plot_sky_binned] builds for a grid of
    [n_ra] columns pass the checks of [plot_grid_map]: [np.unique] leaves
    them as they are, there are [n_ra + 1] of them, and the first one is the
    last one less 360. *)
Theorem sky_ra_edges_are_accepted (n_ra : nat) :
  (0 < n_ra)%nat →
  ∃ e0 en,
    np_unique (sky_ra_edges n_ra) = sky_ra_edges n_ra ∧
    length (np_unique (sky_ra_edges n_ra)) = S n_ra ∧
    head (np_unique (sky_ra_edges n_ra)) = Some e0 ∧
    last (np_unique (sky_ra_edges n_ra)) = Some en ∧
    (e0 == en - 360)%Q.
Proof.
  intros Hn. unfold sky_ra_edges. replace (n_ra + 1)%nat with (S n_ra) by lia.
  assert (np_unique (np_linspace (-180) 180 (S n_ra)) = np_linspace (-180) 180 (S n_ra)) as Hu
    by (apply np_unique_of_strict, np_linspace_increasing; [exact Hn | reflexivity]).
  rewrite Hu.
  pose proof (np_linspace_length (-180) 180 (S n_ra)) as Hlen.
  destruct (np_linspace (-180) 180 (S n_ra) !! 0%nat) as [e0 |] eqn:H0;
    [| apply lookup_ge_None in H0; lia].
  destruct (np_linspace (-180) 180 (S n_ra) !! n_ra) as [en |] eqn:Hlast;
    [| apply lookup_ge_None in Hlast; lia].
  exists e0, en. split; [reflexivity |]. split; [exact Hlen |].
  split; [rewrite head_lookup; exact H0 |].
  split; [rewrite last_lookup, Hlen; exact Hlast |].
  destruct (np_linspace_lookup _ _ _ _ _ Hn H0) as [[_ ->] | [? _]]; [| lia].
  destruct (np_linspace_lookup _ _ _ _ _ Hn Hlast) as [[? _] | [_ ->]]; [lia |].
  change (inject_Z (Z.of_nat 0)) with 0%Q. lra.
Qed.

Lemma sky_ra_edges_are_accepted_witness :
  ∃ e0 en,
    np_unique (sky_ra_edges 4) = sky_ra_edges 4 ∧
    length (np_unique (sky_ra_edges 4)) = 5%nat ∧
    head (np_unique (sky_ra_edges 4)) = Some e0 ∧
    last (np_unique (sky_ra_edges 4)) = Some en ∧
    (e0 == en - 360)%Q.
Proof. apply (sky_ra_edges_are_accepted 4). lia. Defined.

(** * plot_sky_circles *)

Lemma boolean_index_nil {A} (b : list bool) : boolean_index b (@nil A) = [].
Proof. destruct b as [| [] b]; reflexivity. Qed.

Lemma boolean_index_zip {A B} (b : list bool) (xs : list A) (ys : list B) :
  zip (boolean_index b xs) (boolean_index b ys) = boolean_index b (zip xs ys).
Proof.
  revert xs ys. induction b as [| c b IH]; intros xs ys; [reflexivity |].
  destruct xs as [| x xs], ys as [| y ys], c; simpl;
    rewrite ?IH, ?boolean_index_nil; try reflexivity.
  destruct (boolean_index b xs); reflexivity.
Qed.

Lemma np_fmod_small_nonneg (x : Q) : (0 <= x < 360)%Q → (np_fmod x 360 == x)%Q.
Proof.
  intros [Hlo Hhi]. unfold np_fmod, Qtrunc.
  assert (x == 360 * (x / 360))%Q as Hq by field.
  pose proof (Qfloor_le (x / 360)) as Hf1.
  pose proof (Qlt_floor (x / 360)) as Hf2.
  rewrite inject_Z_plus in Hf2. change (inject_Z 1) with 1%Q in Hf2.
  destruct (Qle_bool 0 (x / 360)) eqn:E.
  - assert (Qfloor (x / 360) < 1)%Z as H1
      by (rewrite Zlt_Qlt; change (inject_Z 1) with 1%Q; lra).
    assert (-1 < Qfloor (x / 360))%Z as H2
      by (rewrite Zlt_Qlt; change (inject_Z (-1)) with (-1 # 1)%Q; lra).
    replace (Qfloor (x / 360)) with 0%Z by lia.
    change (inject_Z 0) with 0%Q. lra.
  - apply Qle_bool_false in E. lra.
Qed.

(** A circle that is not [wrapped] has its centre right of the left edge of
    the map. *)
Lemma circle_not_wrapped (lon_min ra dra : Q) :
  (0 < dra)%Q → circle_wrapped lon_min ra dra = false → (lon_min < ra)%Q.
Proof.
  intros Hdra. unfold circle_wrapped, Qltb, np_minimum.
  intros H. apply negb_false_iff, Qle_bool_iff in H.
  destruct (Qle_lt_or_eq 0 (ra - lon_min)) as [Hpos | Hzero]; try lra.
  - destruct (Qlt_le_dec (ra - lon_min) 0) as [Hneg | Hge]; [| exact Hge].
    exfalso. pose proof (np_fmod_neg _ Hneg) as Hr.
    destruct (Qle_bool (np_fmod (ra - lon_min) 360) (360 - np_fmod (ra - lon_min) 360)) eqn:E.
    + lra.
    + apply Qle_bool_false in E. lra.
  - exfalso.
    assert (np_fmod (ra - lon_min) 360 == 0)%Q as Hr
      by (rewrite np_fmod_small_nonneg; lra).
    destruct (Qle_bool (np_fmod (ra - lon_min) 360) (360 - np_fmod (ra - lon_min) 360)) eqn:E.
    + lra.
    + apply Qle_bool_false in E. lra.
Qed.

(** A circle inside the map, further than [1.05 * dRA] from both edges, is
    not [wrapped]. *)
Lemma circle_inside (lon_min ra dra : Q) :
  (lon_min <= ra < lon_min + 360)%Q →
  ((21 # 20) * dra <= ra - lon_min)%Q →
  ((21 # 20) * dra <= lon_min + 360 - ra)%Q →
  circle_wrapped lon_min ra dra = false.
Proof.
  intros Hin Hleft Hright. unfold circle_wrapped, Qltb, np_minimum.
  assert (np_fmod (ra - lon_min) 360 == ra - lon_min)%Q as Hr
    by (apply np_fmod_small_nonneg; lra).
  apply negb_false_iff, Qle_bool_iff.
  destruct (Qle_bool (np_fmod (ra - lon_min) 360) (360 - np_fmod (ra - lon_min) 360)); lra.
Qed.

Lemma drawn_circles_elem {C} (cos_deg : Q → Q) (bm : sky_map) (field_of_view : Q)
    (ra_center dec_center : list Q) (facecolors : list C) (ra dec dra : Q) (fc : C) :
  (ra, dec, dra, fc) ∈ drawn_circles cos_deg bm field_of_view ra_center dec_center facecolors ↔
  ∃ i, ra_center !! i = Some ra ∧ dec_center !! i = Some dec ∧ facecolors !! i = Some fc ∧
       dra = (((1 # 2) * field_of_view) / cos_deg dec)%Q ∧
       circle_wrapped (lonmin bm) ra dra = false.
Proof.
  unfold drawn_circles. rewrite !boolean_index_zip, elem_of_boolean_index.
  unfold wrapped_circles, circle_dRA. split.
  - intros (i & Hkeep & Hc). exists i.
    apply lookup_zip_with_Some in Hc as (c3 & fc' & Heq & Hc3 & Hfc).
    injection Heq as <- <-.
    apply lookup_zip_with_Some in Hc3 as (c2 & dra' & Heq & Hc2 & Hdra).
    injection Heq as <- <-.
    apply lookup_zip_with_Some in Hc2 as (ra' & dec' & Heq & Hra & Hdec).
    injection Heq as <- <-.
    rewrite list_lookup_fmap, Hdec in Hdra. injection Hdra as <-.
    rewrite list_lookup_fmap in Hkeep.
    destruct (zip_with _ ra_center _ !! i) as [w |] eqn:Hw; [| discriminate].
    injection Hkeep as Hkeep. apply negb_true_iff in Hkeep. subst w.
    apply lookup_zip_with_Some in Hw as (ra' & dra' & Heq & Hra' & Hdra').
    rewrite Hra in Hra'. injection Hra' as <-.
    rewrite list_lookup_fmap, Hdec in Hdra'. injection Hdra' as <-.
    split_and!; auto.
  - intros (i & Hra & Hdec & Hfc & -> & Hw). exists i. split.
    + rewrite list_lookup_fmap.
      assert (zip_with (circle_wrapped (lonmin bm)) ra_center
                ((λ dec, ((1 # 2) * field_of_view) / cos_deg dec)%Q <$> dec_center) !! i
              = Some false) as ->; [| reflexivity].
      apply lookup_zip_with_Some. eexists _, _. split; [| split; [exact Hra |]].
      * symmetry. exact Hw.
      * rewrite list_lookup_fmap, Hdec. reflexivity.
    + apply lookup_zip_with_Some. eexists _, _. split; [reflexivity |]. split; [| exact Hfc].
      apply lookup_zip_with_Some. eexists _, _. split; [reflexivity |]. split.
      * apply lookup_zip_with_Some. eexists _, _. split; [reflexivity |]. split; eassumption.
      * rewrite list_lookup_fmap, Hdec. reflexivity.
Qed.

(** X21.  [plot_sky_circles] draws no circle whose centre is at or left of
    the left edge of the map, however far from that edge it is: for such a
    centre [edge_dist] is not positive, and the circle counts as wrapping
    around. *)
Theorem circles_left_of_the_map_are_not_drawn {C}
    (cos_deg : Q → Q) (bm : sky_map) (field_of_view : Q)
    (ra_center dec_center : list Q) (facecolors : list C) (ra dec dra : Q) (fc : C) :
  (0 < field_of_view)%Q →
  Forall (λ dec, 0 < cos_deg dec)%Q dec_center →
  (ra, dec, dra, fc) ∈ drawn_circles cos_deg bm field_of_view ra_center dec_center facecolors →
  (lonmin bm < ra)%Q.
Proof.
  intros Hfov Hcos Hin.
  apply drawn_circles_elem in Hin as (i & Hra & Hdec & Hfc & -> & Hw).
  eapply circle_not_wrapped; [| exact Hw].
  rewrite Forall_forall in Hcos.
  assert (0 < cos_deg dec)%Q as Hc
    by (apply Hcos; eapply list_elem_of_lookup_2; exact Hdec).
  apply Qlt_shift_div_l; [exact Hc | lra].
Qed.

Lemma circles_left_of_the_map_are_not_drawn_witness :
  (lonmin sky120 < 100)%Q.
Proof.
  apply (circles_left_of_the_map_are_not_drawn cos_on_equator sky120 (16 # 5)
           [-120; 100]%Q [0; 0]%Q ["blue"; "green"] 100 0 (16 # 10) "green").
  - reflexivity.
  - repeat constructor.
  - vm_compute. apply list_elem_of_here.
Defined.

(** X22.  A circle whose centre lies inside the map, at least [1.05 * dRA]
    from both of its edges, is drawn by [plot_sky_circles], with its own
    [dRA] and its own face colour. *)
Theorem circle_inside_the_map_is_drawn {C}
    (cos_deg : Q → Q) (bm : sky_map) (field_of_view : Q)
    (ra_center dec_center : list Q) (facecolors : list C) (i : nat) (ra dec : Q) (fc : C) :
  ra_center !! i = Some ra →
  dec_center !! i = Some dec →
  facecolors !! i = Some fc →
  (lonmin bm <= ra < lonmin bm + 360)%Q →
  ((21 # 20) * (((1 # 2) * field_of_view) / cos_deg dec) <= ra - lonmin bm)%Q →
  ((21 # 20) * (((1 # 2) * field_of_view) / cos_deg dec) <= lonmin bm + 360 - ra)%Q →
  (ra, dec, (((1 # 2) * field_of_view) / cos_deg dec)%Q, fc)
  ∈ drawn_circles cos_deg bm field_of_view ra_center dec_center facecolors.
Proof.
  intros Hra Hdec Hfc Hin Hleft Hright.
  apply drawn_circles_elem. exists i.
  split; [exact Hra |]. split; [exact Hdec |]. split; [exact Hfc |].
  split; [reflexivity |]. apply circle_inside; assumption.
Qed.

Lemma circle_inside_the_map_is_drawn_witness :
  (100%Q, 0%Q, (((1 # 2) * (16 # 5)) / cos_on_equator 0)%Q, "green")
  ∈ drawn_circles cos_on_equator sky120 (16 # 5) [-120; 100]%Q [0; 0]%Q ["blue"; "green"].
Proof.
  apply (circle_inside_the_map_is_drawn cos_on_equator sky120 (16 # 5)
           [-120; 100]%Q [0; 0]%Q ["blue"; "green"] 1%nat 100 0 "green").
  - reflexivity.
  - reflexivity.
  - reflexivity.
  - split; vm_compute; [discriminate | reflexivity].
  - vm_compute. discriminate.
  - vm_compute. discriminate.
Defined.

(** * plot_healpix_map *)

Lemma masked_input_fast_path (pf : string → option Q) (h : heap) (data : loc)
    (sh : shape) (vals : list Q) (m : option loc) :
  h !! data = Some (MaskedArray sh vals m) →
  prepare_data pf data None None None h = (h, Ret data).
Proof.
  intros Hd. unfold prepare_data.
  rewrite (bind_Ret _ _ _ _ _ (load_data_MaskedArray _ _ _ _ _ Hd)).
  reflexivity.
Qed.

Lemma set_pixels_length (wrapped : list nat) (b : list bool) :
  length (set_pixels wrapped b) = length b.
Proof.
  unfold set_pixels. induction wrapped as [| i w IH]; [reflexivity |].
  simpl. rewrite length_insert. exact IH.
Qed.

Lemma set_pixels_lookup_true (wrapped : list nat) (b : list bool) (i : nat) :
  i ∈ wrapped → (i < length b)%nat → set_pixels wrapped b !! i = Some true.
Proof.
  intros Hi Hlt. induction wrapped as [| j w IH]; [inversion Hi |].
  change (set_pixels (j :: w) b) with (<[j := true]> (set_pixels w b)).
  destruct (decide (i = j)) as [-> | Hne].
  - apply list_lookup_insert_eq. rewrite set_pixels_length. exact Hlt.
  - rewrite list_lookup_insert_ne by congruence.
    apply IH. apply elem_of_cons in Hi as [? | ?]; [contradiction | assumption].
Qed.

Lemma set_pixels_lookup_other (wrapped : list nat) (b : list bool) (i : nat) :
  i ∉ wrapped → set_pixels wrapped b !! i = b !! i.
Proof.
  intros Hi. induction wrapped as [| j w IH]; [reflexivity |].
  change (set_pixels (j :: w) b) with (<[j := true]> (set_pixels w b)).
  apply not_elem_of_cons in Hi as [Hne Hi].
  rewrite list_lookup_insert_ne by congruence. apply IH, Hi.
Qed.

(** X23.  When [plot_healpix_map] is given a masked array with a mask array
    of its own, it draws from that very array and writes into its mask: after
    the call the caller's mask is set at every pixel that wraps around, and
    is as before at all others. *)
Theorem plot_healpix_map_masks_the_input
    (py_float : string → option Q) (init_sky : sky_map)
    (npix2nside : nat → option nat) (wrapped_pixels : nat → sky_map → list nat)
    (data : loc) (cmap : string) (colorbar : bool) (label : option string)
    (basemap : option sky_map) (h h' : heap) (p : healpix_plot)
    (sh : shape) (vals : list Q) (l : loc) (msh : shape) (bits : list bool) :
  h !! data = Some (MaskedArray sh vals (Some l)) →
  h !! l = Some (BoolArray msh bits) →
  plot_healpix_map py_float init_sky npix2nside wrapped_pixels data cmap colorbar label basemap h
  = (h', Plotted p) →
  ∃ bits',
    h' !! data = Some (MaskedArray sh vals (Some l)) ∧
    h' !! l = Some (BoolArray msh bits') ∧
    (∀ i, i ∈ wrapped_pixels (hp_nside p) (hp_basemap p) → bits' !! i = Some true) ∧
    (∀ i, i ∉ wrapped_pixels (hp_nside p) (hp_basemap p) → bits' !! i = bits !! i).
Proof.
  intros Hd Hl. unfold plot_healpix_map.
  rewrite (masked_input_fast_path _ _ _ _ _ _ Hd), Hd.
  destruct sh as [| npix [| ? ?]]; try discriminate.
  destruct (npix2nside npix) as [nside |]; [| discriminate].
  rewrite Hl.
  destruct (forallb _ _) eqn:Hrange; [| discriminate].
  intros [= <- <-]. simpl.
  exists (set_pixels (wrapped_pixels nside (default init_sky basemap)) bits).
  assert (data ≠ l) as Hne by (intros ->; congruence).
  split; [rewrite lookup_insert_ne by congruence; exact Hd |].
  split; [apply lookup_insert_eq |].
  split.
  - intros i Hi. apply set_pixels_lookup_true; [exact Hi |].
    rewrite forallb_forall in Hrange.
    apply Nat.ltb_lt, Hrange, list_elem_of_In, Hi.
  - intros i Hi. apply set_pixels_lookup_other, Hi.
Qed.

Lemma plot_healpix_map_masks_the_input_witness :
  ∃ h' p bits',
    plot_healpix_map decimal_float sky120 nside_of_12 wrapped_2_6 1%positive
      "viridis" true None None healpix12
    = (h', Plotted p) ∧
    h' !! 1%positive
    = Some (MaskedArray [12%nat] [1; 2; 3; 4; 5; 6; 7; 8; 9; 10; 11; 12]%Q (Some 2%positive)) ∧
    h' !! 2%positive = Some (BoolArray [12%nat] bits') ∧
    (∀ i, i ∈ wrapped_2_6 (hp_nside p) (hp_basemap p) → bits' !! i = Some true) ∧
    (∀ i, i ∉ wrapped_2_6 (hp_nside p) (hp_basemap p) →
          bits' !! i = replicate 12 false !! i).
Proof.
  eexists. eexists.
  assert (plot_healpix_map decimal_float sky120 nside_of_12 wrapped_2_6 1%positive
            "viridis" true None None healpix12
          = (_, Plotted _)) as Hplot
    by (vm_compute; reflexivity).
  destruct (plot_healpix_map_masks_the_input decimal_float sky120 nside_of_12 wrapped_2_6
              1%positive "viridis" true None None healpix12 _ _
              [12%nat] [1; 2; 3; 4; 5; 6; 7; 8; 9; 10; 11; 12]%Q 2%positive [12%nat]
              (replicate 12 false) ltac:(reflexivity) ltac:(reflexivity) Hplot)
    as (bits' & Hres).
  exists bits'. split; [exact Hplot | exact Hres].
Defined.

(** X24.  A masked array that carries no mask array cannot be drawn by
    [plot_healpix_map]: once healpy has accepted the number of pixels, the
    assignment into [data.mask] raises [TypeError], and nothing is changed. *)
Theorem plot_healpix_map_needs_a_mask_array
    (py_float : string → option Q) (init_sky : sky_map)
    (npix2nside : nat → option nat) (wrapped_pixels : nat → sky_map → list nat)
    (data : loc) (cmap : string) (colorbar : bool) (label : option string)
    (basemap : option sky_map) (h : heap) (npix nside : nat) (vals : list Q) :
  h !! data = Some (MaskedArray [npix] vals None) →
  npix2nside npix = Some nside →
  plot_healpix_map py_float init_sky npix2nside wrapped_pixels data cmap colorbar label basemap h
  = (h, Failed MaskNotWritable).
Proof.
  intros Hd Hn. unfold plot_healpix_map.
  rewrite (masked_input_fast_path _ _ _ _ _ _ Hd), Hd, Hn. reflexivity.
Qed.

Lemma plot_healpix_map_needs_a_mask_array_witness :
  plot_healpix_map decimal_float sky120 nside_of_12 wrapped_2_6 3%positive
    "viridis" true None None healpix12
  = (healpix12, Failed MaskNotWritable).
Proof.
  apply (plot_healpix_map_needs_a_mask_array decimal_float sky120 nside_of_12 wrapped_2_6
           3%positive "viridis" true None None healpix12 12%nat 1%nat
           [1; 2; 3; 4; 5; 6; 7; 8; 9; 10; 11; 12]%Q).
  - reflexivity.
  - reflexivity.
Defined.

(** X25.  When [plot_healpix_map] is given a plain array, the pixels that
    wrap around are masked in a mask that [prepare_data] has created: no
    object that existed before the call is changed. *)
Theorem plot_healpix_map_spares_a_plain_array
    (py_float : string → option Q) (init_sky : sky_map)
    (npix2nside : nat → option nat) (wrapped_pixels : nat → sky_map → list nat)
    (data : loc) (cmap : string) (colorbar : bool) (label : option string)
    (basemap : option sky_map) (h h' : heap) (p : healpix_plot)
    (sh : shape) (vals : list Q) :
  h !! data = Some (NdArray sh vals) →
  plot_healpix_map py_float init_sky npix2nside wrapped_pixels data cmap colorbar label basemap h
  = (h', Plotted p) →
  (∀ l, is_Some (h !! l) → h' !! l = h !! l) ∧
  (∀ i c, i ∈ wrapped_pixels (hp_nside p) (hp_basemap p) →
          hp_cells p !! i = Some c → c.2 = true).
Proof.
  intros Hd. unfold plot_healpix_map.
  destruct (prepare_data py_float data None None None h) as [h1 [d | e |]] eqn:Hprep;
    try discriminate.
  apply prepare_data_Ret_inv in Hprep as (sh0 & vals0 & own & Hparts & [Hfast | Hslow]).
  { destruct Hfast as (_ & _ & _ & _ & _ & [m Hm]).
    unfold data_parts in Hparts. rewrite Hd in Hparts. congruence. }
  destruct Hslow as (mbits & obits & lo & flo & hi & fhi & rm & _ & _ & _ & _ & _
                     & Hnew & Hres & _ & Hframe & Hrm & _ & _).
  rewrite Hres.
  destruct sh0 as [| npix [| ? ?]]; try discriminate.
  destruct (npix2nside npix) as [nside |]; [| discriminate].
  destruct rm as [l |]; [| discriminate].
  destruct (h1 !! l) as [[| msh bits |] |] eqn:Hl; try discriminate.
  destruct (forallb _ _) eqn:Hrange; [| discriminate].
  intros [= <- <-]. simpl. split.
  - intros l' Hl'.
    assert (l ≠ l') as Hne.
    { intros <-. destruct (Hrm l eq_refl Hl') as [_ [[=] | [_ Hown]]].
      unfold data_parts in Hparts. rewrite Hd in Hparts. congruence. }
    rewrite lookup_insert_ne by exact Hne.
    apply Hframe; [exact Hl' | congruence].
  - intros i [v b] Hi Hc. simpl.
    apply lookup_zip_with_Some in Hc as (v' & b' & Heq & _ & Hb).
    injection Heq as <- <-.
    rewrite set_pixels_lookup_true in Hb; [congruence | exact Hi |].
    rewrite forallb_forall in Hrange.
    apply Nat.ltb_lt, Hrange, list_elem_of_In, Hi.
Qed.

Lemma plot_healpix_map_spares_a_plain_array_witness :
  ∃ h' p,
    plot_healpix_map decimal_float sky120 nside_of_12 wrapped_2_6 4%positive
      "viridis" true None None healpix12
    = (h', Plotted p) ∧
    (∀ l, is_Some (healpix12 !! l) → h' !! l = healpix12 !! l) ∧
    (∀ i c, i ∈ wrapped_2_6 (hp_nside p) (hp_basemap p) →
            hp_cells p !! i = Some c → c.2 = true).
Proof.
  eexists. eexists.
  assert (plot_healpix_map decimal_float sky120 nside_of_12 wrapped_2_6 4%positive
            "viridis" true None None healpix12
          = (_, Plotted _)) as Hplot
    by (vm_compute; reflexivity).
  split; [exact Hplot |].
  exact (plot_healpix_map_spares_a_plain_array decimal_float sky120 nside_of_12 wrapped_2_6
           4%positive "viridis" true None None healpix12 _ _
           [12%nat] [1; 2; 3; 4; 5; 6; 7; 8; 9; 10; 11; 12]%Q ltac:(reflexivity) Hplot).
Defined.

(** * plot_slices *)

Lemma nondecreasing_of_sorted (l : list Q) : StronglySorted Qle l → nondecreasing l = true.
Proof.
  induction 1 as [| x l Hs IH Hx]; [reflexivity |].
  destruct l as [| y l]; [reflexivity |].
  change (nondecreasing (x :: y :: l)) with (Qle_bool x y && nondecreasing (y :: l)).
  apply Forall_cons in Hx as [Hxy _]. apply Qle_bool_iff in Hxy.
  rewrite Hxy, IH. reflexivity.
Qed.

(** In a sorted array the elements up to [v] are those before the index
    that [searchsorted] returns. *)
Lemma searchsorted_right_spec (a : list Q) (v : Q) (k : nat) (b : Q) :
  StronglySorted Qle a → a !! k = Some b →
  ((b <= v)%Q ↔ (k < searchsorted_right a v)%nat).
Proof.
  intros Hs. revert k. induction Hs as [| b0 a Hs IH Hb0]; intros k Hk; [discriminate |].
  cbn [searchsorted_right]. destruct (Qle_bool b0 v) eqn:E.
  - apply Qle_bool_iff in E. destruct k as [| k]; simpl in Hk.
    + injection Hk as <-. split; [lia | auto].
    + rewrite (IH k Hk). lia.
  - apply Qle_bool_false in E. split; [| lia].
    intros Hle. exfalso.
    assert (b0 <= b)%Q.
    { destruct k as [| k]; simpl in Hk; [injection Hk as <-; lra |].
      rewrite Forall_forall in Hb0. apply Hb0. eapply list_elem_of_lookup_2. exact Hk. }
    lra.
Qed.

Lemma slice_index_spec (bins : list Q) (s : nat) (a b v : Q) :
  StronglySorted Qle bins →
  bins !! s = Some a → bins !! S s = Some b →
  Z.eqb (Z.of_nat (searchsorted_right bins v) - 1) (Z.of_nat s)
  = Qle_bool a v && Qltb v b.
Proof.
  intros Hs Ha Hb.
  pose proof (searchsorted_right_spec bins v s a Hs Ha) as Hsa.
  pose proof (searchsorted_right_spec bins v (S s) b Hs Hb) as Hsb.
  unfold Qltb.
  destruct (Qle_bool a v) eqn:Ea, (Qle_bool b v) eqn:Eb; simpl;
    rewrite ?Qle_bool_iff in *;
    try apply Qle_bool_false in Ea; try apply Qle_bool_false in Eb.
  - apply Z.eqb_neq. apply Hsb in Eb. lia.
  - apply Z.eqb_eq. apply Hsa in Ea.
    assert (¬ (S s < searchsorted_right bins v)%nat) by (intros H; apply Hsb in H; lra).
    lia.
  - apply Z.eqb_neq. apply Hsb in Eb. lia.
  - apply Z.eqb_neq.
    assert (¬ (s < searchsorted_right bins v)%nat) by (intros H; apply Hsa in H; lra).
    lia.
Qed.

Lemma mapM_total {A B} (f : A → option B) (g : A → B) (l : list A) :
  (∀ a, f a = Some (g a)) → mapM f l = Some (g <$> l).
Proof.
  intros Hf. apply mapM_Some_2. induction l as [| a l IH]; constructor; auto.
Qed.

(** X26.  For [x_lo < x_hi], the loop of [plot_slices] gives one entry per
    slice: slice [s] holds the [y] of exactly the points whose [x] lies in
    the half-open interval [[x_bins[s], x_bins[s+1])], which is inside
    [[x_lo, x_hi]]; its count is their number and its limits are their
    percentiles, or zeros when there is none.  A point at [x_hi] is in no
    slice. *)
Theorem slices_are_half_open_intervals (x y : list Q) (x_lo x_hi : Q) (num_slices : nat) :
  (x_lo < x_hi)%Q →
  (0 < num_slices)%nat →
  length x = length y →
  ∃ stats,
    slice_stats x y x_lo x_hi num_slices = Some stats ∧
    length stats = num_slices ∧
    ∀ s a b,
      slice_bins x_lo x_hi num_slices !! s = Some a →
      slice_bins x_lo x_hi num_slices !! S s = Some b →
      (x_lo <= a)%Q ∧ (b <= x_hi)%Q ∧
      stats !! s
      = Some (let ys := boolean_index ((λ v, Qle_bool a v && Qltb v b) <$> x) y in
              (length ys,
               if (0 <? length ys)%nat then linear_percentile ys <$> slice_percentiles
               else [0; 0; 0; 0; 0]%Q)).
Proof.
  intros Hlt Hn Hlen. unfold slice_stats, slice_indices, np_digitize, slice_bins.
  replace (num_slices + 1)%nat with (S num_slices) by lia.
  pose proof (np_linspace_increasing x_lo x_hi num_slices Hn Hlt) as Hstrict.
  pose proof (strictly_sorted_weaken _ Hstrict) as Hsorted.
  pose proof (np_linspace_length x_lo x_hi (S num_slices)) as Hblen.
  set (bins := np_linspace x_lo x_hi (S num_slices)) in *.
  rewrite (nondecreasing_of_sorted _ Hsorted).
  set (x_i := (λ n : nat, (Z.of_nat n - 1)%Z) <$> (searchsorted_right bins <$> x)).
  assert (length x_i = length y) as Hxi
    by (unfold x_i; rewrite !length_fmap; exact Hlen).
  set (g := λ s, let ys := boolean_index ((λ i, Z.eqb i (Z.of_nat s)) <$> x_i) y in
                 (length ys,
                  if (0 <? length ys)%nat then linear_percentile ys <$> slice_percentiles
                  else [0; 0; 0; 0; 0]%Q)).
  assert (∀ s, slice_stat x_i y s = Some (g s)) as Hstat.
  { intros s. unfold slice_stat, y_slice.
    rewrite (proj2 (Nat.eqb_eq _ _) Hxi). reflexivity. }
  exists (g <$> seq 0 num_slices).
  split; [apply mapM_total, Hstat |].
  split; [rewrite length_fmap, length_seq; reflexivity |].
  intros s a b Ha Hb.
  assert (S s < S num_slices)%nat as Hs
    by (rewrite <- Hblen; apply lookup_lt_is_Some; eauto).
  split; [| split].
  - destruct (bins !! 0%nat) as [e0 |] eqn:H0; [| apply lookup_ge_None in H0; lia].
    assert (e0 <= a)%Q by (eapply (sorted_lookup_le bins 0 s); eauto; lia).
    destruct (np_linspace_lookup _ _ _ _ _ Hn H0) as [[_ ->] | [? _]]; [| lia].
    change (inject_Z (Z.of_nat 0)) with 0%Q in *. lra.
  - destruct (bins !! num_slices) as [en |] eqn:Hlast;
      [| apply lookup_ge_None in Hlast; lia].
    assert (b <= en)%Q by (eapply (sorted_lookup_le bins (S s) num_slices); eauto; lia).
    destruct (np_linspace_lookup _ _ _ _ _ Hn Hlast) as [[? _] | [_ ->]]; [lia | assumption].
  - rewrite list_lookup_fmap, lookup_seq_lt by lia. simpl. unfold g.
    assert ((λ i, Z.eqb i (Z.of_nat s)) <$> x_i = (λ v, Qle_bool a v && Qltb v b) <$> x) as ->;
      [| reflexivity].
    unfold x_i. rewrite <- !list_fmap_compose. apply list_fmap_ext.
    intros i v _. simpl. apply slice_index_spec; assumption.
Qed.

Lemma slices_are_half_open_intervals_witness :
  ∃ stats,
    slice_stats [0; 1; 2; 3; 4]%Q [10; 20; 30; 40; 50]%Q 0 4 2 = Some stats ∧
    length stats = 2%nat ∧
    ∀ s a b,
      slice_bins 0 4 2 !! s = Some a →
      slice_bins 0 4 2 !! S s = Some b →
      (0 <= a)%Q ∧ (b <= 4)%Q ∧
      stats !! s
      = Some (let ys := boolean_index ((λ v, Qle_bool a v && Qltb v b) <$> [0; 1; 2; 3; 4]%Q)
                          [10; 20; 30; 40; 50]%Q in
              (length ys,
               if (0 <? length ys)%nat then linear_percentile ys <$> slice_percentiles
               else [0; 0; 0; 0; 0]%Q)).
Proof.
  apply (slices_are_half_open_intervals [0; 1; 2; 3; 4]%Q [10; 20; 30; 40; 50]%Q 0 4 2).
  - reflexivity.
  - lia.
  - reflexivity.
Defined.

(** ** The percentiles of a slice *)

Lemma insert_sorted_length (x : Q) (l : list Q) : length (insert_sorted x l) = S (length l).
Proof.
  induction l as [| y l IH]; [reflexivity |].
  simpl. destruct (Qle_bool x y); simpl; [reflexivity | rewrite IH; reflexivity].
Qed.

Lemma np_sort_length (l : list Q) : length (np_sort l) = length l.
Proof.
  unfold np_sort. induction l as [| x l IH]; [reflexivity |].
  simpl. rewrite insert_sorted_length, IH. reflexivity.
Qed.

Lemma sorted_nth_le (s : list Q) (i j : Z) :
  StronglySorted Qle s →
  (0 ≤ i)%Z → (i ≤ j)%Z → (j < Z.of_nat (length s))%Z →
  (nth (Z.to_nat i) s 0 <= nth (Z.to_nat j) s 0)%Q.
Proof.
  intros Hs Hi Hij Hj.
  destruct (s !! Z.to_nat i) as [a |] eqn:Ha; [| apply lookup_ge_None in Ha; lia].
  destruct (s !! Z.to_nat j) as [b |] eqn:Hb; [| apply lookup_ge_None in Hb; lia].
  rewrite (nth_lookup_Some _ _ _ _ Ha), (nth_lookup_Some _ _ _ _ Hb).
  eapply (sorted_lookup_le s (Z.to_nat i) (Z.to_nat j)); eauto. lia.
Qed.

Lemma interpolation_between (lo hi g : Q) :
  (lo <= hi)%Q → (0 <= g)%Q → (g <= 1)%Q →
  (lo <= lo + (hi - lo) * g)%Q ∧ (lo + (hi - lo) * g <= hi)%Q.
Proof.
  intros Hle Hg0 Hg1.
  assert (0 <= (hi - lo) * g)%Q by (apply Qmult_le_0_compat; lra).
  assert (0 <= (hi - lo) * (1 - g))%Q by (apply Qmult_le_0_compat; lra).
  split; lra.
Qed.

(** [np.percentile] does not decrease when [q] grows. *)
Lemma linear_percentile_monotone (a : list Q) (q q' : Q) :
  a ≠ [] → (0 <= q)%Q → (q <= q')%Q → (q' <= 100)%Q →
  (linear_percentile a q <= linear_percentile a q')%Q.
Proof.
  intros Hne Hq0 Hqq Hq100. unfold linear_percentile.
  rewrite !Qred_correct.
  pose proof (np_sort_sorted a) as Hs.
  pose proof (np_sort_length a) as Hlen.
  assert (0 < length a)%nat as Hpos by (destruct a; [congruence | simpl; lia]).
  set (s := np_sort a) in *.
  set (n := Z.of_nat (length s)).
  assert (1 ≤ n)%Z as Hn by (unfold n; lia).
  assert (0 <= inject_Z (n - 1))%Q as HN
    by (change 0%Q with (inject_Z 0); rewrite <- Zle_Qle; lia).
  assert (q == 100 * (q / 100))%Q as Hc by field.
  assert (q' == 100 * (q' / 100))%Q as Hc' by field.
  set (v := (q / 100 * inject_Z (n - 1))%Q).
  set (v' := (q' / 100 * inject_Z (n - 1))%Q).
  assert (0 <= v)%Q as Hv0 by (unfold v; apply Qmult_le_0_compat; lra).
  assert (v <= v')%Q as Hvv.
  { unfold v, v'. apply Qmult_le_compat_r; [lra | exact HN]. }
  assert (v' <= inject_Z (n - 1))%Q as HvN.
  { unfold v'.
    assert (0 <= (1 - q' / 100) * inject_Z (n - 1))%Q by (apply Qmult_le_0_compat; lra).
    lra. }
  pose proof (Qfloor_le v) as Hfl. pose proof (Qlt_floor v) as Hfu.
  pose proof (Qfloor_le v') as Hfl'. pose proof (Qlt_floor v') as Hfu'.
  rewrite inject_Z_plus in Hfu, Hfu'.
  change (inject_Z 1) with 1%Q in Hfu, Hfu'.
  assert (0 ≤ Qfloor v)%Z as Hi0
    by (rewrite <- (Qfloor_Z 0); apply Qfloor_resp_le; exact Hv0).
  assert (Qfloor v ≤ Qfloor v')%Z as Hii by (apply Qfloor_resp_le; exact Hvv).
  assert (Qfloor v' ≤ n - 1)%Z as HiN
    by (rewrite <- (Qfloor_Z (n - 1)); apply Qfloor_resp_le; exact HvN).
  set (i := Qfloor v) in *. set (i' := Qfloor v') in *.
  assert (∀ k, (0 ≤ k)%Z → (k ≤ n - 1)%Z →
            (nth (Z.to_nat k) s 0 <= nth (Z.to_nat (Z.min (k + 1) (n - 1))) s 0)%Q) as Hstep.
  { intros k Hk0 HkN. apply sorted_nth_le; [exact Hs | lia | lia | unfold n in *; lia]. }
  pose proof (Hstep i Hi0 ltac:(lia)) as Hab.
  pose proof (Hstep i' ltac:(lia) HiN) as Hab'.
  destruct (interpolation_between _ _ (v - inject_Z i) Hab ltac:(lra) ltac:(lra)) as [_ Hup].
  destruct (interpolation_between _ _ (v' - inject_Z i') Hab' ltac:(lra) ltac:(lra)) as [Hdown _].
  destruct (Z.eq_dec i i') as [Heq | Hneq].
  - rewrite <- Heq in *.
    assert (0 <= (nth (Z.to_nat (Z.min (i + 1) (n - 1))) s 0 - nth (Z.to_nat i) s 0)
                 * (v' - v))%Q by (apply Qmult_le_0_compat; lra).
    lra.
  - assert (nth (Z.to_nat (Z.min (i + 1) (n - 1))) s 0 <= nth (Z.to_nat i') s 0)%Q.
    { apply sorted_nth_le; [exact Hs | lia | lia | unfold n in *; lia]. }
    lra.
Qed.

Lemma slice_percentiles_ordered :
  StronglySorted (λ q q', 0 <= q ∧ q <= q' ∧ q' <= 100)%Q slice_percentiles.
Proof.
  unfold slice_percentiles.
  repeat (constructor; [| repeat (constructor; [split_and!; vm_compute; discriminate |])]);
    constructor.
Qed.

(** X27.  The limits that [plot_slices] computes for a slice are in
    increasing order, so that the band between the 16th and the 84th
    percentile lies within the band between the 2.5th and the 97.5th, and
    the median within both. *)
Theorem slice_limits_are_ordered (x y : list Q) (x_lo x_hi : Q) (num_slices : nat)
    (stats : list (nat * list Q)) (s : nat) (count : nat) (limits : list Q) :
  slice_stats x y x_lo x_hi num_slices = Some stats →
  stats !! s = Some (count, limits) →
  length limits = 5%nat ∧ StronglySorted Qle limits.
Proof.
  unfold slice_stats. destruct (slice_indices _ _) as [x_i |]; [| discriminate].
  intros Hstats Hs. apply mapM_Some_1 in Hstats.
  destruct (Forall2_lookup_r _ _ _ _ _ Hstats Hs) as (s' & _ & Hstat).
  unfold slice_stat in Hstat. destruct (y_slice x_i y s') as [ys |]; [| discriminate].
  injection Hstat as <- <-.
  destruct (0 <? length ys)%nat eqn:Hpos.
  - split; [reflexivity |].
    change (StronglySorted Qle (linear_percentile ys <$> slice_percentiles)).
    eapply StronglySorted_fmap; [| exact slice_percentiles_ordered].
    intros q q' (Hq0 & Hqq & Hq100). apply linear_percentile_monotone; try assumption.
    apply Nat.ltb_lt in Hpos. destruct ys; [simpl in Hpos; lia | congruence].
  - split; [reflexivity |].
    apply sorted_by_lookup. intros i j a b _ Ha Hb.
    assert (a = 0%Q) as -> by (do 5 (destruct i as [| i]; [simpl in Ha; congruence |]);
                                discriminate).
    assert (b = 0%Q) as -> by (do 5 (destruct j as [| j]; [simpl in Hb; congruence |]);
                                discriminate).
    lra.
Qed.

Lemma slice_limits_are_ordered_witness :
  length [121 # 4; 158 # 5; 35; 192 # 5; 159 # 4]%Q = 5%nat ∧
  StronglySorted Qle [121 # 4; 158 # 5; 35; 192 # 5; 159 # 4]%Q.
Proof.
  apply (slice_limits_are_ordered [0; 1; 2; 3; 4]%Q [10; 20; 30; 40; 50]%Q 0 4 2
           [(2%nat, [41 # 4; 58 # 5; 15; 92 # 5; 79 # 4]%Q);
            (2%nat, [121 # 4; 158 # 5; 35; 192 # 5; 159 # 4]%Q)]
           1%nat 2%nat [121 # 4; 158 # 5; 35; 192 # 5; 159 # 4]%Q).
  - vm_compute. reflexivity.
  - reflexivity.
Defined.
